(** * g2p mappings: rule tables, their compilation pipeline and their files

    A shallow embedding of [g2p/mappings/__init__.py] (class [Mapping]) and
    [g2p/mappings/utils.py], with the properties of the specification stated
    and settled against it.

    Python strings are sequences of code points; rule dicts and rule lists are
    mutable objects, kept in an explicit store. *)

From Stdlib Require Import String Ascii ZArith List Bool Lia Permutation Sorted.
Import ListNotations.
Open Scope Z_scope.

(** ** Python strings *)

Definition char := Z.
Definition pystr := list char.

Definition str_of (s : string) : pystr :=
  map (fun a => Z.of_N (N_of_ascii a)) (list_ascii_of_string s).

Fixpoint pystr_eqb (a b : pystr) : bool :=
  match a, b with
  | [], [] => true
  | x :: a', y :: b' => (x =? y) && pystr_eqb a' b'
  | _, _ => false
  end.

Definition len {A} (l : list A) : Z := Z.of_nat (length l).

(** [sep.join(items)] *)
Fixpoint join (sep : pystr) (items : list pystr) : pystr :=
  match items with
  | [] => []
  | [x] => x
  | x :: rest => x ++ sep ++ join sep rest
  end.

(** [s.split(sep)] for a one-character separator; the accumulator is the
    piece being read. *)
Fixpoint split_acc (sep : char) (piece : pystr) (s : pystr) : list pystr :=
  match s with
  | [] => [piece]
  | c :: s' => if c =? sep then piece :: split_acc sep [] s'
               else split_acc sep (piece ++ [c]) s'
  end.

Definition split (sep : char) (s : pystr) : list pystr := split_acc sep [] s.

(** [l.index(x)]: position of the first element equal to [x]; [None] stands
    for [ValueError]. *)
Fixpoint index_from {A} (eqb : A -> A -> bool) (x : A) (l : list A) (i : nat)
  : option nat :=
  match l with
  | [] => None
  | y :: l' => if eqb y x then Some i else index_from eqb x l' (S i)
  end.

Definition index {A} (eqb : A -> A -> bool) (x : A) (l : list A) : option nat :=
  index_from eqb x l 0.

(** [sorted(l, key=..., reverse=True)]: stable, so items with one key keep
    their order. *)
Fixpoint insert_desc {A} (key : A -> nat) (x : A) (l : list A) : list A :=
  match l with
  | [] => [x]
  | y :: l' => if (key x <? key y)%nat then y :: insert_desc key x l'
               else x :: l
  end.

Fixpoint sorted_desc {A} (key : A -> nat) (l : list A) : list A :=
  match l with
  | [] => []
  | x :: l' => insert_desc key x (sorted_desc key l')
  end.

(** ** Values *)

Inductive value :=
| VNone
| VBool (b : bool)
| VInt (z : Z)
| VStr (s : pystr).

(** Python truth of a value. *)
Definition truthy (v : value) : bool :=
  match v with
  | VNone => false
  | VBool b => b
  | VInt z => negb (z =? 0)
  | VStr s => match s with [] => false | _ => true end
  end.

Definition value_eqb (v w : value) : bool :=
  match v, w with
  | VNone, VNone => true
  | VBool a, VBool b => Bool.eqb a b
  | VInt a, VInt b => a =? b
  | VBool a, VInt b => (if a then 1 else 0) =? b
  | VInt a, VBool b => a =? (if b then 1 else 0)
  | VStr a, VStr b => pystr_eqb a b
  | _, _ => false
  end.

(** ** Errors *)

Inductive exn :=
| MalformedLookup
| MappingMissing (in_lang out_lang : value)
| MappingMissingNoArgs
| MalformedMapping
| IncorrectFileType
| IndexError
| KeyError (key : string)
| TypeError
| ValueError
| UnicodeEncodeError
| NotADirectory
| MalformedRegex
| CsvError
| FileNotFoundError
| ReError
| OtherError.

Inductive result (A : Type) :=
| Ok (a : A)
| Raise (e : exn).
Arguments Ok {A} a.
Arguments Raise {A} e.

(** Modelled from the spec: the class [IncorrectFileType] of
    [g2p.exceptions], a module that is not among the sources. An error kind
    carries what its message is built from (spec 4.5), and this one is
    built from a message, as [load_abbreviations_from_file] builds it. The
    statement [raise exceptions.IncorrectFileType] names the class alone:
    Python then calls the class without arguments, the message is missing,
    and the call raises [TypeError] in place of the error kind. *)
Definition IncorrectFileType_without_message : exn := TypeError.

(** ** Rules and the object store *)

(** The value under ['match_pattern']: [False], or a compiled pattern (its
    source text and whether [re.I] was given). *)
Inductive pattern :=
| PFalse
| PCompiled (source : pystr) (ignore_case : bool).

(** A rule dict. The two processing keys may be absent. *)
Record rule := {
  in_ : pystr;
  out : pystr;
  context_before : pystr;
  context_after : pystr;
  intermediate_form : option pystr;
  match_pattern : option pattern
}.

Definition plain_rule (i o cb ca : pystr) : rule :=
  {| in_ := i; out := o; context_before := cb; context_after := ca;
     intermediate_form := None; match_pattern := None |}.

Definition option_eqb {A} (eqb : A -> A -> bool) (a b : option A) : bool :=
  match a, b with
  | None, None => true
  | Some x, Some y => eqb x y
  | _, _ => false
  end.

Definition pattern_eqb (p q : pattern) : bool :=
  match p, q with
  | PFalse, PFalse => true
  | PCompiled s i, PCompiled t j => pystr_eqb s t && Bool.eqb i j
  | _, _ => false
  end.

(** [==] on two rule dicts: same keys, equal values. *)
Definition rule_eqb (r t : rule) : bool :=
  pystr_eqb (in_ r) (in_ t) && pystr_eqb (out r) (out t)
  && pystr_eqb (context_before r) (context_before t)
  && pystr_eqb (context_after r) (context_after t)
  && option_eqb pystr_eqb (intermediate_form r) (intermediate_form t)
  && option_eqb pattern_eqb (match_pattern r) (match_pattern t).

Definition loc := nat.

(** What [LOGGER] is told. *)
Inductive event :=
| Warning_null_input (rule_in rule_out : pystr)
| Error_malformed_regex (inp before after : pystr)
| Info_escaped (v escaped : pystr).

(** Rule dicts and rule lists are objects; a list holds references. The log
    grows at its end. *)
Record store := {
  dicts : loc -> rule;
  lists : loc -> list loc;
  next : loc;
  log : list event
}.

Definition set_dict (s : store) (l : loc) (r : rule) : store :=
  {| dicts := fun l' => if (l' =? l)%nat then r else dicts s l';
     lists := lists s;
     next := next s;
     log := log s |}.

Definition set_list (s : store) (l : loc) (v : list loc) : store :=
  {| dicts := dicts s;
     lists := fun l' => if (l' =? l)%nat then v else lists s l';
     next := next s;
     log := log s |}.

(** The rules a list object holds, in order. *)
Definition view (s : store) (m : loc) : list rule := map (dicts s) (lists s m).

(** Computations that read and write the store and may raise; the store at
    the raise is kept. *)
Definition M (A : Type) : Type := store -> result A * store.

Definition ret {A} (a : A) : M A := fun s => (Ok a, s).
Definition raise {A} (e : exn) : M A := fun s => (Raise e, s).
Definition bind {A B} (m : M A) (k : A -> M B) : M B :=
  fun s => match m s with
           | (Ok a, s') => k a s'
           | (Raise e, s') => (Raise e, s')
           end.

Notation "x <- m ;; k" := (bind m (fun x => k))
  (at level 61, m at next level, right associativity).
Notation "m ;;; k" := (bind m (fun _ => k))
  (at level 61, right associativity).

Definition get_dict (l : loc) : M rule := fun s => (Ok (dicts s l), s).
Definition put_dict (l : loc) (r : rule) : M unit :=
  fun s => (Ok tt, set_dict s l r).
Definition get_list (l : loc) : M (list loc) := fun s => (Ok (lists s l), s).
Definition put_list (l : loc) (v : list loc) : M unit :=
  fun s => (Ok tt, set_list s l v).

Definition new_dict (r : rule) : M loc :=
  fun s => (Ok (next s),
            {| dicts := fun l' => if (l' =? next s)%nat then r else dicts s l';
               lists := lists s;
               next := S (next s);
               log := log s |}).

Definition new_list (v : list loc) : M loc :=
  fun s => (Ok (next s),
            {| dicts := dicts s;
               lists := fun l' => if (l' =? next s)%nat then v else lists s l';
               next := S (next s);
               log := log s |}).

Definition tell (e : event) : M unit :=
  fun s => (Ok tt,
            {| dicts := dicts s; lists := lists s; next := next s;
               log := log s ++ [e] |}).

(** [for x in l: body(x)] over a list that the body leaves alone. *)
Fixpoint for_each {A} (body : A -> M unit) (l : list A) : M unit :=
  match l with
  | [] => ret tt
  | x :: l' => body x ;;; for_each body l'
  end.

(** ** Keyword arguments *)

(** An ordered dict with string keys. *)
Definition odict := list (string * value).

Fixpoint lookup (k : string) (d : odict) : option value :=
  match d with
  | [] => None
  | (k', v) :: d' => if String.eqb k' k then Some v else lookup k d'
  end.

Definition has_key (k : string) (d : odict) : bool :=
  match lookup k d with Some _ => true | None => false end.

(** [d.get(k, default)] *)
Definition get_or (k : string) (default : value) (d : odict) : value :=
  match lookup k d with Some v => v | None => default end.

(** [if k not in d: d[k] = v] *)
Definition set_default (k : string) (v : value) (d : odict) : odict :=
  if has_key k d then d else d ++ [(k, v)].

(** [d[k] = v]: a key already there keeps its place. *)
Fixpoint assign (k : string) (v : value) (d : odict) : odict :=
  match d with
  | [] => [(k, v)]
  | (k', v') :: d' => if String.eqb k' k then (k, v) :: d'
                      else (k', v') :: assign k v d'
  end.

(** [{**a, **b}] *)
Definition merge (a b : odict) : odict :=
  fold_left (fun d kv => assign (fst kv) (snd kv) d) b a.

(** ** String helpers of the engine *)

Definition pua_start : Z := 983040.
Definition max_code_point : Z := 1114111.

(** [chr(n)]; outside the code point range it raises [ValueError]. *)
Definition chr (n : Z) : result char :=
  if (0 <=? n) && (n <=? max_code_point) then Ok n else Raise ValueError.

(** [Mapping._string_to_pua] *)
Definition _string_to_pua (s : pystr) (offset : nat) : result pystr :=
  match chr (pua_start + Z.of_nat offset) with
  | Ok intermediate_char => Ok (repeat intermediate_char (length s))
  | Raise e => Raise e
  end.

(** ** utils.py: the lookbehind rewriter *)

Module Utils.

Definition bar : char := 124.

Record lb_state := {
  current_len : nat;
  all_lookbehinds : list (list pystr);
  current_list : list pystr
}.

(** The first statement of the body of the [for item in pattern] loop of
    [pattern_to_fixed_width_lookbehinds]: the item joins the current list
    or starts a new one. *)
Definition add_item (st : lb_state) (item : pystr) : lb_state :=
  if (length item =? current_len st)%nat
  then {| current_len := current_len st;
          all_lookbehinds := all_lookbehinds st;
          current_list := current_list st ++ [item] |}
  else {| current_len := length item;
          all_lookbehinds := all_lookbehinds st ++ [current_list st];
          current_list := [item] |}.

(** The second statement:
    [if pattern.index(item) == len(pattern) - 1: ...append(current_list)]. *)
Definition close_if_last (pattern : list pystr) (item : pystr) (st : lb_state)
  : lb_state :=
  match index pystr_eqb item pattern with
  | Some i =>
      if (i =? length pattern - 1)%nat
      then {| current_len := current_len st;
              all_lookbehinds := all_lookbehinds st ++ [current_list st];
              current_list := current_list st |}
      else st
  | None => st
  end.

Definition lb_step (pattern : list pystr) (st : lb_state) (item : pystr)
  : lb_state :=
  close_if_last pattern item (add_item st item).

Definition lookbehind (items : list pystr) : pystr :=
  str_of "(?<=" ++ join [bar] items ++ str_of ")".

Definition lb_loop (pattern : list pystr) : list (list pystr) :=
  match pattern with
  | [] => []
  | first :: _ =>
      all_lookbehinds
        (fold_left (lb_step pattern) pattern
           {| current_len := length first;
              all_lookbehinds := [];
              current_list := [] |})
  end.

Definition pattern_to_fixed_width_lookbehinds (matched : pystr) : pystr :=
  let pattern := sorted_desc (@length char) (split bar matched) in
  str_of "(" ++ join [bar] (map lookbehind (lb_loop pattern)) ++ str_of ")".

Section Lookbehind.

(** Membership in the Unicode general categories L and M, as the [regex]
    module decides it. *)
Variable is_letter_or_mark : char -> bool.

Definition in_class (c : char) : bool := is_letter_or_mark c || (c =? bar).

Definition flush (run : pystr) : pystr :=
  match run with
  | [] => []
  | _ => pattern_to_fixed_width_lookbehinds run
  end.

(** [re.sub] over the pattern: each maximal run of class characters is
    replaced by the callback's result. *)
Fixpoint sub_runs (run : pystr) (s : pystr) : pystr :=
  match s with
  | [] => flush run
  | c :: s' => if in_class c then sub_runs (run ++ [c]) s'
               else flush run ++ c :: sub_runs [] s'
  end.

Definition create_fixed_width_lookbehind (pattern : pystr) : pystr :=
  sub_runs [] pattern.

End Lookbehind.

(** The rewrite of one run as the specification words it: alternatives
    sorted by descending length, consecutive alternatives of one length in
    one bucket, one lookbehind per bucket. *)
Fixpoint buckets (alternatives : list pystr) : list (list pystr) :=
  match alternatives with
  | [] => []
  | x :: rest =>
      match buckets rest with
      | (y :: bucket) :: more =>
          if (length x =? length y)%nat then (x :: y :: bucket) :: more
          else [x] :: (y :: bucket) :: more
      | _ => [[x]]
      end
  end.

Definition rewrite_as_specified (run : pystr) : pystr :=
  str_of "("
  ++ join [bar]
       (map lookbehind (buckets (sorted_desc (@length char) (split bar run))))
  ++ str_of ")".

(** *** Text files and the [csv] module (dialect [excel]) *)

Definition comma : char := 44.
Definition dquote : char := 34.
Definition cr : char := 13.
Definition lf : char := 10.

(** Writing through a file opened in text mode without [newline=]: each
    line feed becomes [os.linesep]. *)
Fixpoint write_translate (linesep : pystr) (s : pystr) : pystr :=
  match s with
  | [] => []
  | c :: s' => if c =? lf then linesep ++ write_translate linesep s'
               else c :: write_translate linesep s'
  end.

(** Reading through a file opened in text mode without [newline=]: a
    carriage return, with the line feed after it if there is one, becomes
    one line feed. *)
Fixpoint read_translate (s : pystr) : pystr :=
  match s with
  | [] => []
  | c :: s' =>
      if c =? cr
      then lf :: match s' with
                 | d :: s'' => if d =? lf then read_translate s''
                               else read_translate s'
                 | [] => []
                 end
      else c :: read_translate s'
  end.

(** The lines a text file iterates over; each keeps its line feed. *)
Fixpoint lines_acc (line : pystr) (s : pystr) : list pystr :=
  match s with
  | [] => match line with [] => [] | _ => [line] end
  | c :: s' => if c =? lf then (line ++ [c]) :: lines_acc [] s'
               else lines_acc (line ++ [c]) s'
  end.

Definition file_lines (s : pystr) : list pystr := lines_acc [] s.

(** [csv.writer]: a field is quoted when it holds the delimiter, the quote
    character or a character of the line terminator; quotes are doubled. *)
Definition needs_quotes (f : pystr) : bool :=
  existsb (fun c => (c =? comma) || (c =? dquote) || (c =? cr) || (c =? lf)) f.

Fixpoint double_quotes (f : pystr) : pystr :=
  match f with
  | [] => []
  | c :: f' => if c =? dquote then dquote :: dquote :: double_quotes f'
               else c :: double_quotes f'
  end.

Definition write_field (f : pystr) : pystr :=
  if needs_quotes f then dquote :: double_quotes f ++ [dquote] else f.

Definition writerow (fields : list pystr) : pystr :=
  match fields with
  | [[]] => [dquote; dquote; cr; lf]
  | _ => join [comma] (map write_field fields) ++ [cr; lf]
  end.

(** [csv.reader]: the parser's states and its step on one character;
    [None] is the end-of-line step made after each line. *)
Inductive parser_state :=
| START_RECORD
| START_FIELD
| IN_FIELD
| IN_QUOTED_FIELD
| QUOTE_IN_QUOTED_FIELD
| EAT_CRNL.

Record parser := {
  state : parser_state;
  fields : list pystr;
  field : pystr
}.

Definition parse_reset : parser :=
  {| state := START_RECORD; fields := []; field := [] |}.

Definition parse_save_field (p : parser) (st : parser_state) : parser :=
  {| state := st; fields := fields p ++ [field p]; field := [] |}.

Definition parse_add_char (p : parser) (c : char) (st : parser_state)
  : parser :=
  {| state := st; fields := fields p; field := field p ++ [c] |}.

Definition goto (p : parser) (st : parser_state) : parser :=
  {| state := st; fields := fields p; field := field p |}.

Definition is_newline (c : char) : bool := (c =? lf) || (c =? cr).

Definition start_field (p : parser) (c : option char) : parser :=
  match c with
  | None => parse_save_field p START_RECORD
  | Some c =>
      if is_newline c then parse_save_field p EAT_CRNL
      else if c =? dquote then goto p IN_QUOTED_FIELD
      else if c =? comma then parse_save_field p START_FIELD
      else parse_add_char p c IN_FIELD
  end.

Definition parse_process_char (p : parser) (c : option char) : result parser :=
  match state p with
  | START_RECORD =>
      match c with
      | None => Ok p
      | Some c' => if is_newline c' then Ok (goto p EAT_CRNL)
                   else Ok (start_field p c)
      end
  | START_FIELD => Ok (start_field p c)
  | IN_FIELD =>
      match c with
      | None => Ok (parse_save_field p START_RECORD)
      | Some c =>
          if is_newline c then Ok (parse_save_field p EAT_CRNL)
          else if c =? comma then Ok (parse_save_field p START_FIELD)
          else Ok (parse_add_char p c IN_FIELD)
      end
  | IN_QUOTED_FIELD =>
      match c with
      | None => Ok p
      | Some c =>
          if c =? dquote then Ok (goto p QUOTE_IN_QUOTED_FIELD)
          else Ok (parse_add_char p c IN_QUOTED_FIELD)
      end
  | QUOTE_IN_QUOTED_FIELD =>
      match c with
      | None => Ok (parse_save_field p START_RECORD)
      | Some c =>
          if c =? dquote then Ok (parse_add_char p c IN_QUOTED_FIELD)
          else if c =? comma then Ok (parse_save_field p START_FIELD)
          else if is_newline c then Ok (parse_save_field p EAT_CRNL)
          else Ok (parse_add_char p c IN_FIELD)
      end
  | EAT_CRNL =>
      match c with
      | None => Ok (goto p START_RECORD)
      | Some c => if is_newline c then Ok p else Raise CsvError
      end
  end.

Fixpoint feed_chars (p : parser) (line : pystr) : result parser :=
  match line with
  | [] => parse_process_char p None
  | c :: line' =>
      match parse_process_char p (Some c) with
      | Ok p' => feed_chars p' line'
      | Raise e => Raise e
      end
  end.

Definition is_in_quoted (st : parser_state) : bool :=
  match st with IN_QUOTED_FIELD => true | _ => false end.

Definition is_start_record (st : parser_state) : bool :=
  match st with START_RECORD => true | _ => false end.

(** The records the reader yields from the lines: a record ends with the
    line that leaves the parser at [START_RECORD]; input that ends inside
    a record yields what was read of it. *)
Fixpoint read_records (p : parser) (lines : list pystr)
  : result (list (list pystr)) :=
  match lines with
  | [] =>
      match field p with
      | [] => if is_in_quoted (state p) then Ok [fields p ++ [field p]]
              else Ok []
      | _ => Ok [fields p ++ [field p]]
      end
  | line :: lines' =>
      match feed_chars p line with
      | Raise e => Raise e
      | Ok p' =>
          if is_start_record (state p')
          then match read_records parse_reset lines' with
               | Ok rows => Ok (fields p' :: rows)
               | Raise e => Raise e
               end
          else read_records p' lines'
      end
  end.

(** [csv.reader(f)] over an open text file with the given content. *)
Definition csv_reader (content : pystr) : result (list (list pystr)) :=
  read_records parse_reset (file_lines (read_translate content)).

(** *** Loaders *)

(** The files of the file system, by path. *)
Definition files := pystr -> option pystr.

Definition open_read (fs : files) (path : pystr) : result pystr :=
  match fs path with
  | Some content => Ok content
  | None => Raise FileNotFoundError
  end.

(** [entry[n]] with its [IndexError] caught and replaced by [''] *)
Definition column_or_empty (entry : list pystr) (n : nat) : pystr :=
  match nth_error entry n with Some v => v | None => [] end.

(** The body of the [for entry in work_sheet] loop of [load_from_csv]. *)
Definition entry_to_rule (entry : list pystr) : result rule :=
  match nth_error entry 0 with
  | None => Raise IndexError
  | Some i =>
      match nth_error entry 1 with
      | None => Raise IndexError
      | Some o => Ok (plain_rule i o (column_or_empty entry 2)
                        (column_or_empty entry 3))
      end
  end.

Fixpoint rows_to_rules (work_sheet : list (list pystr)) : result (list rule) :=
  match work_sheet with
  | [] => Ok []
  | entry :: rest =>
      match entry_to_rule entry with
      | Raise e => Raise e
      | Ok new_io =>
          match rows_to_rules rest with
          | Raise e => Raise e
          | Ok mapping => Ok (new_io :: mapping)
          end
      end
  end.

(** [load_from_csv]: the rule dicts it builds, as values. *)
Definition load_from_csv (fs : files) (language : pystr) : result (list rule) :=
  match open_read fs language with
  | Raise e => Raise e
  | Ok content =>
      match csv_reader content with
      | Raise e => Raise e
      | Ok work_sheet => rows_to_rules work_sheet
      end
  end.

(** An abbreviation table: a token and what it stands for, in the order
    the tokens were first seen. *)
Definition abbreviations := list (pystr * list pystr).

Fixpoint extend (key : pystr) (more : list pystr) (d : abbreviations)
  : abbreviations :=
  match d with
  | [] => [(key, more)]
  | (k, v) :: d' => if pystr_eqb k key then (k, v ++ more) :: d'
                    else (k, v) :: extend key more d'
  end.

Definition nonempty (s : pystr) : bool :=
  match s with [] => false | _ => true end.

(** [flatten_abbreviations] *)
Fixpoint flatten_from (d : abbreviations) (data : list (list pystr))
  : result abbreviations :=
  match data with
  | [] => Ok d
  | [] :: _ => Raise IndexError
  | (key :: cols) :: data' =>
      if nonempty key then flatten_from (extend key (filter nonempty cols) d) data'
      else flatten_from d data'
  end.

Definition flatten_abbreviations (data : list (list pystr))
  : result abbreviations := flatten_from [] data.

(** [s.endswith(suffix)] *)
Definition endswith (s suffix : pystr) : bool :=
  pystr_eqb (skipn (length s - length suffix) s) suffix.

(** [load_abbreviations_from_file] *)
Definition load_abbreviations_from_file (fs : files) (path : pystr)
  : result abbreviations :=
  if endswith path (str_of "csv")
  then match open_read fs path with
       | Raise e => Raise e
       | Ok content =>
           match csv_reader content with
           | Raise e => Raise e
           | Ok rows => flatten_abbreviations rows
           end
       end
  else Raise IncorrectFileType.

(** [validate] gives the two context keys their default and asks for the
    keys ['in'] and ['out']; a [rule] has all four, so the list comes back
    as it is. *)
Definition validate (mapping : loc) : M loc := ret mapping.

(** *** Records as the loaders hand them over *)

(** A rule dict of which any of the four text keys may be missing: what
    a caller's list or a JSON file may hold. *)
Record raw_rule := {
  raw_in : option pystr;
  raw_out : option pystr;
  raw_context_before : option pystr;
  raw_context_after : option pystr
}.

Definition or_empty (v : option pystr) : option pystr :=
  match v with Some s => Some s | None => Some [] end.

(** The two assignments of the [for io in mapping] loop of [validate]. *)
Definition default_contexts (io : raw_rule) : raw_rule :=
  {| raw_in := raw_in io;
     raw_out := raw_out io;
     raw_context_before := or_empty (raw_context_before io);
     raw_context_after := or_empty (raw_context_after io) |}.

Definition has_in (d : raw_rule) : bool :=
  match raw_in d with Some _ => true | None => false end.

Definition has_out (d : raw_rule) : bool :=
  match raw_out d with Some _ => true | None => false end.

(** [validate] on such records: the records as the loop leaves them, and
    the outcome. The loop runs before the test, so the contexts get their
    default also when the test fails. *)
Definition validate_records (mapping : list raw_rule)
  : list raw_rule * result unit :=
  let mapping' := map default_contexts mapping in
  (mapping',
   if forallb has_in mapping' && forallb has_out mapping'
   then Ok tt else Raise MalformedMapping).

(** A rule as a record with all four keys. *)
Definition record_of (r : rule) : raw_rule :=
  {| raw_in := Some (in_ r);
     raw_out := Some (out r);
     raw_context_before := Some (context_before r);
     raw_context_after := Some (context_after r) |}.

(** [expand_abbreviations]: one line per token; ten lines of six empty
    cells when there is none. *)
Definition expand_abbreviations (data : abbreviations) : list (list pystr) :=
  match map (fun kv => fst kv :: snd kv) data with
  | [] => repeat (repeat [] 6) 10
  | lines => lines
  end.

(** What [load_from_file] ends in: the validated records, an error of the
    loaders or of [validate], or the [UnboundLocalError] of reading
    [mapping] when no branch has assigned it. *)
Inductive loaded_file :=
| Loaded (mapping : list raw_rule)
| Failed (e : exn)
| Unbound_local.

Section Load_from_file.

(** [load_from_workbook] and [json.load] of an open file, when what
    they give is a list of records. *)
Variable load_from_workbook : pystr -> result (list raw_rule).
Variable json_load : pystr -> result (list raw_rule).

Definition validated (mapping : result (list raw_rule)) : loaded_file :=
  match mapping with
  | Raise e => Failed e
  | Ok records =>
      match validate_records records with
      | (records', Ok _) => Loaded records'
      | (_, Raise e) => Failed e
      end
  end.

(** [load_from_file] *)
Definition load_from_file (fs : files) (path : pystr) : loaded_file :=
  if endswith path (str_of "csv") then
    validated (match load_from_csv fs path with
               | Ok rules => Ok (map record_of rules)
               | Raise e => Raise e
               end)
  else if endswith path (str_of "xlsx") then
    validated (load_from_workbook path)
  else if endswith path (str_of "json") then
    validated (match open_read fs path with
               | Ok content => json_load content
               | Raise e => Raise e
               end)
  else Unbound_local.

End Load_from_file.

End Utils.

(** ** __init__.py: the Mapping engine *)

Module Mapping.

Section Engine.

(** What the engine takes from the regex engines and the Unicode tables:
    the general categories L and M ([regex]) and Nd ([re]'s [\d]), whether
    [re.compile] accepts a pattern, [str.lower], [regex.escape] and
    [normalize(text, form)]. *)
Variable is_letter_or_mark : char -> bool.
Variable is_decimal_digit : char -> bool.
Variable re_compiles : pystr -> bool.
Variable lower : pystr -> pystr.
Variable re_escape : pystr -> pystr.
Variable normalize : pystr -> value -> result pystr.

Definition lbrace : char := 123.
Definition rbrace : char := 125.

Definition pending_text (pending : option pystr) : pystr :=
  match pending with Some digits => lbrace :: digits | None => [] end.

(** [re.sub(re.compile(r'{\d+}'), "", text)]. [pending] holds the digits
    read since an opening brace that may still close. *)
Fixpoint strip_placeholders (pending : option pystr) (s : pystr) : pystr :=
  match s with
  | [] => pending_text pending
  | c :: s' =>
      match pending with
      | Some digits =>
          if is_decimal_digit c
          then strip_placeholders (Some (digits ++ [c])) s'
          else if (c =? rbrace) && negb (length digits =? 0)%nat
          then strip_placeholders None s'
          else if c =? lbrace
          then pending_text pending ++ strip_placeholders (Some []) s'
          else pending_text pending ++ c :: strip_placeholders None s'
      | None =>
          if c =? lbrace then strip_placeholders (Some []) s'
          else c :: strip_placeholders None s'
      end
  end.

Definition is_empty (s : pystr) : bool :=
  match s with [] => true | _ => false end.

(** [Mapping.rule_to_regex]; [kw] is [self.kwargs]. *)
Definition rule_to_regex (kw : odict) (r : rule) : M pattern :=
  if is_empty (in_ r)
  then tell (Warning_null_input (in_ r) (out r)) ;;; ret PFalse
  else
    let before := context_before r in
    let after := context_after r in
    let input_match := strip_placeholders None (in_ r) in
    let inp :=
      Utils.create_fixed_width_lookbehind is_letter_or_mark before
      ++ input_match
      ++ (if is_empty after then [] else str_of "(?=" ++ after ++ str_of ")")
    in
    match lookup "case_sensitive" kw with
    | None => (* the lookup fails inside [try]; so does the handler's *)
        if has_key "in_lang" kw
        then if has_key "out_lang" kw
             then tell (Error_malformed_regex inp before after) ;;;
                  raise MalformedRegex
             else raise (KeyError "out_lang")
        else raise (KeyError "in_lang")
    | Some cs =>
        if re_compiles inp
        then ret (PCompiled inp (negb (truthy cs)))
        else if has_key "in_lang" kw
        then if has_key "out_lang" kw
             then tell (Error_malformed_regex inp before after) ;;;
                  raise MalformedRegex
             else raise (KeyError "out_lang")
        else raise (KeyError "in_lang")
    end.

Definition set_match_pattern (r : rule) (p : pattern) : rule :=
  {| in_ := in_ r; out := out r; context_before := context_before r;
     context_after := context_after r;
     intermediate_form := intermediate_form r;
     match_pattern := Some p |}.

Definition set_intermediate_form (r : rule) (f : pystr) : rule :=
  {| in_ := in_ r; out := out r; context_before := context_before r;
     context_after := context_after r;
     intermediate_form := Some f;
     match_pattern := match_pattern r |}.

(** [l.remove(x)] on references, compared with [==] on what they hold. *)
Fixpoint remove_first (s : store) (x : rule) (l : list loc) : list loc :=
  match l with
  | [] => []
  | y :: l' => if rule_eqb (dicts s y) x then l' else y :: remove_first s x l'
  end.

Definition list_remove (m : loc) (io : loc) : M unit :=
  fun s => (Ok tt, set_list s m (remove_first s (dicts s io) (lists s m))).

(** The closing loop of [process_kwargs]:
    [for io in mapping: ...; mapping.remove(io)]. The list iterator keeps a
    position [i] into the list object and reads the list afresh each turn. *)
Fixpoint compile_loop (kw : odict) (m : loc) (fuel : nat) (i : nat)
  : M unit :=
  match fuel with
  | O => ret tt
  | S fuel' =>
      l <- get_list m ;;
      match nth_error l i with
      | None => ret tt
      | Some io =>
          r <- get_dict io ;;
          p <- rule_to_regex kw r ;;
          put_dict io (set_match_pattern r p) ;;;
          match p with
          | PFalse => list_remove m io
          | PCompiled _ _ => ret tt
          end ;;;
          compile_loop kw m fuel' (S i)
      end
  end.

(** The loop run to its end: the list never grows, so as many turns as it
    has items at the start are enough. *)
Definition compile_all (kw : odict) (m : loc) : M unit :=
  l <- get_list m ;;
  compile_loop kw m (length l) 0.

(** *** The flag pipeline *)

Definition with_texts (r : rule) (i o cb ca : pystr) : rule :=
  {| in_ := i; out := o; context_before := cb; context_after := ca;
     intermediate_form := intermediate_form r;
     match_pattern := match_pattern r |}.

(** [sorted(mapping, key=lambda x: len(x["in"]), reverse=True)]: a new list
    of the same dicts. *)
Definition sort_by_in (m : loc) : M loc :=
  fun s => new_list
             (sorted_desc (fun l => length (in_ (dicts s l))) (lists s m)) s.

(** One assignment [to_escape[k] = escaped] of
    [utils.escape_special_characters]. *)
Definition escape_text (v : pystr) : M pystr :=
  let escaped := re_escape v in
  (if pystr_eqb escaped v then ret tt else tell (Info_escaped v escaped)) ;;;
  ret escaped.

(** [utils.escape_special_characters], key by key in the order the keys
    were added; a value that is no string cannot be escaped. *)
Definition escape_special_characters (io : loc) : M unit :=
  r <- get_dict io ;;
  i <- escape_text (in_ r) ;;
  put_dict io (with_texts r i (out r) (context_before r) (context_after r)) ;;;
  o <- escape_text (out r) ;;
  put_dict io (with_texts r i o (context_before r) (context_after r)) ;;;
  cb <- escape_text (context_before r) ;;
  put_dict io (with_texts r i o cb (context_after r)) ;;;
  ca <- escape_text (context_after r) ;;
  put_dict io (with_texts r i o cb ca) ;;;
  match intermediate_form r with
  | Some f =>
      f' <- escape_text f ;;
      put_dict io (set_intermediate_form (with_texts r i o cb ca) f')
  | None => ret tt
  end ;;;
  match match_pattern r with
  | Some _ => raise TypeError
  | None => ret tt
  end.

Definition escape_special (m : loc) : M loc :=
  l <- get_list m ;;
  for_each escape_special_characters l ;;;
  new_list l.

(** [Mapping.lower_mappings] *)
Definition lower_rule (io : loc) : M unit :=
  r <- get_dict io ;;
  put_dict io (with_texts r (lower (in_ r)) (lower (out r))
                 (lower (context_before r)) (lower (context_after r))).

Definition lower_mappings (m : loc) : M loc :=
  l <- get_list m ;;
  for_each lower_rule l ;;;
  ret m.

Definition lift {A} (x : result A) : M A :=
  match x with Ok a => ret a | Raise e => raise e end.

(** The [norm_form] branch: every string value of every dict. *)
Definition normalize_rule (form : value) (io : loc) : M unit :=
  r <- get_dict io ;;
  i <- lift (normalize (in_ r) form) ;;
  put_dict io (with_texts r i (out r) (context_before r) (context_after r)) ;;;
  o <- lift (normalize (out r) form) ;;
  put_dict io (with_texts r i o (context_before r) (context_after r)) ;;;
  cb <- lift (normalize (context_before r) form) ;;
  put_dict io (with_texts r i o cb (context_after r)) ;;;
  ca <- lift (normalize (context_after r) form) ;;
  put_dict io (with_texts r i o cb ca) ;;;
  match intermediate_form r with
  | Some f =>
      f' <- lift (normalize f form) ;;
      put_dict io (set_intermediate_form (with_texts r i o cb ca) f')
  | None => ret tt
  end.

Definition normalize_mappings (form : value) (m : loc) : M loc :=
  l <- get_list m ;;
  for_each (normalize_rule form) l ;;;
  ret m.

(** [Mapping.reverse_mappings] *)
Definition reverse_rule (io : loc) : M unit :=
  r <- get_dict io ;;
  put_dict io (with_texts r (out r) (in_ r)
                 (context_before r) (context_after r)).

Definition reverse_mappings (m : loc) : M loc :=
  l <- get_list m ;;
  for_each reverse_rule l ;;;
  ret m.

(** [mapping.index(io)]: the first position holding a dict equal to [io]. *)
Definition list_index (m : loc) (io : loc) : M nat :=
  fun s => match index rule_eqb (dicts s io) (view s m) with
           | Some i => (Ok i, s)
           | None => (Raise ValueError, s)
           end.

(** The body of the [prevent_feeding] branch. *)
Definition feed_rule (m : loc) (io : loc) : M unit :=
  r <- get_dict io ;;
  i <- list_index m io ;;
  f <- lift (_string_to_pua (out r) i) ;;
  put_dict io (set_intermediate_form r f).

Definition prevent_feeding (m : loc) : M loc :=
  l <- get_list m ;;
  for_each (feed_rule m) l ;;;
  ret m.

(** The six defaults, added after the keys the caller gave. *)
Definition add_defaults (kw : odict) : odict :=
  set_default "prevent_feeding" (VBool false)
    (set_default "reverse" (VBool false)
       (set_default "norm_form" (VStr (str_of "NFD"))
          (set_default "escape_special" (VBool false)
             (set_default "case_sensitive" (VBool true)
                (set_default "as_is" (VBool true) kw))))).

(** One turn of [for kwarg, val in self.kwargs.items()]. *)
Definition apply_kwarg (kw : odict) (m : loc) (kwarg : string) (val : value)
  : M loc :=
  if String.eqb kwarg "as_is" && negb (truthy val) then sort_by_in m
  else if String.eqb kwarg "escape_special" && truthy val
  then escape_special m
  else if String.eqb kwarg "case_sensitive" && negb (truthy val)
  then lower_mappings m
  else if String.eqb kwarg "norm_form" && truthy val
  then normalize_mappings (get_or "norm_form" VNone kw) m
  else if String.eqb kwarg "reverse" && truthy val then reverse_mappings m
  else if String.eqb kwarg "prevent_feeding" && truthy val
  then prevent_feeding m
  else ret m.

Fixpoint apply_kwargs (kw : odict) (items : odict) (m : loc) : M loc :=
  match items with
  | [] => ret m
  | (kwarg, val) :: items' =>
      m' <- apply_kwarg kw m kwarg val ;;
      apply_kwargs kw items' m'
  end.

(** [Mapping.process_kwargs]: the kwargs with their defaults and the list
    object that becomes [self.mapping]. *)
Definition process_kwargs (kw : odict) (m : loc) : M (odict * loc) :=
  let kw' := add_defaults kw in
  m' <- apply_kwargs kw' kw' m ;;
  compile_all kw' m' ;;;
  ret (kw', m').

(** *** The registry and construction *)

(** A configuration dict: a registry entry, or what
    [load_mapping_from_path] returns. Its rule list is an object. *)
Record config := {
  entries : odict;
  mapping_data : option loc;
  abbreviations_data : option Utils.abbreviations
}.

(** The catalog [MAPPINGS_AVAILABLE] of [g2p.mappings.langs]. *)
Variable MAPPINGS_AVAILABLE : list config.

Fixpoint assoc_loc (x : loc) (memo : list (loc * loc)) : option loc :=
  match memo with
  | [] => None
  | (a, b) :: memo' => if (a =? x)%nat then Some b else assoc_loc x memo'
  end.

(** [deepcopy] of the rule dicts a list refers to: one copy for each
    dict, however often the list refers to it. *)
Fixpoint copy_dicts (memo : list (loc * loc)) (l : list loc)
  : M (list loc) :=
  match l with
  | [] => ret []
  | x :: l' =>
      match assoc_loc x memo with
      | Some x' => rest <- copy_dicts memo l' ;; ret (x' :: rest)
      | None =>
          r <- get_dict x ;;
          x' <- new_dict r ;;
          rest <- copy_dicts ((x, x') :: memo) l' ;;
          ret (x' :: rest)
      end
  end.

Definition deepcopy (c : config) : M config :=
  match mapping_data c with
  | None => ret c
  | Some m =>
      l <- get_list m ;;
      l' <- copy_dicts [] l ;;
      m' <- new_list l' ;;
      ret {| entries := entries c;
             mapping_data := Some m';
             abbreviations_data := abbreviations_data c |}
  end.

Definition empty_str : value := VStr [].

(** The search of [Mapping.find_mapping]: the first entry of the catalog
    with both languages. *)
Fixpoint search_pair (in_lang out_lang : value) (catalog : list config)
  : option config :=
  match catalog with
  | [] => None
  | c :: rest =>
      if value_eqb (get_or "in_lang" empty_str (entries c)) in_lang
         && value_eqb (get_or "out_lang" empty_str (entries c)) out_lang
      then Some c
      else search_pair in_lang out_lang rest
  end.

Definition find_mapping (in_lang out_lang : value) : M config :=
  match search_pair in_lang out_lang MAPPINGS_AVAILABLE with
  | Some c => deepcopy c
  | None => raise (MappingMissing in_lang out_lang)
  end.

Fixpoint search_id (map_id : value) (catalog : list config)
  : option config :=
  match catalog with
  | [] => None
  | c :: rest =>
      if value_eqb (get_or "id" empty_str (entries c)) map_id
      then Some c
      else search_id map_id rest
  end.

(** [Mapping.find_mapping_by_id]; without a match the function ends
    without [return], which gives [None]. *)
Definition find_mapping_by_id (map_id : value) : M (option config) :=
  match search_id map_id MAPPINGS_AVAILABLE with
  | Some c => c' <- deepcopy c ;; ret (Some c')
  | None => ret None
  end.

(** [re.search(pattern, text)] and [re.sub(pattern, repl, text)]; the
    file system; and what [load_mapping_from_path] reads from a
    configuration file, its rule dicts as values. *)
Variable re_search : pystr -> pystr -> bool.
Variable re_sub : pystr -> pystr -> pystr -> result pystr.
Variable fs : Utils.files.

Record loaded := {
  loaded_entries : odict;
  loaded_rules : list rule;
  loaded_abbreviations : option Utils.abbreviations
}.

Variable read_mapping_config : pystr -> result loaded.

Fixpoint new_dicts (rules : list rule) : M (list loc) :=
  match rules with
  | [] => ret []
  | r :: rules' =>
      x <- new_dict r ;; rest <- new_dicts rules' ;; ret (x :: rest)
  end.

(** [utils.load_mapping_from_path]: the loaded dicts are new objects. *)
Definition load_mapping_from_path (path : pystr) : M config :=
  c <- lift (read_mapping_config path) ;;
  l <- new_dicts (loaded_rules c) ;;
  m <- new_list l ;;
  ret {| entries := loaded_entries c;
         mapping_data := Some m;
         abbreviations_data := loaded_abbreviations c |}.

Definition hex_value (c : char) : option Z :=
  if (48 <=? c) && (c <=? 57) then Some (c - 48)
  else if (65 <=? c) && (c <=? 70) then Some (c - 55)
  else if (97 <=? c) && (c <=? 102) then Some (c - 87)
  else None.

(** [int(digits, base=16)] when there are [n] characters and all are
    hexadecimal digits. *)
Fixpoint hex_number (n : nat) (acc : Z) (s : pystr) : option Z :=
  match n, s with
  | O, _ => Some acc
  | S n', c :: s' =>
      match hex_value c with
      | Some d => hex_number n' (16 * acc + d) s'
      | None => None
      end
  | S _, [] => None
  end.

Definition backslash : char := 92.

(** The escape that starts after a backslash: its code point and how
    many characters it takes. *)
Definition escape_at (s : pystr) : option (Z * nat) :=
  match s with
  | c :: digits =>
      if c =? 117 (* u *) then
        match hex_number 4 0 digits with
        | Some n => Some (n, 5%nat)
        | None => None
        end
      else if c =? 85 (* U *) then
        match hex_number 6 0 digits with
        | Some n => Some (n, 7%nat)
        | None => None
        end
      else None
  | [] => None
  end.

(** [utils.unicode_escape]; [skip] counts the characters of an escape
    still to pass over. *)
Fixpoint unicode_escape_from (skip : nat) (s : pystr) : result pystr :=
  match s with
  | [] => Ok []
  | c :: s' =>
      match skip with
      | S k => unicode_escape_from k s'
      | O =>
          match (if c =? backslash then escape_at s' else None) with
          | Some (n, k) =>
              match chr n, unicode_escape_from k s' with
              | Ok ch, Ok rest => Ok (ch :: rest)
              | Raise e, _ => Raise e
              | _, Raise e => Raise e
              end
          | None =>
              match unicode_escape_from 0 s' with
              | Ok rest => Ok (c :: rest)
              | Raise e => Raise e
              end
          end
      end
  end.

Definition unicode_escape (text : pystr) : result pystr :=
  unicode_escape_from 0 text.

(** What the abbreviation loop of [__init__] does to one text field. *)
Definition expand_text (abb abb_repl text : pystr) : M pystr :=
  if re_search abb text
  then repl <- lift (unicode_escape abb_repl) ;; lift (re_sub abb repl text)
  else ret text.

Definition expand_rule (abb abb_repl : pystr) (io : loc) : M unit :=
  r <- get_dict io ;;
  i <- expand_text abb abb_repl (in_ r) ;;
  put_dict io (with_texts r i (out r) (context_before r) (context_after r)) ;;;
  o <- expand_text abb abb_repl (out r) ;;
  put_dict io (with_texts r i o (context_before r) (context_after r)) ;;;
  cb <- expand_text abb abb_repl (context_before r) ;;
  put_dict io (with_texts r i o cb (context_after r)) ;;;
  ca <- expand_text abb abb_repl (context_after r) ;;
  put_dict io (with_texts r i o cb ca).

Definition has_match_pattern (r : rule) : bool :=
  match match_pattern r with Some _ => true | None => false end.

Definition expand_abbreviation (m : loc) (item : pystr * list pystr)
  : M unit :=
  let (abb, stands_for) := item in
  if re_compiles abb then
    let abb_repl := join [Utils.bar] stands_for in
    l <- get_list m ;;
    match l with
    | [] => ret tt
    | first :: _ =>
        r <- get_dict first ;;
        if has_match_pattern r then ret tt
        else for_each (expand_rule abb abb_repl) l
    end
  else raise ReError.

Definition expand_abbreviations (abbs : option Utils.abbreviations) (m : loc)
  : M unit :=
  match abbs with
  | Some t => for_each (expand_abbreviation m) t
  | None => ret tt
  end.

(** *** The Mapping object *)

Record mapping_object := {
  kwargs : odict;
  mapping : loc;
  abbreviations : option Utils.abbreviations;
  processed : bool
}.

(** The [mapping] argument: absent, a list, a path, or anything else. *)
Inductive mapping_argument :=
| No_mapping
| Rule_list (m : loc)
| Config_path (path : pystr)
| Other_mapping.

(** The [abbreviations] argument: a false value, a [defaultdict], or a
    string. *)
Inductive abbreviations_argument :=
| No_abbreviations
| Abbreviation_table (t : Utils.abbreviations)
| Abbreviations_path (path : pystr).

Definition allowable_kwargs : list string :=
  ["language_name"; "display_name"; "mapping"; "in_lang"; "out_lang";
   "out_delimiter"; "as_is"; "case_sensitive"; "escape_special";
   "norm_form"; "prevent_feeding"; "reverse"]%string.

Definition allowable (kv : string * value) : bool :=
  existsb (String.eqb (fst kv)) allowable_kwargs.

(** [Mapping.process_loaded_config]: the list object, the abbreviations
    and the merged kwargs. *)
Definition process_loaded_config (kw : odict) (c : config)
  : M (loc * option Utils.abbreviations * odict) :=
  match mapping_data c with
  | None => raise (KeyError "mapping_data")
  | Some m =>
      ret (m, abbreviations_data c, merge (filter allowable (entries c)) kw)
  end.

Definition load_abbreviations (a : abbreviations_argument)
  : M (option Utils.abbreviations) :=
  match a with
  | No_abbreviations => ret None
  | Abbreviation_table t => ret (Some t)
  | Abbreviations_path path =>
      if is_empty path then ret None
      else t <- lift (Utils.load_abbreviations_from_file fs path) ;;
           ret (Some t)
  end.

(** The [else] branch of [__init__]: lookup in the catalog. *)
Definition lookup_config (kw : odict)
  : M (loc * option Utils.abbreviations * odict) :=
  match lookup "in_lang" kw, lookup "out_lang" kw with
  | Some in_lang, Some out_lang =>
      c <- find_mapping in_lang out_lang ;;
      process_loaded_config kw c
  | _, _ =>
      match lookup "id" kw with
      | Some map_id =>
          c <- find_mapping_by_id map_id ;;
          match c with
          | Some c => process_loaded_config kw c
          | None => raise TypeError
          end
      | None => raise MalformedLookup
      end
  end.

(** [Mapping.__init__] *)
Definition init (arg : mapping_argument) (abbs : abbreviations_argument)
    (kw : odict) : M mapping_object :=
  abbs0 <- load_abbreviations abbs ;;
  cfg <- match arg with
         | Rule_list m => m' <- Utils.validate m ;; ret (m', abbs0, kw)
         | Config_path path =>
             c <- load_mapping_from_path path ;;
             process_loaded_config kw c
         | No_mapping | Other_mapping => lookup_config kw
         end ;;
  let '(m, abbs1, kw1) := cfg in
  expand_abbreviations abbs1 m ;;;
  res <- process_kwargs kw1 m ;;
  ret {| kwargs := fst res; mapping := snd res;
         abbreviations := abbs1; processed := true |}.

(** *** Read access *)

(** What [__getitem__] is given: an integer, a slice with its two bounds
    (the step is not read), or anything else. *)
Inductive item :=
| Int_item (i : Z)
| Slice_item (start stop : option Z)
| Other_item.

(** Where a slice bound falls in a list of [n] items. *)
Definition clamp (n : nat) (bound : Z) : nat :=
  if bound <? 0 then Z.to_nat (Z.max 0 (Z.of_nat n + bound))
  else Nat.min (Z.to_nat bound) n.

(** [l[start:stop]] for two integers. *)
Definition slice {A} (l : list A) (start stop : Z) : list A :=
  let a := clamp (length l) start in
  let b := clamp (length l) stop in
  firstn (b - a) (skipn a l).

(** [x or default] for an optional integer [x] *)
Definition or_default (x : option Z) (default : Z) : Z :=
  match x with
  | Some z => if z =? 0 then default else z
  | None => default
  end.

Inductive got :=
| One_rule (io : loc)
| Rules (l : list loc).

(** [Mapping.__getitem__] *)
Definition getitem (self : mapping_object) (it : item) : M got :=
  l <- get_list (mapping self) ;;
  match it with
  | Int_item i =>
      let n := Z.of_nat (length l) in
      if (0 <=? i) && (i <? n) then
        match nth_error l (Z.to_nat i) with
        | Some io => ret (One_rule io)
        | None => raise IndexError
        end
      else if (- n <=? i) && (i <? 0) then
        match nth_error l (Z.to_nat (n + i)) with
        | Some io => ret (One_rule io)
        | None => raise IndexError
        end
      else raise IndexError
  | Slice_item start stop =>
      ret (Rules (slice l (or_default start 0)
                    (or_default stop (Z.of_nat (length l)))))
  | Other_item => raise TypeError
  end.

(** *** Export *)

(** [os.path.isdir], whether [open(fn, 'w')] succeeds, [os.linesep], and
    the text [json.dump(rows, f, indent=4)] writes. *)
Variable isdir : pystr -> bool.
Variable can_open_w : pystr -> bool.
Variable linesep : pystr.
Variable json_dump : list (list pystr) -> pystr.

Definition slash : char := 47.

(** [os.path.join(a, b)] of [posixpath] *)
Definition os_path_join (a b : pystr) : pystr :=
  match b with
  | c :: _ => if c =? slash then b
              else if is_empty a || Utils.endswith a [slash] then a ++ b
              else a ++ [slash] ++ b
  | [] => if is_empty a || Utils.endswith a [slash] then a
          else a ++ [slash]
  end.

(** [self.kwargs.get(key, 'und')] as an operand of [+] between strings *)
Definition lang_or_und (key : string) (kw : odict) : result pystr :=
  match get_or key (VStr (str_of "und")) kw with
  | VStr s => Ok s
  | _ => Raise TypeError
  end.

(** The values of one rule under [fieldnames], in that order. *)
Definition filtered (r : rule) : list pystr :=
  [in_ r; out r; context_before r; context_after r].

Definition write_file (disk : Utils.files) (fn content : pystr)
  : Utils.files :=
  fun path => if pystr_eqb path fn then Some content else disk path.

Definition export_name (kw : odict) (output_path file_type : pystr)
  : result pystr :=
  match lang_or_und "in_lang" kw, lang_or_und "out_lang" kw with
  | Ok i, Ok o =>
      Ok (os_path_join output_path
            (i ++ str_of "_to_" ++ o ++ str_of "." ++ file_type))
  | Raise e, _ => Raise e
  | _, Raise e => Raise e
  end.

(** What a text file opened with [encoding='utf8'] refuses to write: a
    surrogate code point, which a Python string may hold on its own. *)
Definition surrogate (c : char) : bool := (55296 <=? c) && (c <=? 57343).

Definition encodable (text : pystr) : bool :=
  forallb (fun c => negb (surrogate c)) text.

(** [for io in filtered: writer.writerow(io)] on the open file: each row is
    one [f.write] of its line, which the file translates and encodes or
    refuses. [f] is what the file holds so far; it is kept when the [with]
    block is left by the error. *)
Fixpoint write_rows (f : pystr) (rows : list (list pystr))
  : result unit * pystr :=
  match rows with
  | [] => (Ok tt, f)
  | io :: rest =>
      let line := Utils.write_translate linesep (Utils.writerow io) in
      if encodable line then write_rows (f ++ line) rest
      else (Raise UnicodeEncodeError, f)
  end.

(** [Mapping.mapping_to_file]: its outcome and the file system it leaves.
    Opening the file for writing empties it. The text of [json.dump] is
    ASCII, [ensure_ascii] being left on, so the file takes it whole. For
    another type the class [IncorrectFileType] is raised without its
    message. *)
Definition mapping_to_file (self : mapping_object) (s : store)
    (disk : Utils.files) (output_path file_type : pystr)
  : result unit * Utils.files :=
  if isdir output_path then
    match export_name (kwargs self) output_path file_type with
    | Raise e => (Raise e, disk)
    | Ok fn =>
        let rows := map filtered (view s (mapping self)) in
        if pystr_eqb file_type (str_of "json") then
          if can_open_w fn
          then (Ok tt,
                write_file disk fn
                  (Utils.write_translate linesep (json_dump rows)))
          else (Raise OtherError, disk)
        else if pystr_eqb file_type (str_of "csv") then
          if can_open_w fn
          then let (outcome, text) := write_rows [] rows in
               (outcome, write_file disk fn text)
          else (Raise OtherError, disk)
        else (Raise IncorrectFileType_without_message, disk)
    end
  else (Raise NotADirectory, disk).

(** *** Inventory and projections *)

(** What a key of a rule dict holds. *)
Inductive dict_value :=
| Text (s : pystr)
| Pattern_value (p : pattern).

(** [x[key]] on a rule dict *)
Definition rule_get (key : string) (r : rule) : result dict_value :=
  if String.eqb key "in" then Ok (Text (in_ r))
  else if String.eqb key "out" then Ok (Text (out r))
  else if String.eqb key "context_before" then Ok (Text (context_before r))
  else if String.eqb key "context_after" then Ok (Text (context_after r))
  else if String.eqb key "intermediate_form" then
    match intermediate_form r with
    | Some f => Ok (Text f)
    | None => Raise (KeyError key)
    end
  else if String.eqb key "match_pattern" then
    match match_pattern r with
    | Some p => Ok (Pattern_value p)
    | None => Raise (KeyError key)
    end
  else Raise (KeyError key).

Fixpoint get_all (key : string) (rules : list rule)
  : result (list dict_value) :=
  match rules with
  | [] => Ok []
  | x :: rest =>
      match rule_get key x with
      | Raise e => Raise e
      | Ok v =>
          match get_all key rest with
          | Raise e => Raise e
          | Ok vs => Ok (v :: vs)
          end
      end
  end.

(** [Mapping.inventory] *)
Definition inventory (self : mapping_object) (in_or_out : string)
  : M (list dict_value) :=
  fun s => (get_all in_or_out (view s (mapping self)), s).

(** [Mapping.plain_mapping]: new dicts with the four text keys. *)
Definition plain_mapping (self : mapping_object) (s : store) : list rule :=
  map (fun io => plain_rule (in_ io) (out io) (context_before io)
                   (context_after io))
    (view s (mapping self)).

(** [Mapping.__len__] *)
Definition len_mapping (self : mapping_object) (s : store) : nat :=
  length (lists s (mapping self)).

(** [Mapping.index] *)
Definition index_of (self : mapping_object) (item : rule) : M nat :=
  fun s => match index rule_eqb item (view s (mapping self)) with
           | Some i => (Ok i, s)
           | None => (Raise ValueError, s)
           end.

(** *** The configuration file *)

(** A value of the configuration template: what the kwargs hold, or a
    list of strings. *)
Inductive yaml_value :=
| Scalar (v : value)
| Strings (items : list pystr).

(** The text [yaml.dump] writes for [{"mappings": [entry]}]: ASCII,
    [allow_unicode] being left off, so a utf8 file takes it whole. *)
Variable yaml_dump : list (string * yaml_value) -> pystr.

Definition und : value := VStr (str_of "und").

(** The one entry of [template] in [config_to_file]. The defaults that
    are sums of strings are computed whether they are used or not. *)
Definition config_entry (kw : odict) (mapping_type : pystr)
  : result (list (string * yaml_value)) :=
  match lang_or_und "in_lang" kw, lang_or_und "out_lang" kw with
  | Ok i, Ok o =>
      Ok [("language_name"%string,
           Scalar (get_or "language_name" (get_or "in_lang" und kw) kw));
          ("display_name"%string,
           Scalar (get_or "display_name" (VStr (i ++ str_of " to " ++ o)) kw));
          ("in_lang"%string, Scalar (get_or "in_lang" und kw));
          ("out_lang"%string, Scalar (get_or "out_lang" und kw));
          ("authors"%string,
           match lookup "authors" kw with
           | Some v => Scalar v
           | None => Strings [str_of "generated"]
           end);
          ("as_is"%string, Scalar (get_or "as_is" (VBool true) kw));
          ("case_sensitive"%string, Scalar (get_or "case_sensitive" (VBool true) kw));
          ("escape_special"%string, Scalar (get_or "escape_special" (VBool false) kw));
          ("norm_form"%string, Scalar (get_or "norm_form" (VStr (str_of "NFD")) kw));
          ("reverse"%string, Scalar (get_or "reverse" (VBool false) kw));
          ("mapping"%string,
           Scalar (VStr (i ++ str_of "_to_" ++ o ++ str_of "."
                         ++ mapping_type)))]
  | Raise e, _ => Raise e
  | _, Raise e => Raise e
  end.

(** [Mapping.config_to_file] *)
Definition config_to_file (self : mapping_object) (disk : Utils.files)
    (output_path mapping_type : pystr) : result unit * Utils.files :=
  if isdir output_path then
    let fn := os_path_join output_path (str_of "config.yaml") in
    match config_entry (kwargs self) mapping_type with
    | Raise e => (Raise e, disk)
    | Ok entry =>
        if can_open_w fn
        then (Ok tt,
              write_file disk fn
                (Utils.write_translate linesep (yaml_dump entry)))
        else (Raise OtherError, disk)
    end
  else (Raise NotADirectory, disk).

(** [Mapping.to_file] *)
Definition to_file (self : mapping_object) (s : store) (disk : Utils.files)
    (output_path mapping_type : pystr) : result unit * Utils.files :=
  match mapping_to_file self s disk output_path mapping_type with
  | (Ok _, disk') => config_to_file self disk' output_path mapping_type
  | (Raise e, disk') => (Raise e, disk')
  end.

End Engine.

End Mapping.

(** ** What the properties speak of *)

(** All items have length [n]. *)
Definition uniform (n : nat) (items : list pystr) : Prop :=
  forall x, In x items -> length x = n.

(** The rule a row stands for when every column it lacks is empty. *)
Definition rule_of_row (entry : list pystr) : rule :=
  plain_rule (Utils.column_or_empty entry 0) (Utils.column_or_empty entry 1)
    (Utils.column_or_empty entry 2) (Utils.column_or_empty entry 3).

(** No entry of the catalog has this id; none has this language pair. *)
Definition no_entry_with_id (catalog : list Mapping.config) (map_id : value)
  : Prop :=
  forall c, In c catalog ->
    value_eqb (get_or "id" Mapping.empty_str (Mapping.entries c)) map_id = false.

Definition no_entry_with_pair (catalog : list Mapping.config)
    (in_lang out_lang : value) : Prop :=
  forall c, In c catalog ->
    value_eqb (get_or "in_lang" Mapping.empty_str (Mapping.entries c)) in_lang
    && value_eqb (get_or "out_lang" Mapping.empty_str (Mapping.entries c))
         out_lang = false.

(** The language codes under which a mapping exports are strings when
    they are given. *)
Definition language_codes_are_strings (kw : odict) : Prop :=
  (forall v, lookup "in_lang" kw = Some v -> exists s, v = VStr s)
  /\ (forall v, lookup "out_lang" kw = Some v -> exists s, v = VStr s).

(** A stop bound that is absent or zero. *)
Definition falsy_bound (stop : option Z) : Prop :=
  stop = None \/ stop = Some 0.

(** The [mapping] argument is neither a rule list nor a path. *)
Definition neither_list_nor_path (arg : Mapping.mapping_argument) : Prop :=
  arg = Mapping.No_mapping \/ arg = Mapping.Other_mapping.

(** The kwargs do not name both languages. *)
Definition no_language_pair (kw : odict) : Prop :=
  lookup "in_lang" kw = None \/ lookup "out_lang" kw = None.

(** The [abbreviations] argument needs no file, or its file loads. *)
Definition abbreviations_load (fs : Utils.files)
    (abbs : Mapping.abbreviations_argument) : Prop :=
  match abbs with
  | Mapping.Abbreviations_path path =>
      path = [] \/ exists t, Utils.load_abbreviations_from_file fs path = Ok t
  | _ => True
  end.

(** A rule with the intermediate form its position [i] gives it. *)
Definition fed (r : rule) (i : nat) : rule :=
  Mapping.set_intermediate_form r
    (repeat (pua_start + Z.of_nat i) (length (out r))).

(** The rule list at [m] has at most 131072 rules, held by distinct dicts
    none of which has an [intermediate_form] yet. *)
Definition fresh_rules (s : store) (m : loc) : Prop :=
  NoDup (lists s m)
  /\ (forall x, In x (lists s m) -> intermediate_form (dicts s x) = None)
  /\ len (lists s m) <= 131072.

(** Rules at different positions have different intermediate forms. *)
Definition forms_distinct (s : store) (m : loc) : Prop :=
  forall i j x y,
    nth_error (lists s m) i = Some x ->
    nth_error (lists s m) j = Some y ->
    i <> j ->
    intermediate_form (dicts s x) <> intermediate_form (dicts s y).

(** Where the [prevent_feeding] loop stands in store [t] after the dicts
    [done], having started in store [s]. *)
Definition feed_inv (s : store) (done : list loc) (t : store) : Prop :=
  lists t = lists s /\ next t = next s /\ log t = log s
  /\ (forall i x, nth_error done i = Some x -> dicts t x = fed (dicts s x) i)
  /\ (forall x, ~ In x done -> dicts t x = dicts s x).

(** Export the rule table as delimited text into an existing directory,
    then load the written file again. *)
Definition export_and_reload (can_open_w : pystr -> bool) (linesep : pystr)
    (self : Mapping.mapping_object) (s : store) (disk : Utils.files)
    (output_path : pystr) : result (list rule) :=
  match Mapping.mapping_to_file (fun _ => true) can_open_w linesep
          (fun _ => []) self s disk output_path (str_of "csv") with
  | (Raise e, _) => Raise e
  | (Ok _, disk') =>
      match Mapping.export_name (Mapping.kwargs self) output_path
              (str_of "csv") with
      | Raise e => Raise e
      | Ok fn => Utils.load_from_csv disk' fn
      end
  end.

(** The four text fields of a rule, without the processing keys. *)
Definition plain (r : rule) : rule :=
  plain_rule (in_ r) (out r) (context_before r) (context_after r).

(** *** What a construction may touch *)

(** The objects singled out by [frozen] are as they were, and nothing was
    deallocated. *)
Definition unchanged (frozen : loc -> Prop) (s t : store) : Prop :=
  (next s <= next t)%nat
  /\ forall l, frozen l -> dicts t l = dicts s l /\ lists t l = lists s l.

Definition allocated (frozen : loc -> Prop) (s : store) : Prop :=
  forall l, frozen l -> (l < next s)%nat.

(** The list object [m] and the dicts it holds are not frozen. *)
Definition owned (frozen : loc -> Prop) (s : store) (m : loc) : Prop :=
  ~ frozen m /\ forall x, In x (lists s m) -> ~ frozen x.

(** The objects of the catalog: the rule list of an entry and the rule
    dicts in it. *)
Definition registry_object (catalog : list Mapping.config) (s : store)
    (l : loc) : Prop :=
  exists c m, In c catalog /\ Mapping.mapping_data c = Some m
              /\ (l = m \/ In l (lists s m)).

(** Run from [s], the computation writes no list, allocates nothing, and
    writes dicts in [D] only. *)
Definition dict_writes (D : loc -> Prop) {A} (c : M A) (s : store) : Prop :=
  lists (snd (c s)) = lists s
  /\ next (snd (c s)) = next s
  /\ forall y, ~ D y -> dicts (snd (c s)) y = dicts s y.

(** Run from [s], the computation leaves the frozen objects as they were
    and returns a list object that is not frozen, no more than its dicts. *)
Definition safe (frozen : loc -> Prop) (c : M loc) (s : store) : Prop :=
  unchanged frozen s (snd (c s))
  /\ forall m, fst (c s) = Ok m -> owned frozen (snd (c s)) m.

(** Run from [s], the computation leaves the frozen objects as they were,
    and the list object [m] stays unfrozen with its dicts. *)
Definition keeps (frozen : loc -> Prop) (m : loc) {A} (c : M A) (s : store)
  : Prop :=
  unchanged frozen s (snd (c s)) /\ owned frozen (snd (c s)) m.

(** In store [t], reached from [s], [c'] is a deep copy of [c]: the same
    entries, and a rule list that is a new object holding new dicts with
    the values of the old ones. *)
Definition deep_copy_of (s t : store) (c c' : Mapping.config) : Prop :=
  Mapping.entries c' = Mapping.entries c
  /\ Mapping.abbreviations_data c' = Mapping.abbreviations_data c
  /\ match Mapping.mapping_data c, Mapping.mapping_data c' with
     | Some m, Some m' =>
         view t m' = view s m
         /\ (next s <= m' < next t)%nat
         /\ (forall x, In x (lists t m') -> (next s <= x < next t)%nat)
     | None, None => True
     | _, _ => False
     end.

(** The objects that were allocated in [s] are in [t] as they were. *)
Definition old_objects_kept (s t : store) : Prop :=
  (next s <= next t)%nat
  /\ forall l, (l < next s)%nat ->
               dicts t l = dicts s l /\ lists t l = lists s l.

(** [c] is the first entry of the catalog that the test accepts. *)
Definition first_match (test : Mapping.config -> bool)
    (catalog : list Mapping.config) (c : Mapping.config) : Prop :=
  exists before after,
    catalog = before ++ c :: after
    /\ test c = true
    /\ forall b, In b before -> test b = false.

Definition has_pair (in_lang out_lang : value) (c : Mapping.config) : bool :=
  value_eqb (get_or "in_lang" Mapping.empty_str (Mapping.entries c)) in_lang
  && value_eqb (get_or "out_lang" Mapping.empty_str (Mapping.entries c))
       out_lang.

Definition has_id (map_id : value) (c : Mapping.config) : bool :=
  value_eqb (get_or "id" Mapping.empty_str (Mapping.entries c)) map_id.

(** Run from [s], a computation that finds the rule list of a new Mapping
    leaves the frozen objects as they were and returns a list object that
    is not frozen, no more than its dicts. *)
Definition sourced (frozen : loc -> Prop)
    (c : M (loc * option Utils.abbreviations * odict)) (s : store) : Prop :=
  unchanged frozen s (snd (c s))
  /\ forall m a k, fst (c s) = Ok (m, a, k) -> owned frozen (snd (c s)) m.

(** The rule list given to the constructor, if one is given, is not an
    object of the catalog, no more than the dicts in it. *)
Definition own_rule_list (catalog : list Mapping.config) (s : store)
    (arg : Mapping.mapping_argument) : Prop :=
  match arg with
  | Mapping.Rule_list m => owned (registry_object catalog s) s m
  | _ => True
  end.

(** *** Reading what the writer wrote *)

(** The parser fed the characters of a line, its end not yet reached. *)
Fixpoint feed_steps (p : Utils.parser) (s : pystr) : result Utils.parser :=
  match s with
  | [] => Ok p
  | c :: s' =>
      match Utils.parse_process_char p (Some c) with
      | Ok p' => feed_steps p' s'
      | Raise e => Raise e
      end
  end.

(** From parser [p], whatever line it is in the middle of, reading [text]
    yields no record and brings the parser to [p']. *)
Definition reads (p : Utils.parser) (text : pystr) (p' : Utils.parser)
  : Prop :=
  forall p0 line rest,
    feed_steps p0 line = Ok p ->
    exists p0' line',
      feed_steps p0' line' = Ok p'
      /\ Utils.read_records p0 (Utils.lines_acc line (text ++ rest))
         = Utils.read_records p0' (Utils.lines_acc line' rest).

Definition no_cr (f : pystr) : Prop := ~ In Utils.cr f.

(** A character that neither ends a field nor opens a quoted one. *)
Definition plain_char (c : char) : bool :=
  negb ((c =? Utils.comma) || (c =? Utils.dquote) || (c =? Utils.cr)
        || (c =? Utils.lf)).

(** The parser stands where a field may start: nothing of it read yet. *)
Definition at_field_start (p : Utils.parser) : Prop :=
  (Utils.state p = Utils.START_RECORD \/ Utils.state p = Utils.START_FIELD)
  /\ Utils.field p = [].

(** The parser has read the field [f] and stands behind it. *)
Definition behind_field (fs : list pystr) (f : pystr) (first : bool)
    (p : Utils.parser) : Prop :=
  Utils.fields p = fs /\ Utils.field p = f
  /\ (Utils.state p = Utils.IN_FIELD
      \/ Utils.state p = Utils.QUOTE_IN_QUOTED_FIELD
      \/ Utils.state p = Utils.START_FIELD
      \/ (Utils.state p = Utils.START_RECORD /\ first = true)).

(** A row as the reader receives it: the line terminator has become a
    line feed. *)
Definition row_text (fs : list pystr) : pystr :=
  join [Utils.comma] (map Utils.write_field fs) ++ [Utils.lf].

(** A row of at least two fields, none with a carriage return. *)
Definition row_without_cr (fs : list pystr) : Prop :=
  (2 <= length fs)%nat /\ Forall no_cr fs.

Definition rule_without_cr (r : rule) : Prop :=
  no_cr (in_ r) /\ no_cr (out r) /\ no_cr (context_before r)
  /\ no_cr (context_after r).

(** *** Compiled rules *)

(** The pattern text [rule_to_regex] builds for a rule. *)
Definition regex_source (is_letter_or_mark is_decimal_digit : char -> bool)
    (r : rule) : pystr :=
  Utils.create_fixed_width_lookbehind is_letter_or_mark (context_before r)
  ++ Mapping.strip_placeholders is_decimal_digit None (in_ r)
  ++ (if Mapping.is_empty (context_after r) then []
      else str_of "(?=" ++ context_after r ++ str_of ")").

(** The rule with its compiled pattern under ['match_pattern']. *)
Definition compiled (is_letter_or_mark is_decimal_digit : char -> bool)
    (case_sensitive : value) (r : rule) : rule :=
  Mapping.set_match_pattern r
    (PCompiled (regex_source is_letter_or_mark is_decimal_digit r)
       (negb (truthy case_sensitive))).

(** A rule the loop compiles: its [in] is not empty and the regex engine
    takes its pattern. *)
Definition compilable (is_letter_or_mark is_decimal_digit : char -> bool)
    (re_compiles : pystr -> bool) (r : rule) : Prop :=
  in_ r <> []
  /\ re_compiles (regex_source is_letter_or_mark is_decimal_digit r) = true.

(** ** Sample data *)

Definition sample_entry : Mapping.config :=
  {| Mapping.entries := [("in_lang", VStr (str_of "hun"));
                         ("out_lang", VStr (str_of "hun-ipa"));
                         ("id", VStr (str_of "hun-to-ipa"))]%string;
     Mapping.mapping_data := Some 0%nat;
     Mapping.abbreviations_data := None |}.

Definition empty_store : store :=
  {| dicts := fun _ => plain_rule [] [] [] [];
     lists := fun _ => [];
     next := 0%nat;
     log := [] |}.

Definition sample_mapping : Mapping.mapping_object :=
  {| Mapping.kwargs := [("in_lang", VStr (str_of "hun"))]%string;
     Mapping.mapping := 0%nat;
     Mapping.abbreviations := None;
     Mapping.processed := true |}.

Definition empty_disk : Utils.files := fun _ => None.

(** A world to run the engine in: ASCII letters and digits, every pattern
    compiles, texts are left as they are, no files. *)
Definition ascii_letter (c : char) : bool :=
  ((65 <=? c) && (c <=? 90)) || ((97 <=? c) && (c <=? 122)).

Definition ascii_digit (c : char) : bool := (48 <=? c) && (c <=? 57).

Definition sample_init (catalog : list Mapping.config) :=
  Mapping.init ascii_letter ascii_digit (fun _ => true) (fun t => t)
    (fun t => t) (fun t _ => Ok t) catalog (fun _ _ => false)
    (fun _ _ t => Ok t) empty_disk (fun _ => Raise FileNotFoundError).

(** The store in which the given rules are the dicts 0, 1, ... and the
    list object after them holds them in that order. *)
Definition store_of (rules : list rule) : store :=
  {| dicts := fun l => nth l rules (plain_rule [] [] [] []);
     lists := fun l => if (l =? length rules)%nat
                       then seq 0 (length rules) else [];
     next := S (length rules);
     log := [] |}.

Definition rule_a_b : rule := plain_rule (str_of "a") (str_of "b") [] [].
Definition rule_null_c : rule := plain_rule [] (str_of "c") [] [].
Definition rule_null_d : rule := plain_rule [] (str_of "d") [] [].

(** The rules a constructed Mapping holds, or the error. *)
Definition rules_of (r : result Mapping.mapping_object * store)
  : result (list rule) :=
  match r with
  | (Ok self, s) => Ok (view s (Mapping.mapping self))
  | (Raise e, _) => Raise e
  end.

Definition rule_a_null : rule := plain_rule (str_of "a") [] [] [].
Definition rule_b_null : rule := plain_rule (str_of "b") [] [] [].
Definition rule_c_d : rule := plain_rule (str_of "c") (str_of "d") [] [].

(** A rule whose [in] holds a carriage return, and the same with a line
    feed in its place. *)
Definition rule_with_cr : rule :=
  plain_rule [97; Utils.cr; 98] (str_of "c") [] [].
Definition rule_with_lf : rule :=
  plain_rule [97; Utils.lf; 98] (str_of "c") [] [].

Definition mapping_at (m : loc) : Mapping.mapping_object :=
  {| Mapping.kwargs := [("in_lang", VStr (str_of "hun"))]%string;
     Mapping.mapping := m;
     Mapping.abbreviations := None;
     Mapping.processed := true |}.

(** A catalog entry whose rule list is the list object 2 of
    [store_of [rule_a_b; rule_c_d]]. *)
Definition registry_entry : Mapping.config :=
  {| Mapping.entries := [("in_lang", VStr (str_of "hun"));
                         ("out_lang", VStr (str_of "hun-ipa"));
                         ("id", VStr (str_of "hun-to-ipa"))]%string;
     Mapping.mapping_data := Some 2%nat;
     Mapping.abbreviations_data := None |}.

Definition registry_store : store := store_of [rule_a_b; rule_c_d].

(** ** What the further properties speak of *)

(** A record with the keys ['in'] and ['out']. *)
Definition has_in_and_out (d : Utils.raw_rule) : Prop :=
  Utils.raw_in d <> None /\ Utils.raw_out d <> None.

(** A record with both context keys. *)
Definition has_contexts (d : Utils.raw_rule) : Prop :=
  Utils.raw_context_before d <> None /\ Utils.raw_context_after d <> None.

(** An abbreviation table as [flatten_abbreviations] builds it: a dict,
    so no token twice; no empty token; no empty expansion. *)
Definition flat_table (d : Utils.abbreviations) : Prop :=
  NoDup (map fst d)
  /\ Forall (fun kv => fst kv <> [] /\ Forall (fun v => v <> []) (snd kv)) d.

(** [d.get(key)] on an abbreviation table *)
Fixpoint stands_for (key : pystr) (d : Utils.abbreviations)
  : option (list pystr) :=
  match d with
  | [] => None
  | (k, v) :: d' => if pystr_eqb k key then Some v else stands_for key d'
  end.

(** The non-empty cells after the first, of the rows that start with
    [key], in the order of the rows. *)
Fixpoint expansions_of (key : pystr) (data : list (list pystr))
  : list pystr :=
  match data with
  | [] => []
  | [] :: data' => expansions_of key data'
  | (k :: cols) :: data' =>
      if pystr_eqb k key
      then filter Utils.nonempty cols ++ expansions_of key data'
      else expansions_of key data'
  end.

(** Some row starts with [key]. *)
Definition names (key : pystr) (data : list (list pystr)) : Prop :=
  exists cols, In (key :: cols) data.

(** The six flags with their defaults, in the order [process_kwargs] adds
    them. *)
Definition six_defaults : odict :=
  [("as_is", VBool true); ("case_sensitive", VBool true);
   ("escape_special", VBool false); ("norm_form", VStr (str_of "NFD"));
   ("reverse", VBool false); ("prevent_feeding", VBool false)]%string.

Definition is_key_of (d : odict) (k : string) : bool :=
  existsb (String.eqb k) (map fst d).

(** [k in allowable_kwargs] *)
Definition allowable_key (k : string) : bool :=
  existsb (String.eqb k) Mapping.allowable_kwargs.

Definition reversing_kwargs : odict :=
  [("out_lang", VStr (str_of "eng-arpabet")); ("reverse", VBool true)]%string.

(** [len(x["in"])] of the dict at [l], the key [as_is=False] sorts by. *)
Definition in_length (s : store) (l : loc) : nat := length (in_ (dicts s l)).

Definition longest_first (s : store) (x y : loc) : Prop :=
  (in_length s y <= in_length s x)%nat.

(** The dicts of [l] with the length [n] of [in], in the order of [l]. *)
Definition of_length (s : store) (n : nat) (l : list loc) : list loc :=
  filter (fun x => (in_length s x =? n)%nat) l.

(** A rule with [in] and [out] exchanged. *)
Definition swapped (r : rule) : rule :=
  Mapping.with_texts r (out r) (in_ r) (context_before r) (context_after r).

(** [l] is [l'] with some items left out, the others in their order. *)
Inductive subsequence {A} : list A -> list A -> Prop :=
| subsequence_nil : subsequence [] []
| subsequence_keep x l l' : subsequence l l' -> subsequence (x :: l) (x :: l')
| subsequence_drop x l l' : subsequence l l' -> subsequence l (x :: l').

Definition null_input_warning (e : event) : Prop :=
  match e with Warning_null_input _ _ => True | _ => False end.

(** What a run of the compiling loop on the list [m] relates: the log grew
    by one null-input warning for each item that left [m], the items left
    keep their order, and no other list changed. *)
Definition dropped_with_warnings (m : loc) (s t : store) : Prop :=
  exists warnings,
    log t = log s ++ warnings
    /\ Forall null_input_warning warnings
    /\ length (lists s m) = (length (lists t m) + length warnings)%nat
    /\ subsequence (lists t m) (lists s m)
    /\ (forall l, l <> m -> lists t l = lists s l)
    /\ next t = next s.

(** Kwargs under which no step of the flag pipeline makes a new list:
    [as_is], when given, is truthy, and [escape_special], when given, is
    falsy. *)
Definition neither_sorts_nor_escapes (kw : odict) : Prop :=
  (forall v, In ("as_is"%string, v) kw -> truthy v = true)
  /\ (forall v, In ("escape_special"%string, v) kw -> truthy v = false).

(** The Mapping that reversing the list of [registry_store] gives. *)
Definition reversed_mapping : Mapping.mapping_object :=
  {| Mapping.kwargs := Mapping.add_defaults [("reverse", VBool true)]%string;
     Mapping.mapping := 2%nat;
     Mapping.abbreviations := None;
     Mapping.processed := true |}.

(** The name of the rule file of an export, and where the two files of
    an export go. *)
Definition rule_file_name (in_lang out_lang file_type : pystr) : pystr :=
  in_lang ++ str_of "_to_" ++ out_lang ++ str_of "." ++ file_type.

Definition config_file (output_path : pystr) : pystr :=
  Mapping.os_path_join output_path (str_of "config.yaml").

Definition csv_or_json (file_type : pystr) : Prop :=
  file_type = str_of "csv" \/ file_type = str_of "json".

(** The value [inventory("match_pattern")] lists for a compiled rule. *)
Definition pattern_of (is_letter_or_mark is_decimal_digit : char -> bool)
    (case_sensitive : value) (r : rule) : Mapping.dict_value :=
  Mapping.Pattern_value
    (PCompiled (regex_source is_letter_or_mark is_decimal_digit r)
       (negb (truthy case_sensitive))).

(** The list [m] is empty, or its first rule has a ['match_pattern']. *)
Definition empty_or_compiled (s : store) (m : loc) : Prop :=
  match lists s m with
  | [] => True
  | first :: _ => Mapping.has_match_pattern (dicts s first) = true
  end.

(** [registry_store] with a compiled pattern in its first rule. *)
Definition compiled_store : store :=
  set_dict registry_store 0%nat
    (Mapping.set_match_pattern (dicts registry_store 0%nat)
       (PCompiled (str_of "a") false)).

(** A rule with every string it holds normalized by [nf]. *)
Definition normalized (nf : pystr -> pystr) (r : rule) : rule :=
  {| in_ := nf (in_ r); out := nf (out r);
     context_before := nf (context_before r);
     context_after := nf (context_after r);
     intermediate_form := option_map nf (intermediate_form r);
     match_pattern := match_pattern r |}.

(** Kwargs that set none of the six flags. *)
Definition sets_no_flag (kw : odict) : Prop :=
  forall kv, In kv kw -> is_key_of six_defaults (fst kv) = false.

(** A row, a rule whose texts a utf8 file takes: no surrogate in them. *)
Definition encodable_row (fs : list pystr) : Prop :=
  Forall (fun f => Mapping.encodable f = true) fs.

Definition encodable_rule (r : rule) : Prop :=
  encodable_row (Mapping.filtered r).

(** A language code is given and is no string. *)
Definition code_is_no_string (key : string) (kw : odict) : Prop :=
  exists v, lookup key kw = Some v
            /\ match v with VStr _ => False | _ => True end.

(** The four ways in which the export of the rules fails before anything
    is written: the directory is missing, a language code is no string,
    the file type is not supported, or the rule file cannot be opened. *)
Definition export_cannot_start (isdir can_open_w : pystr -> bool)
    (kw : odict) (output_path file_type : pystr) : Prop :=
  isdir output_path = false
  \/ (code_is_no_string "in_lang" kw \/ code_is_no_string "out_lang" kw)
  \/ (file_type <> str_of "csv" /\ file_type <> str_of "json")
  \/ (exists fn, Mapping.export_name kw output_path file_type = Ok fn
                 /\ can_open_w fn = false).

(** * Properties *)

(** ** Equality of strings *)

Lemma pystr_eqb_eq (a b : pystr) : pystr_eqb a b = true <-> a = b.
Proof.
  revert b. induction a as [|x a IH]; intros [|y b]; cbn; split;
    try easy.
  - intros H. apply andb_prop in H as [Hx Hab].
    apply Z.eqb_eq in Hx. apply IH in Hab. now subst.
  - intros [= -> ->]. rewrite Z.eqb_refl. now apply IH.
Qed.

Lemma pystr_eqb_neq (a b : pystr) : a <> b -> pystr_eqb a b = false.
Proof.
  intros H. destruct (pystr_eqb a b) eqn:E; [|reflexivity].
  now apply pystr_eqb_eq in E.
Qed.

Lemma pystr_eqb_refl (a : pystr) : pystr_eqb a a = true.
Proof. now apply pystr_eqb_eq. Qed.

(** ** Lists: positions and sorting *)

Lemma index_from_skips {A} (eqb : A -> A -> bool) (x y : A)
    (before after : list A) (i : nat) :
  (forall z, In z before -> eqb z x = false) ->
  eqb y x = true ->
  index_from eqb x (before ++ y :: after) i = Some (i + length before)%nat.
Proof.
  revert i. induction before as [|z before IH]; intros i Hbefore Hy; cbn.
  - rewrite Hy. f_equal. lia.
  - rewrite (Hbefore z (or_introl eq_refl)).
    rewrite IH; [f_equal; lia | | assumption].
    intros z' Hz'. apply Hbefore. now right.
Qed.

Lemma in_insert_desc {A} (key : A -> nat) (x y : A) (l : list A) :
  In y (insert_desc key x l) -> y = x \/ In y l.
Proof.
  induction l as [|z l IH]; cbn [insert_desc].
  - intros [-> | []]. now left.
  - destruct (key x <? key z)%nat; cbn [In].
    + intros [-> | H]; [right; now left|].
      destruct (IH H) as [-> | H']; [now left | right; now right].
    + intros [-> | [-> | H]]; [now left | right; now left | right; now right].
Qed.

Lemma in_sorted_desc {A} (key : A -> nat) (y : A) (l : list A) :
  In y (sorted_desc key l) -> In y l.
Proof.
  induction l as [|x l IH]; cbn; [easy|].
  intros H. apply in_insert_desc in H as [-> | H]; auto.
Qed.

(** ** The lookbehind rewriter *)

Example lookbehind_xy_a_b :
  Utils.pattern_to_fixed_width_lookbehinds (str_of "xy|a|b")
  = str_of "((?<=xy)|(?<=a|b))".
Proof. reflexivity. Qed.

Example lookbehind_a_xy_b :
  Utils.pattern_to_fixed_width_lookbehinds (str_of "a|xy|b")
  = str_of "((?<=xy)|(?<=a|b))".
Proof. reflexivity. Qed.

Example lookbehind_abc_ab_c :
  Utils.pattern_to_fixed_width_lookbehinds (str_of "c|ab|abc|d")
  = str_of "((?<=abc)|(?<=ab)|(?<=c|d))".
Proof. reflexivity. Qed.

(** C4. The rewriter finds the last alternative by [pattern.index(item)],
    the position of the first equal item. When the last sorted alternative
    also occurs earlier, the last bucket is never appended: the run [a|a]
    is rewritten to [()], where the rendering the specification describes is
    [((?<=a|a))]; met inside a context, the run loses its alternatives. *)
Theorem C4_lookbehind_drops_repeated_last_alternative :
  Utils.pattern_to_fixed_width_lookbehinds (str_of "a|a") = str_of "()"
  /\ Utils.rewrite_as_specified (str_of "a|a") = str_of "((?<=a|a))"
  /\ Utils.pattern_to_fixed_width_lookbehinds (str_of "ab|a|c|a")
     = str_of "((?<=ab))"
  /\ Utils.rewrite_as_specified (str_of "ab|a|c|a")
     = str_of "((?<=ab)|(?<=a|c|a))"
  /\ Utils.create_fixed_width_lookbehind (fun c => (97 <=? c) && (c <=? 122))
       (str_of "(a|a)x")
     = str_of "(())((?<=x))".
Proof. repeat split; reflexivity. Qed.

(** *** Where the rewriter and the specification agree *)

Lemma buckets_head (x : pystr) (rest : list pystr) :
  exists bucket more, Utils.buckets (x :: rest) = (x :: bucket) :: more.
Proof.
  cbn [Utils.buckets].
  destruct (Utils.buckets rest) as [|[|y bucket] more]; try (eexists; eexists; reflexivity).
  destruct (length x =? length y)%nat; eexists; eexists; reflexivity.
Qed.

Lemma buckets_uniform (n : nat) (x : pystr) (cur : list pystr) :
  uniform n (x :: cur) -> Utils.buckets (x :: cur) = [x :: cur].
Proof.
  revert x. induction cur as [|y cur IH]; intros x Hu; [reflexivity|].
  change (Utils.buckets (x :: y :: cur))
    with (match Utils.buckets (y :: cur) with
          | (z :: bucket) :: more =>
              if (length x =? length z)%nat then (x :: z :: bucket) :: more
              else [x] :: (z :: bucket) :: more
          | _ => [[x]]
          end).
  rewrite IH by (intros z Hz; apply Hu; now right).
  rewrite (Hu x (or_introl eq_refl)), (Hu y (or_intror (or_introl eq_refl))).
  now rewrite Nat.eqb_refl.
Qed.

Lemma buckets_after_uniform (n : nat) (x : pystr) (cur : list pystr)
    (y : pystr) (rest : list pystr) :
  uniform n (x :: cur) -> length y <> n ->
  Utils.buckets ((x :: cur) ++ y :: rest)
  = (x :: cur) :: Utils.buckets (y :: rest).
Proof.
  revert x. induction cur as [|z cur IH]; intros x Hu Hy.
  - change (Utils.buckets ([x] ++ y :: rest))
      with (match Utils.buckets (y :: rest) with
            | (z :: bucket) :: more =>
                if (length x =? length z)%nat then (x :: z :: bucket) :: more
                else [x] :: (z :: bucket) :: more
            | _ => [[x]]
            end).
    destruct (buckets_head y rest) as (bucket & more & ->).
    rewrite (Hu x (or_introl eq_refl)).
    destruct (Nat.eqb_spec n (length y)); [congruence | reflexivity].
  - change (Utils.buckets ((x :: z :: cur) ++ y :: rest))
      with (match Utils.buckets ((z :: cur) ++ y :: rest) with
            | (w :: bucket) :: more =>
                if (length x =? length w)%nat then (x :: w :: bucket) :: more
                else [x] :: (w :: bucket) :: more
            | _ => [[x]]
            end).
    rewrite IH; [|intros w Hw; apply Hu; now right | assumption].
    rewrite (Hu x (or_introl eq_refl)), (Hu z (or_intror (or_introl eq_refl))).
    now rewrite Nat.eqb_refl.
Qed.

Lemma add_item_same (st : Utils.lb_state) (item : pystr) :
  length item = Utils.current_len st ->
  Utils.add_item st item
  = {| Utils.current_len := Utils.current_len st;
       Utils.all_lookbehinds := Utils.all_lookbehinds st;
       Utils.current_list := Utils.current_list st ++ [item] |}.
Proof. intros H. unfold Utils.add_item. now rewrite H, Nat.eqb_refl. Qed.

Lemma add_item_other (st : Utils.lb_state) (item : pystr) :
  length item <> Utils.current_len st ->
  Utils.add_item st item
  = {| Utils.current_len := length item;
       Utils.all_lookbehinds :=
         Utils.all_lookbehinds st ++ [Utils.current_list st];
       Utils.current_list := [item] |}.
Proof.
  intros H. unfold Utils.add_item.
  destruct (Nat.eqb_spec (length item) (Utils.current_len st));
    [contradiction | reflexivity].
Qed.

(** The loop without its closing test, from a state whose current list is
    not empty: the buckets are those of the current list and the items. *)
Lemma add_items_buckets (rest : list pystr) :
  forall (done : list (list pystr)) (x : pystr) (cur : list pystr),
    uniform (length x) (x :: cur) ->
    let st := fold_left Utils.add_item rest
                {| Utils.current_len := length x;
                   Utils.all_lookbehinds := done;
                   Utils.current_list := x :: cur |} in
    Utils.all_lookbehinds st ++ [Utils.current_list st]
    = done ++ Utils.buckets ((x :: cur) ++ rest).
Proof.
  induction rest as [|y rest IH]; intros done x cur Hu; cbn [fold_left].
  - cbn [Utils.all_lookbehinds Utils.current_list].
    rewrite app_nil_r. f_equal. symmetry. now apply buckets_uniform with (n := length x).
  - destruct (Nat.eq_dec (length y) (length x)) as [Heq | Hne].
    + rewrite add_item_same by exact Heq.
      cbn [Utils.current_len Utils.all_lookbehinds Utils.current_list].
      change ((x :: cur) ++ [y]) with (x :: (cur ++ [y])).
      rewrite (IH done x (cur ++ [y])).
      * cbn [app]. now rewrite <- app_assoc.
      * intros z [<- | Hz]; [reflexivity|].
        apply in_app_or in Hz as [Hz | [<- | []]]; [|assumption].
        apply Hu. now right.
    + rewrite add_item_other by exact Hne.
      cbn [Utils.current_len Utils.all_lookbehinds Utils.current_list].
      rewrite (IH (done ++ [x :: cur]) y []).
      * rewrite (buckets_after_uniform (length x)) by assumption.
        rewrite <- app_assoc. reflexivity.
      * intros z [<- | []]. reflexivity.
Qed.

Lemma index_from_found {A} (eqb : A -> A -> bool) (x : A) (l more : list A) :
  (exists y, In y l /\ eqb y x = true) ->
  forall i, exists k,
    index_from eqb x (l ++ more) i = Some k /\ (k < i + length l)%nat.
Proof.
  induction l as [|z l IH]; intros (y & Hy & Hxy) i; [destruct Hy|].
  cbn. destruct (eqb z x) eqn:Hz.
  - exists i. split; [reflexivity | lia].
  - destruct Hy as [-> | Hy]; [congruence|].
    destruct (IH (ex_intro _ y (conj Hy Hxy)) (S i)) as (k & Hk & Hlt).
    exists k. split; [assumption | lia].
Qed.

Lemma close_if_last_inside (inner : list pystr) (z item : pystr)
    (st : Utils.lb_state) :
  In item inner -> Utils.close_if_last (inner ++ [z]) item st = st.
Proof.
  intros Hin. unfold Utils.close_if_last, index.
  destruct (index_from_found pystr_eqb item inner [z]
              (ex_intro _ item (conj Hin (pystr_eqb_refl item))) 0%nat)
    as (k & -> & Hk).
  rewrite length_app. cbn [length].
  destruct (Nat.eqb_spec k (length inner + 1 - 1)); [lia | reflexivity].
Qed.

Lemma fold_left_agree {A B} (f g : A -> B -> A) (l : list B) :
  (forall x, In x l -> forall a, f a x = g a x) ->
  forall a, fold_left f l a = fold_left g l a.
Proof.
  induction l as [|x l IH]; intros H a; [reflexivity|].
  cbn. rewrite (H x (or_introl eq_refl)). apply IH.
  intros y Hy. apply H. now right.
Qed.

(** When the last item of the sorted pattern is at the position that
    [pattern.index] gives for it, the loop collects the buckets of the
    specification. *)
Lemma lb_loop_buckets (inner : list pystr) (z : pystr) :
  index pystr_eqb z (inner ++ [z]) = Some (length inner) ->
  Utils.lb_loop (inner ++ [z]) = Utils.buckets (inner ++ [z]).
Proof.
  intros Hidx. destruct inner as [|f inner].
  - cbn. unfold Utils.lb_step, Utils.close_if_last, Utils.add_item, index.
    cbn. now rewrite Nat.eqb_refl, pystr_eqb_refl.
  - change (Utils.lb_loop ((f :: inner) ++ [z]))
      with (Utils.all_lookbehinds
              (fold_left (Utils.lb_step ((f :: inner) ++ [z]))
                 ((f :: inner) ++ [z])
                 {| Utils.current_len := length f;
                    Utils.all_lookbehinds := [];
                    Utils.current_list := [] |})).
    rewrite fold_left_app.
    rewrite (fold_left_agree _ Utils.add_item (f :: inner)).
    2:{ intros x Hx st. unfold Utils.lb_step. now apply close_if_last_inside. }
    cbn [fold_left]. unfold Utils.lb_step, Utils.close_if_last.
    rewrite Hidx, length_app. cbn [length].
    replace (S (length inner) =? S (length inner) + 1 - 1)%nat with true
      by (symmetry; apply Nat.eqb_eq; lia).
    cbn [Utils.all_lookbehinds Utils.current_list].
    rewrite (add_item_same
               {| Utils.current_len := length f;
                  Utils.all_lookbehinds := [];
                  Utils.current_list := [] |} f eq_refl).
    cbn [Utils.current_len Utils.all_lookbehinds Utils.current_list app].
    match goal with
    | |- context [Utils.add_item (fold_left Utils.add_item inner ?st0) z] =>
        replace (Utils.add_item (fold_left Utils.add_item inner st0) z)
          with (fold_left Utils.add_item (inner ++ [z]) st0)
          by (rewrite fold_left_app; reflexivity)
    end.
    rewrite (add_items_buckets (inner ++ [z]) [] f []).
    + reflexivity.
    + intros x [<- | []]. reflexivity.
Qed.

Lemma split_acc_not_nil (sep : char) (s piece : pystr) :
  split_acc sep piece s <> [].
Proof.
  revert piece. induction s as [|c s IH]; intros piece; cbn; [discriminate|].
  destruct (c =? sep); [discriminate | apply IH].
Qed.

Lemma insert_desc_not_nil {A} (key : A -> nat) (x : A) (l : list A) :
  insert_desc key x l <> [].
Proof.
  destruct l as [|y l]; cbn [insert_desc];
    [|destruct (key x <? key y)%nat]; discriminate.
Qed.

Lemma sorted_desc_not_nil {A} (key : A -> nat) (l : list A) :
  l <> [] -> sorted_desc key l <> [].
Proof. destruct l; [congruence | intros _; apply insert_desc_not_nil]. Qed.

Lemma NoDup_insert_desc {A} (key : A -> nat) (x : A) (l : list A) :
  ~ In x l -> NoDup l -> NoDup (insert_desc key x l).
Proof.
  induction l as [|z l IH]; intros Hx Hl; cbn [insert_desc].
  - constructor; [easy | constructor].
  - destruct (key x <? key z)%nat; [|now constructor].
    inversion Hl as [|? ? Hz Hl']; subst. constructor.
    + intros Hin. apply in_insert_desc in Hin as [-> | Hin].
      * apply Hx. now left.
      * contradiction.
    + apply IH; [|assumption]. intros Hin. apply Hx. now right.
Qed.

Lemma NoDup_sorted_desc {A} (key : A -> nat) (l : list A) :
  NoDup l -> NoDup (sorted_desc key l).
Proof.
  induction 1 as [|x l Hx Hl IH]; cbn [sorted_desc]; [constructor|].
  apply NoDup_insert_desc; [|assumption].
  intros Hin. apply Hx. eapply in_sorted_desc. eassumption.
Qed.

(** Outside the failing case the rewriter does what the specification
    says: when the last of the sorted alternatives occurs nowhere before,
    one run is rendered bucket by bucket. *)
Lemma rewriter_agrees_when_last_is_new (run : pystr) (inner : list pystr)
    (z : pystr) :
  sorted_desc (@length char) (split Utils.bar run) = inner ++ [z] ->
  ~ In z inner ->
  Utils.pattern_to_fixed_width_lookbehinds run
  = Utils.rewrite_as_specified run.
Proof.
  intros Hsorted Hz.
  unfold Utils.pattern_to_fixed_width_lookbehinds, Utils.rewrite_as_specified.
  rewrite Hsorted, lb_loop_buckets; [reflexivity|].
  unfold index. rewrite index_from_skips.
  - reflexivity.
  - intros y Hy. apply pystr_eqb_neq. intros ->. contradiction.
  - apply pystr_eqb_refl.
Qed.

(** In particular when the alternatives of the run are all different. *)
Lemma rewriter_agrees_on_distinct_alternatives (run : pystr) :
  NoDup (split Utils.bar run) ->
  Utils.pattern_to_fixed_width_lookbehinds run
  = Utils.rewrite_as_specified run.
Proof.
  intros Hnodup.
  apply (NoDup_sorted_desc (@length char)) in Hnodup.
  destruct (exists_last
              (sorted_desc_not_nil (@length char) (split Utils.bar run)
                 (split_acc_not_nil Utils.bar run [])))
    as (inner & z & Hsorted).
  apply (rewriter_agrees_when_last_is_new run inner z Hsorted).
  rewrite Hsorted in Hnodup. apply NoDup_remove_2 in Hnodup.
  now rewrite app_nil_r in Hnodup.
Qed.

(** ** The delimited-text loader *)

Lemma rows_to_rules_two_columns (work_sheet : list (list pystr)) :
  Forall (fun entry => (2 <= length entry)%nat) work_sheet ->
  Utils.rows_to_rules work_sheet = Ok (map rule_of_row work_sheet).
Proof.
  induction 1 as [|entry rest Hlen _ IH]; [reflexivity|].
  cbn [Utils.rows_to_rules map]. rewrite IH.
  destruct entry as [|i [|o cols]]; cbn in Hlen; try lia.
  reflexivity.
Qed.

(** C3, as the code has it. For a table whose rows all have at least two
    columns, [load_from_csv] gives, row by row, columns 0 to 3 as [in],
    [out], [context_before] and [context_after], each missing context
    column as the empty string. *)
Theorem C3_rows_load_with_empty_contexts
    (fs : Utils.files) (language content : pystr)
    (work_sheet : list (list pystr)) :
  fs language = Some content ->
  Utils.csv_reader content = Ok work_sheet ->
  Forall (fun entry => (2 <= length entry)%nat) work_sheet ->
  Utils.load_from_csv fs language = Ok (map rule_of_row work_sheet).
Proof.
  intros Hfile Hread Hrows. unfold Utils.load_from_csv, Utils.open_read.
  rewrite Hfile, Hread. now apply rows_to_rules_two_columns.
Qed.

(** C3 as stated fails on a row of one column: the columns [in] and [out]
    are read outside [try], and the loader raises [IndexError]. *)
Lemma C3_one_column_row_raises :
  let fs := fun _ : pystr => Some (str_of "a") in
  Utils.csv_reader (str_of "a") = Ok [[str_of "a"]]
  /\ Utils.load_from_csv fs (str_of "t.csv") = Raise IndexError
  /\ Utils.load_from_csv fs (str_of "t.csv")
     <> Ok (map rule_of_row [[str_of "a"]]).
Proof. repeat split; try reflexivity. discriminate. Qed.

Lemma C3_rows_load_with_empty_contexts_witness :
  let fs := fun _ : pystr => Some (str_of "a,b") in
  Utils.load_from_csv fs (str_of "t.csv")
  = Ok [plain_rule (str_of "a") (str_of "b") [] []].
Proof.
  intro fs.
  apply (C3_rows_load_with_empty_contexts fs (str_of "t.csv") (str_of "a,b")
           [[str_of "a"; str_of "b"]]).
  - reflexivity.
  - reflexivity.
  - repeat constructor.
Defined.

(** ** Lookup in the catalog *)

Lemma search_id_none catalog map_id :
  no_entry_with_id catalog map_id -> Mapping.search_id map_id catalog = None.
Proof.
  induction catalog as [|c rest IH]; intros H; [reflexivity|].
  cbn. rewrite (H c (or_introl eq_refl)).
  apply IH. intros c' Hin. apply H. now right.
Qed.

Lemma search_pair_none catalog in_lang out_lang :
  no_entry_with_pair catalog in_lang out_lang ->
  Mapping.search_pair in_lang out_lang catalog = None.
Proof.
  induction catalog as [|c rest IH]; intros H; [reflexivity|].
  cbn. rewrite (H c (or_introl eq_refl)).
  apply IH. intros c' Hin. apply H. now right.
Qed.

(** C7. When no entry of the catalog has the id, [find_mapping_by_id]
    returns [None] and raises nothing, and leaves the store as it was;
    when no entry has the language pair, [find_mapping] raises
    [MappingMissing] with that pair. *)
Theorem C7_lookup_failures_differ
    (catalog : list Mapping.config) (map_id in_lang out_lang : value)
    (s : store) :
  no_entry_with_id catalog map_id ->
  no_entry_with_pair catalog in_lang out_lang ->
  Mapping.find_mapping_by_id catalog map_id s = (Ok None, s)
  /\ Mapping.find_mapping catalog in_lang out_lang s
     = (Raise (MappingMissing in_lang out_lang), s).
Proof.
  intros Hid Hpair. unfold Mapping.find_mapping_by_id, Mapping.find_mapping.
  rewrite (search_id_none _ _ Hid), (search_pair_none _ _ _ Hpair).
  split; reflexivity.
Qed.

Lemma C7_lookup_failures_differ_witness :
  Mapping.find_mapping_by_id [sample_entry] (VStr (str_of "fra-to-ipa"))
    empty_store = (Ok None, empty_store)
  /\ Mapping.find_mapping [sample_entry] (VStr (str_of "fra"))
       (VStr (str_of "fra-ipa")) empty_store
     = (Raise (MappingMissing (VStr (str_of "fra")) (VStr (str_of "fra-ipa"))),
        empty_store).
Proof.
  apply C7_lookup_failures_differ.
  - intros c [<-|[]]. reflexivity.
  - intros c [<-|[]]. reflexivity.
Defined.

(** ** Export *)

Lemma lang_or_und_string key kw :
  (forall v, lookup key kw = Some v -> exists s, v = VStr s) ->
  exists s, Mapping.lang_or_und key kw = Ok s.
Proof.
  intros H. unfold Mapping.lang_or_und, get_or.
  destruct (lookup key kw) as [v|] eqn:E.
  - destruct (H v eq_refl) as [s ->]. now exists s.
  - now eexists.
Qed.

Lemma lang_or_und_raises key kw e :
  Mapping.lang_or_und key kw = Raise e -> e = TypeError.
Proof.
  unfold Mapping.lang_or_und.
  destruct (get_or key (VStr (str_of "und")) kw); congruence.
Qed.




(** ** Read access *)

Lemma clamp_length (n : nat) : Mapping.clamp n (Z.of_nat n) = n.
Proof.
  unfold Mapping.clamp.
  destruct (Z.ltb_spec (Z.of_nat n) 0); [lia|].
  rewrite Nat2Z.id. apply Nat.min_id.
Qed.

Lemma slice_to_the_end {A} (l : list A) (start : Z) :
  Mapping.slice l start (Z.of_nat (length l))
  = skipn (Mapping.clamp (length l) start) l.
Proof.
  unfold Mapping.slice. rewrite clamp_length.
  rewrite <- length_skipn. apply firstn_all.
Qed.

(** C10. A slice whose stop bound is absent or zero reads from its start
    bound (zero when that is absent or zero) to the end of the rule list;
    so [m[0:0]] is the whole list. *)
Theorem C10_falsy_stop_reads_to_the_end
    (self : Mapping.mapping_object) (start stop : option Z) (s : store) :
  falsy_bound stop ->
  let l := lists s (Mapping.mapping self) in
  Mapping.getitem self (Mapping.Slice_item start stop) s
  = (Ok (Mapping.Rules
           (skipn (Mapping.clamp (length l) (Mapping.or_default start 0)) l)),
     s)
  /\ Mapping.getitem self (Mapping.Slice_item (Some 0) stop) s
     = (Ok (Mapping.Rules l), s).
Proof.
  intros Hstop l.
  assert (Hdef : Mapping.or_default stop (Z.of_nat (length l))
                 = Z.of_nat (length l))
    by (destruct Hstop as [-> | ->]; reflexivity).
  split; unfold Mapping.getitem, bind, get_list, ret; fold l;
    rewrite Hdef, slice_to_the_end; [reflexivity|].
  reflexivity.
Qed.

Lemma C10_falsy_stop_reads_to_the_end_witness :
  let s := set_list empty_store 0%nat [1; 2; 3]%nat in
  Mapping.getitem sample_mapping (Mapping.Slice_item (Some 1) (Some 0)) s
  = (Ok (Mapping.Rules [2; 3]%nat), s)
  /\ Mapping.getitem sample_mapping (Mapping.Slice_item (Some 0) (Some 0)) s
     = (Ok (Mapping.Rules [1; 2; 3]%nat), s).
Proof.
  intro s.
  apply (C10_falsy_stop_reads_to_the_end sample_mapping (Some 1) (Some 0) s).
  right. reflexivity.
Defined.

(** ** Construction *)

Section Construction.

Variable is_letter_or_mark : char -> bool.
Variable is_decimal_digit : char -> bool.
Variable re_compiles : pystr -> bool.
Variable lower : pystr -> pystr.
Variable re_escape : pystr -> pystr.
Variable normalize : pystr -> value -> result pystr.
Variable MAPPINGS_AVAILABLE : list Mapping.config.
Variable re_search : pystr -> pystr -> bool.
Variable re_sub : pystr -> pystr -> pystr -> result pystr.
Variable fs : Utils.files.
Variable read_mapping_config : pystr -> result Mapping.loaded.

Local Abbreviation init :=
  (Mapping.init is_letter_or_mark is_decimal_digit re_compiles lower re_escape
     normalize MAPPINGS_AVAILABLE re_search re_sub fs read_mapping_config).

Lemma load_abbreviations_ok abbs s :
  abbreviations_load fs abbs ->
  exists t, Mapping.load_abbreviations fs abbs s = (Ok t, s).
Proof.
  destruct abbs as [|t|path]; cbn; intros H; try (eexists; reflexivity).
  destruct H as [-> | [t Ht]]; [eexists; reflexivity|].
  destruct path; [eexists; reflexivity|].
  cbn. unfold bind, Mapping.lift. rewrite Ht. eexists. reflexivity.
Qed.

(** C6, as the code has it. [__init__] first settles the [abbreviations]
    argument; when that needs no file or its file loads, a construction
    with neither a rule list nor a path, without both languages and
    without an id raises [MalformedLookup], and one that names both
    languages, a pair no catalog entry has, raises [MappingMissing] with
    that pair. The store is left as it was. *)
Theorem C6_construction_errors
    (arg : Mapping.mapping_argument) (abbs : Mapping.abbreviations_argument)
    (kw : odict) (s : store) :
  neither_list_nor_path arg ->
  abbreviations_load fs abbs ->
  (no_language_pair kw -> lookup "id" kw = None ->
   init arg abbs kw s = (Raise MalformedLookup, s))
  /\ (forall in_lang out_lang,
        lookup "in_lang" kw = Some in_lang ->
        lookup "out_lang" kw = Some out_lang ->
        no_entry_with_pair MAPPINGS_AVAILABLE in_lang out_lang ->
        init arg abbs kw s = (Raise (MappingMissing in_lang out_lang), s)).
Proof.
  intros Harg Habbs.
  destruct (load_abbreviations_ok abbs s Habbs) as [t Ht].
  split.
  - intros Hpair Hid. unfold Mapping.init, bind. rewrite Ht.
    destruct Harg as [-> | ->]; unfold Mapping.lookup_config;
      destruct Hpair as [-> | ->]; rewrite ?Hid;
      destruct (lookup "in_lang" kw); reflexivity.
  - intros in_lang out_lang Hin Hout Hnone.
    unfold Mapping.init, bind. rewrite Ht.
    destruct Harg as [-> | ->]; unfold Mapping.lookup_config, bind;
      rewrite Hin, Hout; unfold Mapping.find_mapping;
      rewrite (search_pair_none _ _ _ Hnone); reflexivity.
Qed.

End Construction.

(** C6 as stated fails when the [abbreviations] argument is a path that
    does not end in [csv]: loading it raises [IncorrectFileType] before
    the lookup is reached. *)
Lemma C6_abbreviations_fail_first :
  sample_init [] Mapping.No_mapping
    (Mapping.Abbreviations_path (str_of "abbs.txt")) [] empty_store
  = (Raise IncorrectFileType, empty_store)
  /\ fst (sample_init [] Mapping.No_mapping
            (Mapping.Abbreviations_path (str_of "abbs.txt")) [] empty_store)
     <> Raise MalformedLookup.
Proof. split; [reflexivity | discriminate]. Qed.

Lemma C6_construction_errors_witness :
  sample_init [sample_entry] Mapping.No_mapping Mapping.No_abbreviations []
    empty_store = (Raise MalformedLookup, empty_store)
  /\ sample_init [sample_entry] Mapping.No_mapping Mapping.No_abbreviations
       [("in_lang", VStr (str_of "fra")); ("out_lang", VStr (str_of "eng"))]%string
       empty_store
     = (Raise (MappingMissing (VStr (str_of "fra")) (VStr (str_of "eng"))),
        empty_store).
Proof.
  split.
  - apply C6_construction_errors; try (now left); try exact I; reflexivity.
  - apply C6_construction_errors; try (now left); try exact I;
      try reflexivity.
    intros c [<-|[]]. reflexivity.
Defined.

(** ** Compilation *)

Example compile_drops_trailing_null_rule :
  rules_of (sample_init [] (Mapping.Rule_list 2%nat) Mapping.No_abbreviations []
              (store_of [rule_a_b; rule_null_c]))
  = Ok [Mapping.set_match_pattern rule_a_b (PCompiled (str_of "a") false)].
Proof. reflexivity. Qed.

(** C1. The compiling loop removes a rule from the list it is iterating
    over, so the rule after a removed one is passed over. After a rule
    with empty [in], the next rule stays in the list without
    [match_pattern]; when that next rule has an empty [in] too, it
    survives, and only one warning is logged. *)
Theorem C1_rule_after_dropped_rule_is_skipped
    (is_letter_or_mark is_decimal_digit : char -> bool)
    (re_compiles : pystr -> bool) (kw : odict) :
  let compile_all :=
    Mapping.compile_all is_letter_or_mark is_decimal_digit re_compiles kw in
  view (snd (compile_all 2%nat (store_of [rule_null_c; rule_a_b]))) 2%nat
  = [rule_a_b]
  /\ view (snd (compile_all 2%nat (store_of [rule_null_c; rule_null_d]))) 2%nat
     = [rule_null_d]
  /\ log (snd (compile_all 2%nat (store_of [rule_null_c; rule_null_d])))
     = [Warning_null_input [] (str_of "c")]
  /\ rules_of (sample_init [] (Mapping.Rule_list 2%nat) Mapping.No_abbreviations
                 [] (store_of [rule_null_c; rule_a_b]))
     = Ok [rule_a_b]
  /\ match_pattern rule_a_b = None
  /\ in_ rule_null_d = [].
Proof. repeat split; reflexivity. Qed.

(** ** Intermediate forms *)

Lemma rule_eqb_refl (r : rule) : rule_eqb r r = true.
Proof.
  unfold rule_eqb. rewrite !pystr_eqb_refl. cbn.
  destruct (intermediate_form r) as [f|]; cbn; rewrite ?pystr_eqb_refl;
    destruct (match_pattern r) as [[|src ic]|]; cbn;
    rewrite ?pystr_eqb_refl, ?eqb_reflx; reflexivity.
Qed.

Lemma rule_eqb_form_differs (r t : rule) (f : pystr) :
  intermediate_form r = Some f -> intermediate_form t = None ->
  rule_eqb r t = false.
Proof.
  intros Hr Ht. unfold rule_eqb. rewrite Hr, Ht. cbn.
  now rewrite andb_false_r.
Qed.

Lemma chr_pua (i : nat) :
  Z.of_nat i < 131072 -> chr (pua_start + Z.of_nat i) = Ok (pua_start + Z.of_nat i).
Proof.
  intros H. unfold chr, pua_start, max_code_point.
  destruct (Z.leb_spec 0 (983040 + Z.of_nat i)); [|lia].
  destruct (Z.leb_spec (983040 + Z.of_nat i) 1114111); [reflexivity|lia].
Qed.


Section Feeding.

Variables (s : store) (m : loc).
Hypothesis Hfresh : fresh_rules s m.

Lemma fed_has_form (r : rule) (i : nat) :
  intermediate_form (fed r i)
  = Some (repeat (pua_start + Z.of_nat i) (length (out r))).
Proof. reflexivity. Qed.

Lemma feed_step (done rest : list loc) (x : loc) (t : store) :
  lists s m = done ++ x :: rest ->
  feed_inv s done t ->
  exists t', Mapping.feed_rule m x t = (Ok tt, t')
             /\ feed_inv s (done ++ [x]) t'.
Proof.
  intros Hl (Hlists & Hnext & Hlog & Hdone & Hrest).
  destruct Hfresh as (Hnodup & Hnone & Hlen).
  rewrite Hl in Hnodup.
  assert (Hx : ~ In x done).
  { apply NoDup_remove_2 in Hnodup. intros Hin. apply Hnodup.
    apply in_or_app. now left. }
  assert (Hxs : dicts t x = dicts s x) by now apply Hrest.
  assert (Hidx : index rule_eqb (dicts t x) (view t m) = Some (length done)).
  { unfold view, index. rewrite Hlists, Hl, map_app. cbn [map].
    rewrite index_from_skips.
    - now rewrite length_map.
    - intros z Hz. apply in_map_iff in Hz as (d & <- & Hd).
      destruct (In_nth_error _ _ Hd) as [i Hi].
      rewrite (Hdone i d Hi), Hxs.
      apply rule_eqb_form_differs with (f := repeat (pua_start + Z.of_nat i)
                                               (length (out (dicts s d)))).
      + apply fed_has_form.
      + apply Hnone. rewrite Hl. apply in_or_app. right. now left.
    - apply rule_eqb_refl. }
  assert (Hchr : chr (pua_start + Z.of_nat (length done))
                 = Ok (pua_start + Z.of_nat (length done))).
  { apply chr_pua. unfold len in Hlen. rewrite Hl, length_app in Hlen.
    cbn [length] in Hlen. lia. }
  eexists. split.
  - unfold Mapping.feed_rule, bind, get_dict, Mapping.list_index, Mapping.lift,
      _string_to_pua, put_dict, ret. rewrite Hidx, Hchr. reflexivity.
  - unfold feed_inv. cbn [lists next log dicts set_dict].
    split; [assumption|]. split; [assumption|]. split; [assumption|].
    split.
    + intros i y Hy. destruct (Nat.eqb_spec y x) as [-> | Hne].
      * assert (i = length done) as ->.
        { destruct (Nat.lt_ge_cases i (length done)) as [Hlt | Hge].
          - rewrite nth_error_app1 in Hy by assumption.
            exfalso. apply Hx. eapply nth_error_In; eassumption.
          - assert (Hi : (i < length (done ++ [x]))%nat)
              by (apply nth_error_Some; congruence).
            rewrite length_app in Hi. cbn in Hi. lia. }
        rewrite Hxs. reflexivity.
      * apply Hdone.
        destruct (Nat.lt_ge_cases i (length done)) as [Hlt | Hge].
        -- now rewrite nth_error_app1 in Hy.
        -- rewrite nth_error_app2 in Hy by assumption.
           destruct (i - length done)%nat as [|k]; cbn in Hy.
           ++ congruence.
           ++ now destruct k.
    + intros y Hy. destruct (Nat.eqb_spec y x) as [-> | Hne].
      * exfalso. apply Hy. apply in_or_app. right. now left.
      * apply Hrest. intros Hin. apply Hy. apply in_or_app. now left.
Qed.

Lemma feed_loop (rest done : list loc) (t : store) :
  lists s m = done ++ rest ->
  feed_inv s done t ->
  exists t', for_each (Mapping.feed_rule m) rest t = (Ok tt, t')
             /\ feed_inv s (lists s m) t'.
Proof.
  revert done t. induction rest as [|x rest IH]; intros done t Hl Hinv.
  - exists t. split; [reflexivity|]. rewrite Hl, app_nil_r. exact Hinv.
  - destruct (feed_step done rest x t Hl Hinv) as (t1 & Hstep & Hinv1).
    destruct (IH (done ++ [x]) t1) as (t' & Hloop & Hinv').
    + rewrite Hl, <- app_assoc. reflexivity.
    + exact Hinv1.
    + exists t'. split; [|exact Hinv'].
      cbn [for_each]. unfold bind. rewrite Hstep. exact Hloop.
Qed.

End Feeding.

Lemma repeat_eq_head {A} (a b : A) (n k : nat) :
  n <> 0%nat -> repeat a n = repeat b k -> a = b.
Proof.
  intros Hn H. destruct n as [|n]; [congruence|].
  destruct k as [|k]; cbn in H; congruence.
Qed.

Lemma fed_forms_differ (r t : rule) (i j : nat) :
  i <> j -> out r <> [] ->
  intermediate_form (fed r i) <> intermediate_form (fed t j).
Proof.
  intros Hij Hout. unfold fed.
  cbn [intermediate_form Mapping.set_intermediate_form].
  intros Heq.
  assert (Hsome : forall a b : pystr, Some a = Some b -> a = b)
    by (intros a b H; congruence).
  apply Hsome in Heq.
  assert (Hn : length (out r) <> 0%nat)
    by (destruct (out r); [congruence | discriminate]).
  pose proof (repeat_eq_head _ _ _ _ Hn Heq) as Hc.
  unfold pua_start in Hc. lia.
Qed.

Lemma prevent_feeding_forms (s : store) (m : loc) :
  fresh_rules s m ->
  exists t,
    Mapping.prevent_feeding m s = (Ok m, t)
    /\ lists t = lists s
    /\ (forall i x, nth_error (lists s m) i = Some x ->
                    dicts t x = fed (dicts s x) i).
Proof.
  intros Hfresh.
  destruct (feed_loop s m Hfresh (lists s m) [] s eq_refl)
    as (t & Hloop & Hlists & _ & _ & Hfed & _).
  { repeat split; try reflexivity. intros i x Hi. now destruct i. }
  exists t. repeat split.
  - unfold Mapping.prevent_feeding, bind, get_list. now rewrite Hloop.
  - exact Hlists.
  - exact Hfed.
Qed.

(** C2, as the code has it. When the pipeline comes to a true
    [prevent_feeding] flag with a list of at most 131072 rules, held by
    distinct dicts that have no [intermediate_form] yet, it leaves the
    list as it is and gives the rule at position [i] the character
    983040 + i, [len(out)] times, as its [intermediate_form]; a rule whose
    [out] is not empty shares its form with no rule at another position. *)
Theorem C2_intermediate_forms
    (lower re_escape : pystr -> pystr)
    (normalize : pystr -> value -> result pystr)
    (kw : odict) (val : value) (s : store) (m : loc) :
  truthy val = true ->
  fresh_rules s m ->
  exists t,
    Mapping.apply_kwarg lower re_escape normalize kw m "prevent_feeding" val s
    = (Ok m, t)
    /\ lists t = lists s
    /\ (forall i x, nth_error (lists s m) i = Some x ->
                    dicts t x = fed (dicts s x) i)
    /\ (forall i j x y,
          nth_error (lists s m) i = Some x ->
          nth_error (lists s m) j = Some y ->
          i <> j ->
          out (dicts s x) <> [] ->
          intermediate_form (dicts t x) <> intermediate_form (dicts t y)).
Proof.
  intros Hval Hfresh.
  destruct (prevent_feeding_forms s m Hfresh) as (t & Hrun & Hlists & Hfed).
  exists t. repeat split.
  - unfold Mapping.apply_kwarg.
    cbn [String.eqb Ascii.eqb Bool.eqb andb]. now rewrite Hval.
  - exact Hlists.
  - exact Hfed.
  - intros i j x y Hi Hj Hij Hout.
    rewrite (Hfed i x Hi), (Hfed j y Hj).
    now apply fed_forms_differ.
Qed.

(** C2 as stated fails for rules that delete their input: the form is
    [len(out)] characters long, so two rules with an empty [out] both get
    the empty string. *)
Lemma C2_rules_without_output_share_a_form :
  let s := store_of [rule_a_null; rule_b_null] in
  let run :=
    Mapping.apply_kwarg (fun t => t) (fun t => t) (fun t _ => Ok t) []
      2%nat "prevent_feeding" (VBool true) s in
  let t := snd run in
  fst run = Ok 2%nat
  /\ intermediate_form (dicts t 0%nat) = Some []
  /\ intermediate_form (dicts t 1%nat) = Some []
  /\ ~ forms_distinct t 2%nat.
Proof.
  repeat split.
  intros H. apply (H 0%nat 1%nat 0%nat 1%nat); try reflexivity. discriminate.
Qed.

Lemma C2_intermediate_forms_witness :
  exists t,
    Mapping.apply_kwarg (fun t => t) (fun t => t) (fun t _ => Ok t) []
      2%nat "prevent_feeding" (VBool true) (store_of [rule_a_b; rule_c_d])
    = (Ok 2%nat, t)
    /\ dicts t 0%nat = fed rule_a_b 0%nat
    /\ dicts t 1%nat = fed rule_c_d 1%nat.
Proof.
  destruct (C2_intermediate_forms (fun t => t) (fun t => t) (fun t _ => Ok t)
              [] (VBool true) (store_of [rule_a_b; rule_c_d]) 2%nat eq_refl)
    as (t & Hrun & _ & Hfed & _).
  - repeat split.
    + repeat constructor; cbn; intuition lia.
    + intros x [<- | [<- | []]]; reflexivity.
    + cbn. lia.
  - exists t. repeat split.
    + exact Hrun.
    + exact (Hfed 0%nat 0%nat eq_refl).
    + exact (Hfed 1%nat 1%nat eq_refl).
Defined.

(** ** Export and reload *)

Example export_and_reload_plain :
  export_and_reload (fun _ => true) [Utils.lf] (mapping_at 2%nat)
    (store_of [rule_a_b; rule_c_d]) empty_disk (str_of "out")
  = Ok [rule_a_b; rule_c_d].
Proof. reflexivity. Qed.

Example export_and_reload_quoted :
  let r := plain_rule (str_of "a,b") [34; 120; 34] [Utils.lf] (str_of "|") in
  export_and_reload (fun _ => true) [Utils.lf] (mapping_at 1%nat)
    (store_of [r]) empty_disk (str_of "out")
  = Ok [r].
Proof. reflexivity. Qed.

(** C5. Both files are opened in text mode without [newline='']. The
    writer quotes a field that holds a carriage return and writes it as it
    is; on reading, the file object turns every carriage return into a
    line feed before the reader sees it. A rule whose [in] is [a], carriage
    return, [b] comes back with a line feed in its place. *)
Theorem C5_carriage_return_is_not_reloaded :
  export_and_reload (fun _ => true) [Utils.lf] (mapping_at 1%nat)
    (store_of [rule_with_cr]) empty_disk (str_of "out")
  = Ok [rule_with_lf]
  /\ in_ rule_with_cr <> [] /\ rule_with_lf <> rule_with_cr.
Proof. repeat split; discriminate. Qed.

(** *** Reading what the writer wrote *)

Lemma feed_chars_steps (p0 : Utils.parser) (line tail : pystr) :
  Utils.feed_chars p0 (line ++ tail)
  = match feed_steps p0 line with
    | Ok p => Utils.feed_chars p tail
    | Raise e => Raise e
    end.
Proof.
  revert p0. induction line as [|c line IH]; intros p0; cbn; [reflexivity|].
  destruct (Utils.parse_process_char p0 (Some c)); [apply IH | reflexivity].
Qed.

Lemma feed_steps_app (p0 : Utils.parser) (line tail : pystr) :
  feed_steps p0 (line ++ tail)
  = match feed_steps p0 line with
    | Ok p => feed_steps p tail
    | Raise e => Raise e
    end.
Proof.
  revert p0. induction line as [|c line IH]; intros p0; cbn; [reflexivity|].
  destruct (Utils.parse_process_char p0 (Some c)); [apply IH | reflexivity].
Qed.

Lemma lines_acc_char (line : pystr) (c : char) (s : pystr) :
  c <> Utils.lf ->
  Utils.lines_acc line (c :: s) = Utils.lines_acc (line ++ [c]) s.
Proof.
  intros Hc. cbn [Utils.lines_acc].
  destruct (Z.eqb_spec c Utils.lf); [contradiction | reflexivity].
Qed.

Lemma lines_acc_lf (line s : pystr) :
  Utils.lines_acc line (Utils.lf :: s)
  = (line ++ [Utils.lf]) :: Utils.lines_acc [] s.
Proof. reflexivity. Qed.

Lemma reads_nil (p : Utils.parser) : reads p [] p.
Proof. intros p0 line rest H. now exists p0, line. Qed.

Lemma reads_app (p p' p'' : Utils.parser) (x y : pystr) :
  reads p x p' -> reads p' y p'' -> reads p (x ++ y) p''.
Proof.
  intros Hx Hy p0 line rest H.
  destruct (Hx p0 line (y ++ rest) H) as (p1 & line1 & H1 & E1).
  destruct (Hy p1 line1 rest H1) as (p2 & line2 & H2 & E2).
  exists p2, line2. split; [assumption|].
  rewrite <- app_assoc. congruence.
Qed.

Lemma reads_char (p p' : Utils.parser) (c : char) :
  c <> Utils.lf ->
  Utils.parse_process_char p (Some c) = Ok p' ->
  reads p [c] p'.
Proof.
  intros Hc Hstep p0 line rest H. exists p0, (line ++ [c]). split.
  - rewrite feed_steps_app, H. cbn. now rewrite Hstep.
  - cbn [app]. now rewrite lines_acc_char.
Qed.

(** A line feed inside a quoted field ends the line, not the record. *)
Lemma reads_lf_quoted (p : Utils.parser) :
  Utils.state p = Utils.IN_QUOTED_FIELD ->
  reads p [Utils.lf] (Utils.parse_add_char p Utils.lf Utils.IN_QUOTED_FIELD).
Proof.
  intros Hq p0 line rest H.
  exists (Utils.parse_add_char p Utils.lf Utils.IN_QUOTED_FIELD), [].
  split; [reflexivity|].
  cbn [app]. rewrite lines_acc_lf. cbn [Utils.read_records].
  rewrite feed_chars_steps, H. cbn [Utils.feed_chars].
  unfold Utils.parse_process_char at 1. rewrite Hq. cbn.
  reflexivity.
Qed.

Lemma plain_char_spec (c : char) :
  plain_char c = true ->
  c <> Utils.comma /\ c <> Utils.dquote /\ c <> Utils.cr /\ c <> Utils.lf.
Proof.
  unfold plain_char. intros H. apply negb_true_iff in H.
  repeat (apply orb_false_elim in H as [H ?]).
  repeat split; apply Z.eqb_neq; assumption.
Qed.

Lemma needs_no_quotes (f : pystr) :
  Utils.needs_quotes f = false -> forallb plain_char f = true.
Proof.
  unfold Utils.needs_quotes. induction f as [|c f IH]; [reflexivity|].
  cbn [existsb forallb]. intros H. apply orb_false_elim in H as [Hc Hf].
  unfold plain_char at 1. rewrite Hc. now rewrite IH.
Qed.

Lemma reads_plain_in_field (g : pystr) :
  forall p, Utils.state p = Utils.IN_FIELD ->
            forallb plain_char g = true ->
            reads p g {| Utils.state := Utils.IN_FIELD;
                         Utils.fields := Utils.fields p;
                         Utils.field := Utils.field p ++ g |}.
Proof.
  induction g as [|c g IH]; intros p Hst Hg.
  - rewrite app_nil_r. destruct p as [st fs f]. cbn in Hst. subst st.
    apply reads_nil.
  - cbn [forallb] in Hg. apply andb_prop in Hg as [Hc Hg].
    destruct (plain_char_spec c Hc) as (Hcomma & _ & Hcr & Hlf).
    change (c :: g) with ([c] ++ g).
    apply reads_app with (p' := Utils.parse_add_char p c Utils.IN_FIELD).
    + apply reads_char; [assumption|].
      unfold Utils.parse_process_char, Utils.is_newline. rewrite Hst.
      apply Z.eqb_neq in Hcomma, Hcr, Hlf. now rewrite Hcomma, Hcr, Hlf.
    + specialize (IH (Utils.parse_add_char p c Utils.IN_FIELD) eq_refl Hg).
      cbn [Utils.parse_add_char Utils.fields Utils.field] in IH.
      now rewrite <- app_assoc in IH.
Qed.

(** The step from where a field starts, on a plain character. *)
Lemma start_plain (p : Utils.parser) (c : char) :
  at_field_start p -> plain_char c = true ->
  Utils.parse_process_char p (Some c)
  = Ok (Utils.parse_add_char p c Utils.IN_FIELD).
Proof.
  intros [Hst _] Hc.
  destruct (plain_char_spec c Hc) as (Hcomma & Hdq & Hcr & Hlf).
  apply Z.eqb_neq in Hcomma, Hdq, Hcr, Hlf.
  unfold Utils.parse_process_char, Utils.start_field, Utils.is_newline.
  destruct Hst as [-> | ->]; now rewrite Hcomma, Hdq, Hcr, Hlf.
Qed.

Lemma start_quote (p : Utils.parser) :
  at_field_start p ->
  Utils.parse_process_char p (Some Utils.dquote)
  = Ok (Utils.goto p Utils.IN_QUOTED_FIELD).
Proof. intros [[Hst | Hst] _]; unfold Utils.parse_process_char; now rewrite Hst. Qed.

Lemma reads_unquoted (p : Utils.parser) (f : pystr) (first : bool) :
  at_field_start p ->
  (Utils.state p = Utils.START_RECORD -> first = true) ->
  Utils.needs_quotes f = false ->
  exists p', reads p f p' /\ behind_field (Utils.fields p) f first p'.
Proof.
  intros Hstart Hfirst Hf. apply needs_no_quotes in Hf.
  destruct f as [|c g].
  - exists p. split; [apply reads_nil|].
    destruct Hstart as [Hst Hfield]. repeat split; [assumption|].
    destruct Hst as [Hst | Hst]; [|now right; right; left].
    right. right. right. split; [assumption | now apply Hfirst].
  - cbn [forallb] in Hf. apply andb_prop in Hf as [Hc Hg].
    eexists. split.
    + change (c :: g) with ([c] ++ g). eapply reads_app.
      * apply reads_char; [apply (plain_char_spec c Hc)|].
        now apply start_plain.
      * now apply reads_plain_in_field.
    + destruct Hstart as [_ Hfield]. unfold behind_field.
      cbn [Utils.parse_add_char Utils.state Utils.fields Utils.field].
      rewrite Hfield. repeat split. now left.
Qed.

Lemma reads_quoted_body (f : pystr) :
  forall p, Utils.state p = Utils.IN_QUOTED_FIELD -> no_cr f ->
            reads p (Utils.double_quotes f)
              {| Utils.state := Utils.IN_QUOTED_FIELD;
                 Utils.fields := Utils.fields p;
                 Utils.field := Utils.field p ++ f |}.
Proof.
  induction f as [|c f IH]; intros p Hst Hcr.
  - rewrite app_nil_r. destruct p as [st fs g]. cbn in Hst. subst st.
    apply reads_nil.
  - assert (Hf : no_cr f) by (intros H; apply Hcr; now right).
    assert (Hnext : forall p1,
               p1 = Utils.parse_add_char p c Utils.IN_QUOTED_FIELD ->
               reads p1 (Utils.double_quotes f)
                 {| Utils.state := Utils.IN_QUOTED_FIELD;
                    Utils.fields := Utils.fields p;
                    Utils.field := Utils.field p ++ c :: f |}).
    { intros p1 ->.
      specialize (IH (Utils.parse_add_char p c Utils.IN_QUOTED_FIELD)
                    eq_refl Hf).
      cbn [Utils.parse_add_char Utils.fields Utils.field] in IH.
      now rewrite <- app_assoc in IH. }
    cbn [Utils.double_quotes].
    destruct (Z.eqb_spec c Utils.dquote) as [-> | Hdq].
    + change (Utils.dquote :: Utils.dquote :: Utils.double_quotes f)
        with ([Utils.dquote] ++ [Utils.dquote] ++ Utils.double_quotes f).
      eapply reads_app; [|eapply reads_app; [|apply Hnext; reflexivity]].
      * apply reads_char; [discriminate|].
        unfold Utils.parse_process_char. rewrite Hst. reflexivity.
      * apply reads_char; [discriminate | reflexivity].
    + change (c :: Utils.double_quotes f)
        with ([c] ++ Utils.double_quotes f).
      eapply reads_app; [|apply Hnext; reflexivity].
      destruct (Z.eqb_spec c Utils.lf) as [-> | Hlf].
      * now apply reads_lf_quoted.
      * apply reads_char; [assumption|].
        unfold Utils.parse_process_char. rewrite Hst.
        apply Z.eqb_neq in Hdq. now rewrite Hdq.
Qed.

Lemma reads_quoted (p : Utils.parser) (f : pystr) :
  at_field_start p -> no_cr f ->
  reads p (Utils.dquote :: Utils.double_quotes f ++ [Utils.dquote])
    {| Utils.state := Utils.QUOTE_IN_QUOTED_FIELD;
       Utils.fields := Utils.fields p;
       Utils.field := f |}.
Proof.
  intros Hstart Hcr.
  change (Utils.dquote :: Utils.double_quotes f ++ [Utils.dquote])
    with ([Utils.dquote] ++ Utils.double_quotes f ++ [Utils.dquote]).
  eapply reads_app; [|eapply reads_app].
  - apply reads_char; [discriminate | now apply start_quote].
  - now apply reads_quoted_body.
  - apply reads_char; [discriminate|].
    destruct Hstart as [_ Hfield]. unfold Utils.parse_process_char.
    cbn [Utils.state Utils.goto Utils.fields Utils.field].
    rewrite Z.eqb_refl. unfold Utils.goto.
    cbn [Utils.state Utils.fields Utils.field]. now rewrite Hfield.
Qed.

Lemma reads_field (p : Utils.parser) (f : pystr) (first : bool) :
  at_field_start p ->
  (Utils.state p = Utils.START_RECORD -> first = true) ->
  no_cr f ->
  exists p', reads p (Utils.write_field f) p'
             /\ behind_field (Utils.fields p) f first p'.
Proof.
  intros Hstart Hfirst Hcr. unfold Utils.write_field.
  destruct (Utils.needs_quotes f) eqn:Hq.
  - eexists. split; [now apply reads_quoted|].
    repeat split. right. now left.
  - now apply reads_unquoted.
Qed.

Lemma reads_comma (p : Utils.parser) (fs : list pystr) (f : pystr)
    (first : bool) :
  behind_field fs f first p ->
  reads p [Utils.comma]
    {| Utils.state := Utils.START_FIELD;
       Utils.fields := fs ++ [f];
       Utils.field := [] |}.
Proof.
  intros (<- & <- & Hst). apply reads_char; [discriminate|].
  unfold Utils.parse_process_char, Utils.start_field.
  destruct Hst as [-> | [-> | [-> | [-> _]]]]; reflexivity.
Qed.

Lemma reads_fields (gs : list pystr) :
  forall g p first,
    at_field_start p ->
    (Utils.state p = Utils.START_RECORD -> first = true) ->
    Forall no_cr (g :: gs) ->
    exists p',
      reads p (join [Utils.comma] (map Utils.write_field (g :: gs))) p'
      /\ Utils.fields p' ++ [Utils.field p'] = Utils.fields p ++ g :: gs
      /\ (Utils.state p' = Utils.IN_FIELD
          \/ Utils.state p' = Utils.QUOTE_IN_QUOTED_FIELD
          \/ Utils.state p' = Utils.START_FIELD
          \/ (Utils.state p' = Utils.START_RECORD /\ first = true /\ gs = [])).
Proof.
  induction gs as [|h gs IH]; intros g p first Hstart Hfirst Hcr;
    inversion Hcr as [|? ? Hg Hgs]; subst.
  - destruct (reads_field p g first Hstart Hfirst Hg)
      as (p' & Hreads & Hfs & Hf & Hst).
    exists p'. split; [exact Hreads|]. split; [now rewrite Hfs, Hf|].
    destruct Hst as [H | [H | [H | [H H']]]]; auto.
    right. right. right. auto.
  - destruct (reads_field p g first Hstart Hfirst Hg)
      as (p1 & Hreads1 & Hbehind).
    pose proof (reads_comma p1 _ _ _ Hbehind) as Hcomma.
    set (p2 := {| Utils.state := Utils.START_FIELD;
                  Utils.fields := Utils.fields p ++ [g];
                  Utils.field := [] |}) in *.
    destruct (IH h p2 false) as (p' & Hreads & Hfs & Hst).
    + split; [now right | reflexivity].
    + discriminate.
    + exact Hgs.
    + exists p'. split; [|split].
      * change (join [Utils.comma] (map Utils.write_field (g :: h :: gs)))
          with (Utils.write_field g ++ [Utils.comma]
                ++ join [Utils.comma] (map Utils.write_field (h :: gs))).
        eapply reads_app; [exact Hreads1|].
        eapply reads_app; [exact Hcomma | exact Hreads].
      * rewrite Hfs. subst p2. cbn [Utils.fields].
        now rewrite <- app_assoc.
      * destruct Hst as [H | [H | [H | (_ & H & _)]]]; auto. discriminate.
Qed.

(** The line feed behind the last field ends the record. *)
Lemma read_row_end (p0 p : Utils.parser) (line rest : pystr) :
  feed_steps p0 line = Ok p ->
  Utils.state p = Utils.IN_FIELD
  \/ Utils.state p = Utils.QUOTE_IN_QUOTED_FIELD
  \/ Utils.state p = Utils.START_FIELD ->
  Utils.read_records p0 (Utils.lines_acc line (Utils.lf :: rest))
  = match Utils.read_records Utils.parse_reset (Utils.lines_acc [] rest) with
    | Ok rows => Ok ((Utils.fields p ++ [Utils.field p]) :: rows)
    | Raise e => Raise e
    end.
Proof.
  intros H Hst. rewrite lines_acc_lf. cbn [Utils.read_records].
  rewrite feed_chars_steps, H. cbn [Utils.feed_chars].
  assert (Hstep : Utils.parse_process_char p (Some Utils.lf)
                  = Ok (Utils.parse_save_field p Utils.EAT_CRNL))
    by (unfold Utils.parse_process_char, Utils.start_field;
        destruct Hst as [-> | [-> | ->]]; reflexivity).
  rewrite Hstep. reflexivity.
Qed.

Lemma read_rows (rows : list (list pystr)) :
  Forall row_without_cr rows ->
  Utils.read_records Utils.parse_reset
    (Utils.lines_acc [] (concat (map row_text rows)))
  = Ok rows.
Proof.
  induction 1 as [|fs rows [Hlen Hcr] _ IH]; [reflexivity|].
  destruct fs as [|g [|h gs]]; cbn in Hlen; try lia.
  destruct (reads_fields (h :: gs) g Utils.parse_reset true)
    as (p' & Hreads & Hfs & Hst).
  { split; [now left | reflexivity]. }
  { reflexivity. }
  { exact Hcr. }
  cbn [map concat]. unfold row_text at 1. rewrite <- app_assoc.
  destruct (Hreads Utils.parse_reset []
              ([Utils.lf] ++ concat (map row_text rows)) eq_refl)
    as (p0' & line' & Hfed & ->).
  cbn [app]. rewrite (read_row_end p0' p' line' _ Hfed).
  - rewrite IH, Hfs. reflexivity.
  - destruct Hst as [H | [H | [H | (_ & _ & H)]]]; auto. discriminate.
Qed.

(** *** What the file holds between writing and reading *)

Lemma write_translate_lf (s : pystr) :
  Utils.write_translate [Utils.lf] s = s.
Proof.
  induction s as [|c s IH]; cbn [Utils.write_translate]; [reflexivity|].
  rewrite IH. destruct (Z.eqb_spec c Utils.lf) as [-> | _]; reflexivity.
Qed.

Lemma read_translate_row (a rest : pystr) :
  no_cr a ->
  Utils.read_translate (a ++ Utils.cr :: Utils.lf :: rest)
  = a ++ Utils.lf :: Utils.read_translate rest.
Proof.
  induction a as [|c a IH]; intros Hcr; [reflexivity|].
  cbn [app Utils.read_translate].
  destruct (Z.eqb_spec c Utils.cr) as [-> | _].
  - exfalso. apply Hcr. now left.
  - rewrite IH; [reflexivity|]. intros H. apply Hcr. now right.
Qed.

Lemma no_cr_app (a b : pystr) : no_cr a -> no_cr b -> no_cr (a ++ b).
Proof. intros Ha Hb H. apply in_app_or in H as [H | H]; auto. Qed.

Lemma no_cr_double_quotes (f : pystr) : no_cr f -> no_cr (Utils.double_quotes f).
Proof.
  induction f as [|c f IH]; intros Hcr; [easy|].
  assert (Hc : c <> Utils.cr) by (intros ->; apply Hcr; now left).
  assert (Hf : no_cr (Utils.double_quotes f))
    by (apply IH; intros H; apply Hcr; now right).
  cbn [Utils.double_quotes].
  destruct (c =? Utils.dquote); intros [H | H]; try (now subst);
    try (destruct H as [H | H]; [now subst|]); now apply Hf.
Qed.

Lemma no_cr_write_field (f : pystr) : no_cr f -> no_cr (Utils.write_field f).
Proof.
  intros Hcr. unfold Utils.write_field.
  destruct (Utils.needs_quotes f); [|assumption].
  change (Utils.dquote :: Utils.double_quotes f ++ [Utils.dquote])
    with ([Utils.dquote] ++ Utils.double_quotes f ++ [Utils.dquote]).
  repeat apply no_cr_app; try (now apply no_cr_double_quotes);
    intros [H | []]; discriminate.
Qed.

Lemma no_cr_join (items : list pystr) :
  Forall no_cr items -> no_cr (join [Utils.comma] items).
Proof.
  induction 1 as [|x items Hx Hitems IH]; [easy|].
  destruct items as [|y items]; [assumption|].
  change (join [Utils.comma] (x :: y :: items))
    with (x ++ [Utils.comma] ++ join [Utils.comma] (y :: items)).
  repeat apply no_cr_app; try assumption. intros [H | []]. discriminate.
Qed.

Lemma writerow_read (fs : list pystr) (rest : pystr) :
  row_without_cr fs ->
  Utils.read_translate (Utils.writerow fs ++ rest)
  = row_text fs ++ Utils.read_translate rest.
Proof.
  intros [Hlen Hcr]. unfold row_text.
  assert (Hrow : Utils.writerow fs
                 = join [Utils.comma] (map Utils.write_field fs)
                   ++ [Utils.cr; Utils.lf])
    by (destruct fs as [|[|c g] [|h gs]]; cbn in Hlen; try lia; reflexivity).
  rewrite Hrow, <- !app_assoc. cbn [app].
  apply read_translate_row, no_cr_join.
  apply Forall_map. eapply Forall_impl; [|exact Hcr].
  intros f. apply no_cr_write_field.
Qed.

Lemma written_rows_read (rows : list (list pystr)) :
  Forall row_without_cr rows ->
  Utils.read_translate (concat (map Utils.writerow rows))
  = concat (map row_text rows).
Proof.
  induction 1 as [|fs rows Hfs _ IH]; [reflexivity|].
  cbn [map concat]. now rewrite writerow_read, IH.
Qed.

(** What [csv.writer] writes of rows without carriage returns, through
    text files on a system whose line separator is the line feed,
    [csv.reader] reads back. *)
Lemma csv_round_trip (rows : list (list pystr)) :
  Forall row_without_cr rows ->
  Utils.csv_reader
    (Utils.write_translate [Utils.lf] (concat (map Utils.writerow rows)))
  = Ok rows.
Proof.
  intros Hrows. unfold Utils.csv_reader, Utils.file_lines.
  rewrite write_translate_lf, written_rows_read by assumption.
  now apply read_rows.
Qed.

Lemma filtered_row (r : rule) :
  rule_without_cr r -> row_without_cr (Mapping.filtered r).
Proof.
  intros (Hi & Ho & Hb & Ha). split; [cbn; lia|].
  repeat constructor; assumption.
Qed.

Lemma rows_to_rules_filtered (rules : list rule) :
  Utils.rows_to_rules (map Mapping.filtered rules) = Ok (map plain rules).
Proof.
  induction rules as [|r rules IH]; [reflexivity|].
  cbn [map Utils.rows_to_rules]. rewrite IH. reflexivity.
Qed.

(** *** What the file takes *)

Lemma encodable_app (a b : pystr) :
  Mapping.encodable (a ++ b) = Mapping.encodable a && Mapping.encodable b.
Proof. apply forallb_app. Qed.

Lemma encodable_double_quotes (f : pystr) :
  Mapping.encodable f = true ->
  Mapping.encodable (Utils.double_quotes f) = true.
Proof.
  induction f as [|c f IH]; [reflexivity|]. cbn [Mapping.encodable forallb].
  intros H. apply andb_prop in H as [Hc Hf].
  cbn [Utils.double_quotes]. destruct (c =? Utils.dquote) eqn:E.
  - apply Z.eqb_eq in E. subst c. cbn [Mapping.encodable forallb].
    rewrite Hc. cbn [andb]. now apply IH.
  - cbn [Mapping.encodable forallb]. rewrite Hc. cbn [andb]. now apply IH.
Qed.

Lemma encodable_write_field (f : pystr) :
  Mapping.encodable f = true -> Mapping.encodable (Utils.write_field f) = true.
Proof.
  intros Hf. unfold Utils.write_field. destruct (Utils.needs_quotes f);
    [|exact Hf].
  change (Utils.dquote :: Utils.double_quotes f ++ [Utils.dquote])
    with ([Utils.dquote] ++ Utils.double_quotes f ++ [Utils.dquote]).
  rewrite !encodable_app, encodable_double_quotes by assumption.
  reflexivity.
Qed.

Lemma encodable_join (sep : pystr) (items : list pystr) :
  Mapping.encodable sep = true ->
  Forall (fun f => Mapping.encodable f = true) items ->
  Mapping.encodable (join sep items) = true.
Proof.
  intros Hsep. induction 1 as [|x items Hx Hitems IH]; [reflexivity|].
  cbn [join]. destruct items as [|y items]; [exact Hx|].
  rewrite !encodable_app, Hx, Hsep. exact IH.
Qed.

Lemma encodable_writerow (fs : list pystr) :
  encodable_row fs -> Mapping.encodable (Utils.writerow fs) = true.
Proof.
  intros Hfs.
  assert (Hjoin : Mapping.encodable
                    (join [Utils.comma] (map Utils.write_field fs)
                     ++ [Utils.cr; Utils.lf]) = true).
  { rewrite encodable_app, encodable_join; [reflexivity | reflexivity |].
    apply Forall_map.
    exact (Forall_impl _ encodable_write_field Hfs). }
  unfold Utils.writerow. destruct fs as [|[|c f] [|g fs]]; exact Hjoin.
Qed.

Lemma write_translate_app (linesep a b : pystr) :
  Utils.write_translate linesep (a ++ b)
  = Utils.write_translate linesep a ++ Utils.write_translate linesep b.
Proof.
  induction a as [|c a IH]; [reflexivity|].
  cbn [app Utils.write_translate]. rewrite IH.
  destruct (c =? Utils.lf); [now rewrite app_assoc | reflexivity].
Qed.

Lemma encodable_write_translate (linesep s : pystr) :
  Mapping.encodable linesep = true ->
  Mapping.encodable s = true ->
  Mapping.encodable (Utils.write_translate linesep s) = true.
Proof.
  intros Hsep. induction s as [|c s IH]; [reflexivity|].
  cbn [Mapping.encodable forallb]. intros H.
  apply andb_prop in H as [Hc Hs]. cbn [Utils.write_translate].
  destruct (c =? Utils.lf).
  - rewrite encodable_app, Hsep. now apply IH.
  - cbn [Mapping.encodable forallb]. rewrite Hc. now apply IH.
Qed.

(** Rows without a surrogate are all written: the file ends up holding
    what it held and the translated lines of the rows, in order. *)
Lemma write_rows_encodable (linesep : pystr) (rows : list (list pystr)) :
  Mapping.encodable linesep = true ->
  Forall encodable_row rows ->
  forall f,
    Mapping.write_rows linesep f rows
    = (Ok tt,
       f ++ Utils.write_translate linesep (concat (map Utils.writerow rows))).
Proof.
  intros Hsep. induction 1 as [|io rows Hio _ IH]; intros f.
  - cbn [Mapping.write_rows map concat Utils.write_translate].
    now rewrite app_nil_r.
  - cbn [Mapping.write_rows map concat].
    rewrite encodable_write_translate
      by (try assumption; now apply encodable_writerow).
    now rewrite IH, write_translate_app, app_assoc.
Qed.

(** The first row with a surrogate stops the export: [UnicodeEncodeError]
    is raised and the file keeps the rows before it. *)
Lemma write_rows_refused (linesep : pystr) (before after : list (list pystr))
    (io : list pystr) (f : pystr) :
  Mapping.encodable linesep = true ->
  Forall encodable_row before ->
  Mapping.encodable (Utils.write_translate linesep (Utils.writerow io))
  = false ->
  Mapping.write_rows linesep f (before ++ io :: after)
  = (Raise UnicodeEncodeError,
     f ++ Utils.write_translate linesep
            (concat (map Utils.writerow before))).
Proof.
  intros Hsep Hbefore Hio. revert f.
  induction Hbefore as [|r before Hr _ IH]; intros f.
  - cbn [app Mapping.write_rows map concat Utils.write_translate].
    now rewrite Hio, app_nil_r.
  - cbn [app Mapping.write_rows map concat].
    rewrite encodable_write_translate
      by (try assumption; now apply encodable_writerow).
    now rewrite IH, write_translate_app, app_assoc.
Qed.

Lemma filtered_encodable (rules : list rule) :
  Forall encodable_rule rules ->
  Forall encodable_row (map Mapping.filtered rules).
Proof. intros H. apply Forall_map. exact H. Qed.

(** Outside the failing case the round trip holds: on such a system, a rule
    table without carriage returns and without surrogates, exported as
    delimited text into an existing directory and loaded again, comes back
    rule by rule with its four text fields, in order. *)
Lemma export_and_reload_without_cr
    (can_open_w : pystr -> bool) (self : Mapping.mapping_object)
    (s : store) (disk : Utils.files) (output_path fn : pystr) :
  Mapping.export_name (Mapping.kwargs self) output_path (str_of "csv")
  = Ok fn ->
  can_open_w fn = true ->
  Forall rule_without_cr (view s (Mapping.mapping self)) ->
  Forall encodable_rule (view s (Mapping.mapping self)) ->
  export_and_reload can_open_w [Utils.lf] self s disk output_path
  = Ok (map plain (view s (Mapping.mapping self))).
Proof.
  intros Hfn Hopen Hrules Hencodable.
  unfold export_and_reload, Mapping.mapping_to_file.
  rewrite Hfn, Hopen.
  replace (pystr_eqb (str_of "csv") (str_of "json")) with false
    by reflexivity.
  replace (pystr_eqb (str_of "csv") (str_of "csv")) with true by reflexivity.
  rewrite write_rows_encodable;
    [|reflexivity | now apply filtered_encodable].
  cbn [app].
  unfold Utils.load_from_csv, Utils.open_read, Mapping.write_file.
  rewrite pystr_eqb_refl, csv_round_trip.
  - apply rows_to_rules_filtered.
  - apply Forall_map. eapply Forall_impl; [|exact Hrules].
    intros r. apply filtered_row.
Qed.

(** ** What a construction may touch *)

Lemma unchanged_refl frozen s : unchanged frozen s s.
Proof. split; [lia | now split]. Qed.

Lemma unchanged_trans frozen s t u :
  unchanged frozen s t -> unchanged frozen t u -> unchanged frozen s u.
Proof.
  intros [Hn H] [Hn' H']. split; [lia|].
  intros l Hl. destruct (H l Hl) as [Hd Hls], (H' l Hl) as [Hd' Hls'].
  split; congruence.
Qed.

Lemma allocated_later frozen s t :
  allocated frozen s -> (next s <= next t)%nat -> allocated frozen t.
Proof. intros H Hn l Hl. specialize (H l Hl). lia. Qed.

Lemma dw_ret D {A} (a : A) s : dict_writes D (ret a) s.
Proof. now repeat split. Qed.

Lemma dw_raise D {A} e s : dict_writes D (@raise A e) s.
Proof. now repeat split. Qed.

Lemma dw_get_dict D x s : dict_writes D (get_dict x) s.
Proof. now repeat split. Qed.

Lemma dw_get_list D m s : dict_writes D (get_list m) s.
Proof. now repeat split. Qed.

Lemma dw_tell D e s : dict_writes D (tell e) s.
Proof. now repeat split. Qed.

Lemma dw_lift D {A} (r : result A) s : dict_writes D (Mapping.lift r) s.
Proof. destruct r; now repeat split. Qed.

Lemma dw_list_index D m x s : dict_writes D (Mapping.list_index m x) s.
Proof.
  unfold dict_writes, Mapping.list_index.
  destruct (index rule_eqb (dicts s x) (view s m)); now repeat split.
Qed.

Lemma dw_put_dict (D : loc -> Prop) x r s :
  D x -> dict_writes D (put_dict x r) s.
Proof.
  intros Hx. repeat split. intros y Hy. cbn.
  destruct (Nat.eqb_spec y x) as [-> | _]; [contradiction | reflexivity].
Qed.

Lemma dw_bind D {A B} (c : M A) (k : A -> M B) s :
  dict_writes D c s ->
  (forall a, fst (c s) = Ok a -> dict_writes D (k a) (snd (c s))) ->
  dict_writes D (bind c k) s.
Proof.
  unfold dict_writes, bind. intros (Hl & Hn & Hd) Hk.
  destruct (c s) as [[a | e] t]; cbn in *; [|now repeat split].
  destruct (Hk a eq_refl) as (Hl' & Hn' & Hd').
  repeat split; try congruence.
  intros y Hy. rewrite Hd', Hd; auto.
Qed.

Lemma dw_weaken (D E : loc -> Prop) {A} (c : M A) s :
  dict_writes D c s -> (forall y, D y -> E y) -> dict_writes E c s.
Proof.
  intros (Hl & Hn & Hd) HDE. repeat split; auto.
Qed.

Lemma dw_for_each D {A} (body : A -> M unit) (l : list A) :
  (forall x, In x l -> forall s, dict_writes D (body x) s) ->
  forall s, dict_writes D (for_each body l) s.
Proof.
  induction l as [|x l IH]; intros Hbody s; cbn [for_each].
  - apply dw_ret.
  - apply dw_bind.
    + apply Hbody. now left.
    + intros _ _. apply IH. intros y Hy. apply Hbody. now right.
Qed.

(** Takes a computation apart along its binds and its case distinctions. *)
Ltac dw_steps :=
  repeat first
    [ apply dw_ret | apply dw_raise | apply dw_get_dict | apply dw_get_list
    | apply dw_tell | apply dw_lift | apply dw_list_index
    | apply dw_put_dict; reflexivity
    | apply dw_bind; [| intros ? _]
    | match goal with
      | |- dict_writes _ (match ?x with _ => _ end) _ => destruct x
      | |- dict_writes _ (let (_, _) := ?x in _) _ => destruct x
      end ].

Section Bodies.

Variables (is_letter_or_mark is_decimal_digit : char -> bool).
Variables (re_compiles : pystr -> bool) (lower re_escape : pystr -> pystr).
Variable normalize : pystr -> value -> result pystr.
Variable re_search : pystr -> pystr -> bool.
Variable re_sub : pystr -> pystr -> pystr -> result pystr.

Lemma dw_escape_text D v s : dict_writes D (Mapping.escape_text re_escape v) s.
Proof. unfold Mapping.escape_text. dw_steps. Qed.

Lemma dw_escape_special_characters x s :
  dict_writes (eq x) (Mapping.escape_special_characters re_escape x) s.
Proof.
  unfold Mapping.escape_special_characters.
  repeat first [apply dw_escape_text | progress dw_steps].
Qed.

Lemma dw_lower_rule x s : dict_writes (eq x) (Mapping.lower_rule lower x) s.
Proof. unfold Mapping.lower_rule. dw_steps. Qed.

Lemma dw_normalize_rule form x s :
  dict_writes (eq x) (Mapping.normalize_rule normalize form x) s.
Proof. unfold Mapping.normalize_rule. dw_steps. Qed.

Lemma dw_reverse_rule x s : dict_writes (eq x) (Mapping.reverse_rule x) s.
Proof. unfold Mapping.reverse_rule. dw_steps. Qed.

Lemma dw_feed_rule m x s : dict_writes (eq x) (Mapping.feed_rule m x) s.
Proof. unfold Mapping.feed_rule. dw_steps. Qed.

Lemma dw_expand_text D abb repl text s :
  dict_writes D (Mapping.expand_text re_search re_sub abb repl text) s.
Proof. unfold Mapping.expand_text. dw_steps. Qed.

Lemma dw_expand_rule abb repl x s :
  dict_writes (eq x) (Mapping.expand_rule re_search re_sub abb repl x) s.
Proof.
  unfold Mapping.expand_rule.
  repeat first [apply dw_expand_text | progress dw_steps].
Qed.

End Bodies.

Lemma dw_over_list (body : loc -> M unit) m s :
  (forall x t, dict_writes (eq x) (body x) t) ->
  dict_writes (fun y => In y (lists s m))
    (l <- get_list m ;; for_each body l ;;; ret m) s.
Proof.
  intros Hbody. apply dw_bind; [apply dw_get_list|].
  intros l [= <-]. cbn [snd get_list].
  apply dw_bind; [|intros; apply dw_ret].
  apply dw_for_each. intros x Hx t.
  apply dw_weaken with (D := eq x); [apply Hbody | now intros y <-].
Qed.

Lemma dw_unchanged frozen D {A} (c : M A) s :
  dict_writes D c s -> (forall y, D y -> ~ frozen y) ->
  unchanged frozen s (snd (c s)).
Proof.
  intros (Hl & Hn & Hd) HD. split; [lia|].
  intros l Hl'. split; [|now rewrite Hl].
  apply Hd. intros HDl. now apply (HD l).
Qed.

Lemma dw_owned frozen D {A} (c : M A) s m :
  dict_writes D c s -> owned frozen s m -> owned frozen (snd (c s)) m.
Proof. intros (Hl & _) [Hm Hx]. split; [assumption|]. now rewrite Hl. Qed.

Lemma safe_over_list frozen (body : loc -> M unit) m s :
  (forall x t, dict_writes (eq x) (body x) t) ->
  owned frozen s m ->
  safe frozen (l <- get_list m ;; for_each body l ;;; ret m) s.
Proof.
  intros Hbody Hown. pose proof (dw_over_list body m s Hbody) as Hdw.
  split.
  - apply (dw_unchanged _ _ _ _ Hdw). intros y Hy. now apply Hown.
  - intros m' Hm'.
    assert (m' = m) as ->.
    { revert Hm'. unfold bind, get_list, ret. cbn.
      destruct (for_each body (lists s m) s) as [[[]|e] t]; cbn; congruence. }
    now apply (dw_owned _ _ _ _ _ Hdw).
Qed.

Lemma safe_bind frozen (c : M loc) (k : loc -> M loc) s :
  safe frozen c s ->
  (forall m, fst (c s) = Ok m -> owned frozen (snd (c s)) m ->
             safe frozen (k m) (snd (c s))) ->
  safe frozen (bind c k) s.
Proof.
  unfold safe, bind. intros [Hu Ho] Hk.
  destruct (c s) as [[m | e] t]; cbn in *.
  - destruct (Hk m eq_refl (Ho m eq_refl)) as [Hu' Ho'].
    split; [eapply unchanged_trans; eassumption | assumption].
  - split; [assumption | discriminate].
Qed.

Lemma safe_ret frozen m s : owned frozen s m -> safe frozen (ret m) s.
Proof. intros H. split; [apply unchanged_refl | now intros m' [= <-]]. Qed.

(** A new list of dicts that are not frozen. *)
Lemma safe_new_list frozen (l : list loc) s :
  allocated frozen s -> (forall x, In x l -> ~ frozen x) ->
  safe frozen (new_list l) s.
Proof.
  intros Halloc Hl. split.
  - split; cbn; [lia|]. intros y Hy. split; [reflexivity|].
    destruct (Nat.eqb_spec y (next s)) as [-> | _]; [|reflexivity].
    specialize (Halloc _ Hy). lia.
  - intros m [= <-]. split; cbn.
    + intros Hf. specialize (Halloc _ Hf). lia.
    + rewrite Nat.eqb_refl. exact Hl.
Qed.

Lemma safe_sort_by_in frozen m s :
  allocated frozen s -> owned frozen s m ->
  safe frozen (Mapping.sort_by_in m) s.
Proof.
  intros Halloc [_ Hx]. apply safe_new_list; [assumption|].
  intros x Hin. apply Hx. eapply in_sorted_desc. eassumption.
Qed.

Lemma safe_seq frozen {A} (c : M A) (k : A -> M loc) s :
  unchanged frozen s (snd (c s)) ->
  (forall a, fst (c s) = Ok a -> safe frozen (k a) (snd (c s))) ->
  safe frozen (bind c k) s.
Proof.
  unfold safe, bind. intros Hu Hk.
  destruct (c s) as [[a | e] t]; cbn in *.
  - destruct (Hk a eq_refl) as [Hu' Ho'].
    split; [eapply unchanged_trans; eassumption | assumption].
  - split; [assumption | discriminate].
Qed.

Lemma keeps_bind frozen m {A B} (c : M A) (k : A -> M B) s :
  keeps frozen m c s ->
  (forall a, fst (c s) = Ok a -> owned frozen (snd (c s)) m ->
             keeps frozen m (k a) (snd (c s))) ->
  keeps frozen m (bind c k) s.
Proof.
  unfold keeps, bind. intros [Hu Ho] Hk.
  destruct (c s) as [[a | e] t]; cbn in *; [|now split].
  destruct (Hk a eq_refl Ho) as [Hu' Ho'].
  split; [eapply unchanged_trans; eassumption | assumption].
Qed.

Lemma dw_keeps frozen m D {A} (c : M A) s :
  owned frozen s m -> dict_writes D c s -> (forall y, D y -> ~ frozen y) ->
  keeps frozen m c s.
Proof.
  intros Ho Hdw HD. split.
  - eapply dw_unchanged; eassumption.
  - eapply dw_owned; eassumption.
Qed.

Lemma keeps_ret frozen m {A} (a : A) s :
  owned frozen s m -> keeps frozen m (ret a) s.
Proof. intros H. split; [apply unchanged_refl | exact H]. Qed.

Lemma in_remove_first s x y l :
  In y (Mapping.remove_first s x l) -> In y l.
Proof.
  induction l as [|z l IH]; cbn [Mapping.remove_first]; [easy|].
  destruct (rule_eqb (dicts s z) x); cbn [In]; intuition.
Qed.

Lemma keeps_list_remove frozen m io s :
  owned frozen s m -> keeps frozen m (Mapping.list_remove m io) s.
Proof.
  intros [Hm Hx]. split; [split; cbn; [lia|] | split; cbn].
  - intros l Hl. split; [reflexivity|].
    destruct (Nat.eqb_spec l m) as [-> | _]; [contradiction | reflexivity].
  - assumption.
  - rewrite Nat.eqb_refl. intros x Hin. apply Hx.
    eapply in_remove_first. eassumption.
Qed.

Section Compiling.

Variables (is_letter_or_mark is_decimal_digit : char -> bool).
Variable re_compiles : pystr -> bool.

Local Abbreviation rule_to_regex :=
  (Mapping.rule_to_regex is_letter_or_mark is_decimal_digit re_compiles).
Local Abbreviation compile_loop :=
  (Mapping.compile_loop is_letter_or_mark is_decimal_digit re_compiles).
Local Abbreviation compile_all :=
  (Mapping.compile_all is_letter_or_mark is_decimal_digit re_compiles).

Lemma dw_rule_to_regex D kw r s : dict_writes D (rule_to_regex kw r) s.
Proof. unfold Mapping.rule_to_regex. dw_steps. Qed.

Lemma keeps_compile_loop frozen kw m fuel :
  forall i s, owned frozen s m ->
              keeps frozen m (compile_loop kw m fuel i) s.
Proof.
  induction fuel as [|fuel IH]; intros i s Hown; cbn [Mapping.compile_loop].
  - now apply keeps_ret.
  - apply keeps_bind; [now apply keeps_ret|].
    intros l [= <-] _. cbn [snd get_list].
    destruct (nth_error (lists s m) i) as [io|] eqn:Hio;
      [|now apply keeps_ret].
    assert (Hfree : ~ frozen io)
      by (apply Hown; eapply nth_error_In; eassumption).
    apply keeps_bind; [now apply keeps_ret|].
    intros r _ _. cbn [snd get_dict].
    apply keeps_bind.
    { apply dw_keeps with (D := fun _ => False);
        [assumption | apply dw_rule_to_regex | easy]. }
    intros p _ Hown1.
    apply keeps_bind.
    { apply dw_keeps with (D := eq io);
        [assumption | now apply dw_put_dict | now intros y <-]. }
    intros _ _ Hown2.
    apply keeps_bind.
    { destruct p; [now apply keeps_list_remove | now apply keeps_ret]. }
    intros _ _ Hown3. now apply IH.
Qed.

Lemma keeps_compile_all frozen kw m s :
  owned frozen s m -> keeps frozen m (compile_all kw m) s.
Proof.
  intros Hown. unfold Mapping.compile_all.
  apply keeps_bind; [now apply keeps_ret|].
  intros l _ _. now apply keeps_compile_loop.
Qed.

End Compiling.

Lemma unchanged_bind frozen {A B} (c : M A) (k : A -> M B) s :
  unchanged frozen s (snd (c s)) ->
  (forall a, fst (c s) = Ok a ->
             unchanged frozen (snd (c s)) (snd (k a (snd (c s))))) ->
  unchanged frozen s (snd (bind c k s)).
Proof.
  unfold bind. intros Hu Hk.
  destruct (c s) as [[a | e] t]; cbn in *; [|assumption].
  eapply unchanged_trans; [eassumption | now apply Hk].
Qed.

Section Pipeline.

Variables (is_letter_or_mark is_decimal_digit : char -> bool).
Variables (re_compiles : pystr -> bool) (lower re_escape : pystr -> pystr).
Variable normalize : pystr -> value -> result pystr.

Local Abbreviation apply_kwarg :=
  (Mapping.apply_kwarg lower re_escape normalize).
Local Abbreviation apply_kwargs :=
  (Mapping.apply_kwargs lower re_escape normalize).
Local Abbreviation process_kwargs :=
  (Mapping.process_kwargs is_letter_or_mark is_decimal_digit re_compiles
     lower re_escape normalize).

Lemma safe_escape_special frozen m s :
  allocated frozen s -> owned frozen s m ->
  safe frozen (Mapping.escape_special re_escape m) s.
Proof.
  intros Halloc Hown. unfold Mapping.escape_special.
  apply safe_seq; [apply unchanged_refl|].
  intros l [= <-]. cbn [snd get_list].
  pose proof (dw_for_each (fun y => In y (lists s m))
                (Mapping.escape_special_characters re_escape) (lists s m))
    as Hdw.
  specialize (Hdw (fun x Hx t =>
    dw_weaken (eq x) _ _ t (dw_escape_special_characters re_escape x t)
      (fun y Hy => eq_ind x _ Hx y Hy)) s).
  apply safe_seq.
  - apply (dw_unchanged _ _ _ _ Hdw). intros y Hy. now apply Hown.
  - intros _ _. apply safe_new_list.
    + eapply allocated_later; [eassumption|].
      destruct Hdw as (_ & -> & _). lia.
    + apply Hown.
Qed.

Lemma safe_apply_kwarg frozen kw m kwarg val s :
  allocated frozen s -> owned frozen s m ->
  safe frozen (apply_kwarg kw m kwarg val) s.
Proof.
  intros Halloc Hown. unfold Mapping.apply_kwarg.
  repeat match goal with
         | |- safe _ (if ?b then _ else _) _ => destruct b
         end.
  - now apply safe_sort_by_in.
  - now apply safe_escape_special.
  - apply safe_over_list; [apply dw_lower_rule | assumption].
  - apply safe_over_list; [apply dw_normalize_rule | assumption].
  - apply safe_over_list; [apply dw_reverse_rule | assumption].
  - apply safe_over_list; [apply dw_feed_rule | assumption].
  - now apply safe_ret.
Qed.

Lemma safe_apply_kwargs frozen kw items :
  forall m s, allocated frozen s -> owned frozen s m ->
              safe frozen (apply_kwargs kw items m) s.
Proof.
  induction items as [|[kwarg val] items IH]; intros m s Halloc Hown;
    cbn [Mapping.apply_kwargs].
  - now apply safe_ret.
  - pose proof (safe_apply_kwarg frozen kw m kwarg val s Halloc Hown) as Hs.
    apply safe_bind; [exact Hs|].
    intros m' _ Hown'. apply IH; [|assumption].
    eapply allocated_later; [eassumption | apply Hs].
Qed.

Lemma unchanged_process_kwargs frozen kw m s :
  allocated frozen s -> owned frozen s m ->
  unchanged frozen s (snd (process_kwargs kw m s)).
Proof.
  intros Halloc Hown. unfold Mapping.process_kwargs.
  pose proof (safe_apply_kwargs frozen (Mapping.add_defaults kw)
                (Mapping.add_defaults kw) m s Halloc Hown) as [Hu Ho].
  apply unchanged_bind; [exact Hu|].
  intros m' Hm'. apply unchanged_bind; [|intros; apply unchanged_refl].
  apply keeps_compile_all. now apply Ho.
Qed.

End Pipeline.


(** *** Deep copies *)

Lemma copy_dicts_spec (s0 : store) (l : list loc) :
  forall memo s,
    (next s0 <= next s)%nat ->
    (forall y, (y < next s0)%nat -> dicts s y = dicts s0 y) ->
    lists s = lists s0 ->
    (forall x x', Mapping.assoc_loc x memo = Some x' ->
                  (next s0 <= x' < next s)%nat /\ dicts s x' = dicts s0 x) ->
    (forall x, In x l -> (x < next s0)%nat) ->
    exists l' t,
      Mapping.copy_dicts memo l s = (Ok l', t)
      /\ map (dicts t) l' = map (dicts s0) l
      /\ (forall x', In x' l' -> (next s0 <= x' < next t)%nat)
      /\ (next s <= next t)%nat
      /\ lists t = lists s0
      /\ (forall y, (y < next s)%nat -> dicts t y = dicts s y).
Proof.
  induction l as [|x l IH]; intros memo s Hnext Hold Hlists Hmemo Hl.
  - exists [], s. cbn. repeat split; easy.
  - cbn [Mapping.copy_dicts].
    destruct (Mapping.assoc_loc x memo) as [x'|] eqn:Hx.
    + destruct (IH memo s Hnext Hold Hlists Hmemo) as
        (l' & t & Hrun & Hmap & Hfresh & Hn & Hls & Hkeep).
      { intros y Hy. apply Hl. now right. }
      destruct (Hmemo x x' Hx) as [Hx' Hdx].
      exists (x' :: l'), t. unfold bind. rewrite Hrun. cbn [ret map].
      repeat split; try assumption.
      * rewrite Hmap, Hkeep, Hdx by lia. reflexivity.
      * destruct H as [<- | H]; [lia | now apply Hfresh].
      * destruct H as [<- | H]; [lia | now apply Hfresh].
    + set (s1 := snd (new_dict (dicts s x) s)).
      assert (Hs1 : new_dict (dicts s x) s = (Ok (next s), s1)) by reflexivity.
      destruct (IH ((x, next s) :: memo) s1) as
        (l' & t & Hrun & Hmap & Hfresh & Hn & Hls & Hkeep).
      { cbn. lia. }
      { intros y Hy. cbn. destruct (Nat.eqb_spec y (next s)); [lia|].
        now apply Hold. }
      { exact Hlists. }
      { intros y y' Hy. cbn [Mapping.assoc_loc] in Hy. cbn [next dicts s1 snd new_dict].
        destruct (Nat.eqb_spec x y) as [<- | Hne].
        - injection Hy as <-. rewrite Nat.eqb_refl. split; [lia|].
          apply Hold, Hl. now left.
        - destruct (Hmemo y y' Hy) as [Hb Hd]. split; [lia|].
          destruct (Nat.eqb_spec y' (next s)); [lia | exact Hd]. }
      { intros y Hy. apply Hl. now right. }
      exists (next s :: l'), t.
      unfold bind, get_dict. cbn [fst snd]. rewrite Hs1, Hrun. cbn [ret map].
      cbn [next s1 snd new_dict] in Hn, Hkeep.
      repeat split; try assumption; try lia.
      * rewrite Hmap, Hkeep by lia. cbn [dicts s1 snd new_dict].
        rewrite Nat.eqb_refl. f_equal. apply Hold, Hl. now left.
      * destruct H as [<- | H]; [lia | now apply Hfresh].
      * destruct H as [<- | H]; [lia | now apply Hfresh].
      * intros y Hy. rewrite Hkeep by lia. cbn [dicts s1 snd new_dict].
        destruct (Nat.eqb_spec y (next s)); [lia | reflexivity].
Qed.

Lemma deepcopy_spec (c : Mapping.config) (s : store) :
  (forall m x, Mapping.mapping_data c = Some m -> In x (lists s m) ->
               (x < next s)%nat) ->
  exists c' t,
    Mapping.deepcopy c s = (Ok c', t)
    /\ deep_copy_of s t c c'
    /\ old_objects_kept s t.
Proof.
  intros Hin. unfold Mapping.deepcopy, deep_copy_of.
  destruct (Mapping.mapping_data c) as [m|] eqn:Hm.
  - destruct (copy_dicts_spec s (lists s m) [] s) as
      (l' & t1 & Hrun & Hmap & Hfresh & Hn & Hls & Hkeep);
      try easy.
    { intros x Hx. now apply (Hin m). }
    unfold bind, get_list. cbn [fst snd]. rewrite Hrun.
    eexists. eexists. split; [reflexivity|].
    cbn [Mapping.entries Mapping.abbreviations_data Mapping.mapping_data
         new_list snd fst ret next lists dicts view].
    unfold view. cbn [lists dicts]. rewrite Nat.eqb_refl.
    repeat split; cbn [next dicts lists]; try lia; try exact Hmap;
      try (apply Hfresh in H; lia).
    + now apply Hkeep.
    + destruct (Nat.eqb_spec l (next t1)); [lia|]. now rewrite Hls.
  - exists c, s. rewrite Hm. repeat split; try easy.
Qed.

Lemma search_pair_first catalog in_lang out_lang c :
  first_match (has_pair in_lang out_lang) catalog c ->
  Mapping.search_pair in_lang out_lang catalog = Some c.
Proof.
  intros (before & after & -> & Hc & Hbefore).
  induction before as [|b before IH]; cbn.
  - unfold has_pair in Hc. now rewrite Hc.
  - pose proof (Hbefore b (or_introl eq_refl)) as Hb. unfold has_pair in Hb.
    rewrite Hb. apply IH. intros b' Hb'. apply Hbefore. now right.
Qed.

Lemma search_id_first catalog map_id c :
  first_match (has_id map_id) catalog c ->
  Mapping.search_id map_id catalog = Some c.
Proof.
  intros (before & after & -> & Hc & Hbefore).
  induction before as [|b before IH]; cbn.
  - unfold has_id in Hc. now rewrite Hc.
  - pose proof (Hbefore b (or_introl eq_refl)) as Hb. unfold has_id in Hb.
    rewrite Hb. apply IH. intros b' Hb'. apply Hbefore. now right.
Qed.

Lemma first_match_in test catalog c :
  first_match test catalog c -> In c catalog.
Proof.
  intros (before & after & -> & _). apply in_or_app. right. now left.
Qed.

Lemma search_pair_in catalog in_lang out_lang c :
  Mapping.search_pair in_lang out_lang catalog = Some c -> In c catalog.
Proof.
  induction catalog as [|b catalog IH]; cbn; [easy|].
  destruct (_ && _); [intros [= ->]; now left | right; auto].
Qed.

Lemma search_id_in catalog map_id c :
  Mapping.search_id map_id catalog = Some c -> In c catalog.
Proof.
  induction catalog as [|b catalog IH]; cbn; [easy|].
  destruct (value_eqb _ _); [intros [= ->]; now left | right; auto].
Qed.

(** *** Where the rule list of a new Mapping comes from *)

Lemma old_kept_unchanged frozen s t :
  allocated frozen s -> old_objects_kept s t -> unchanged frozen s t.
Proof.
  intros Halloc [Hn Hold]. split; [assumption|].
  intros l Hl. apply Hold. now apply Halloc.
Qed.

Lemma fresh_owned frozen s t m :
  allocated frozen s -> (next s <= m)%nat ->
  (forall x, In x (lists t m) -> (next s <= x)%nat) ->
  owned frozen t m.
Proof.
  intros Halloc Hm Hx. split.
  - intros Hf. specialize (Halloc _ Hf). lia.
  - intros x Hin Hf. specialize (Halloc _ Hf). specialize (Hx _ Hin). lia.
Qed.

Lemma new_dicts_spec (rules : list rule) :
  forall s, exists l t,
    Mapping.new_dicts rules s = (Ok l, t)
    /\ (forall x, In x l -> (next s <= x < next t)%nat)
    /\ (next s <= next t)%nat
    /\ lists t = lists s
    /\ (forall y, (y < next s)%nat -> dicts t y = dicts s y).
Proof.
  induction rules as [|r rules IH]; intros s.
  - exists [], s. repeat split; easy.
  - cbn [Mapping.new_dicts]. unfold bind.
    set (s1 := snd (new_dict r s)).
    assert (Hs1 : new_dict r s = (Ok (next s), s1)) by reflexivity.
    destruct (IH s1) as (l & t & Hrun & Hfresh & Hn & Hls & Hkeep).
    rewrite Hs1, Hrun. exists (next s :: l), t.
    cbn [next s1 snd new_dict] in Hfresh, Hn, Hkeep.
    split; [reflexivity|]. split; [|split; [lia | split; [exact Hls|]]].
    + intros x [<- | Hx]; [lia|]. apply Hfresh in Hx. lia.
    + intros y Hy. rewrite Hkeep by lia. cbn [dicts s1 snd new_dict].
      destruct (Nat.eqb_spec y (next s)); [lia | reflexivity].
Qed.

Section Sources.

Variable catalog : list Mapping.config.
Variable read_mapping_config : pystr -> result Mapping.loaded.

Lemma sourced_process_loaded_config frozen kw c s :
  (forall m, Mapping.mapping_data c = Some m -> owned frozen s m) ->
  sourced frozen (Mapping.process_loaded_config kw c) s.
Proof.
  intros Hc. unfold Mapping.process_loaded_config.
  destruct (Mapping.mapping_data c) as [m|].
  - split; [apply unchanged_refl|]. intros m' a k [= <- _ _]. now apply Hc.
  - split; [apply unchanged_refl | discriminate].
Qed.

Lemma sourced_bind frozen {A} (c : M A)
    (k : A -> M (loc * option Utils.abbreviations * odict)) s :
  unchanged frozen s (snd (c s)) ->
  (forall a, fst (c s) = Ok a -> sourced frozen (k a) (snd (c s))) ->
  sourced frozen (bind c k) s.
Proof.
  unfold sourced, bind. intros Hu Hk.
  destruct (c s) as [[a | e] t]; cbn in *.
  - destruct (Hk a eq_refl) as [Hu' Ho'].
    split; [eapply unchanged_trans; eassumption | assumption].
  - split; [assumption | discriminate].
Qed.

(** A deep copy of a catalog entry is a source. *)
Lemma deepcopy_source frozen c s :
  allocated frozen s ->
  allocated (registry_object catalog s) s ->
  In c catalog ->
  unchanged frozen s (snd (Mapping.deepcopy c s))
  /\ forall c', fst (Mapping.deepcopy c s) = Ok c' ->
       forall m, Mapping.mapping_data c' = Some m ->
                 owned frozen (snd (Mapping.deepcopy c s)) m.
Proof.
  intros Halloc Hreg Hc.
  destruct (deepcopy_spec c s) as (c' & t & Hrun & Hcopy & Hold).
  { intros m x Hm Hx. apply Hreg. exists c, m. auto. }
  rewrite Hrun. cbn [fst snd]. split.
  - now apply old_kept_unchanged.
  - intros c'' [= <-] m Hm. destruct Hcopy as (_ & _ & Hdata).
    rewrite Hm in Hdata.
    destruct (Mapping.mapping_data c) as [m0|]; [|contradiction].
    destruct Hdata as (_ & Hm' & Hx).
    apply fresh_owned with (s := s); [assumption | lia |].
    intros x Hin. apply Hx in Hin. lia.
Qed.

Lemma sourced_lookup_config frozen kw s :
  allocated frozen s ->
  allocated (registry_object catalog s) s ->
  sourced frozen (Mapping.lookup_config catalog kw) s.
Proof.
  intros Halloc Hreg. unfold Mapping.lookup_config.
  assert (Hid : sourced frozen
            (match lookup "id" kw with
             | Some map_id =>
                 c <- Mapping.find_mapping_by_id catalog map_id ;;
                 match c with
                 | Some c => Mapping.process_loaded_config kw c
                 | None => raise TypeError
                 end
             | None => raise MalformedLookup
             end) s).
  { destruct (lookup "id" kw) as [map_id|];
      [|split; [apply unchanged_refl | discriminate]].
    unfold Mapping.find_mapping_by_id.
    destruct (Mapping.search_id map_id catalog) as [c|] eqn:Hs.
    - destruct (deepcopy_source frozen c s Halloc Hreg
                  (search_id_in _ _ _ Hs)) as [Hu Ho].
      apply sourced_bind.
      + apply unchanged_bind; [exact Hu | intros; apply unchanged_refl].
      + intros [c'|] Hc'; [|split; [apply unchanged_refl | discriminate]].
        apply sourced_process_loaded_config. intros m Hm.
        revert Hc' Hm. unfold bind, ret.
        destruct (Mapping.deepcopy c s) as [[c0|e] t] eqn:Hd; cbn;
          [|discriminate].
        intros [= <-] Hm. exact (Ho c0 eq_refl m Hm).
    - apply sourced_bind; [apply unchanged_refl|].
      intros c' [= <-]. split; [apply unchanged_refl | discriminate]. }
  destruct (lookup "in_lang" kw) as [in_lang|]; [|exact Hid].
  destruct (lookup "out_lang" kw) as [out_lang|]; [|exact Hid].
  unfold Mapping.find_mapping.
  destruct (Mapping.search_pair in_lang out_lang catalog) as [c|] eqn:Hs.
  - destruct (deepcopy_source frozen c s Halloc Hreg
                (search_pair_in _ _ _ _ Hs)) as [Hu Ho].
    apply sourced_bind; [exact Hu|].
    intros c' Hc'. apply sourced_process_loaded_config.
    intros m Hm. exact (Ho c' Hc' m Hm).
  - apply sourced_bind; [apply unchanged_refl | discriminate].
Qed.

Lemma sourced_load_mapping_from_path frozen kw path s :
  allocated frozen s ->
  sourced frozen
    (c <- Mapping.load_mapping_from_path read_mapping_config path ;;
     Mapping.process_loaded_config kw c) s.
Proof.
  intros Halloc. unfold Mapping.load_mapping_from_path, Mapping.lift.
  destruct (read_mapping_config path) as [c|e];
    [|split; [apply unchanged_refl | discriminate]].
  destruct (new_dicts_spec (Mapping.loaded_rules c) s)
    as (l & t & Hrun & Hfresh & Hn & Hls & Hkeep).
  assert (Hold : old_objects_kept s (snd (new_list l t))).
  { split; cbn; [lia|]. intros y Hy. split; [now apply Hkeep|].
    destruct (Nat.eqb_spec y (next t)); [lia | now rewrite Hls]. }
  apply sourced_bind.
  - unfold bind, ret. rewrite Hrun. cbn [fst snd].
    now apply old_kept_unchanged.
  - unfold bind, ret. rewrite Hrun. cbn [fst snd new_list].
    intros c' [= <-]. apply sourced_process_loaded_config.
    cbn [Mapping.mapping_data]. intros m [= <-].
    apply fresh_owned with (s := s); [assumption | lia |].
    cbn [lists]. rewrite Nat.eqb_refl. intros x Hx. apply Hfresh in Hx. lia.
Qed.

End Sources.

(** *** The whole construction *)

Lemma keeps_for_each frozen m {A} (body : A -> M unit) (l : list A) :
  (forall x s, owned frozen s m -> keeps frozen m (body x) s) ->
  forall s, owned frozen s m -> keeps frozen m (for_each body l) s.
Proof.
  intros Hbody. induction l as [|x l IH]; intros s Hown; cbn [for_each].
  - now apply keeps_ret.
  - apply keeps_bind; [now apply Hbody|]. intros _ _ Hown'. now apply IH.
Qed.

Section Init.

Variables (is_letter_or_mark is_decimal_digit : char -> bool).
Variables (re_compiles : pystr -> bool) (lower re_escape : pystr -> pystr).
Variable normalize : pystr -> value -> result pystr.
Variable catalog : list Mapping.config.
Variable re_search : pystr -> pystr -> bool.
Variable re_sub : pystr -> pystr -> pystr -> result pystr.
Variable fs : Utils.files.
Variable read_mapping_config : pystr -> result Mapping.loaded.

Local Abbreviation init :=
  (Mapping.init is_letter_or_mark is_decimal_digit re_compiles lower re_escape
     normalize catalog re_search re_sub fs read_mapping_config).

Lemma keeps_expand_abbreviation frozen m item s :
  owned frozen s m ->
  keeps frozen m
    (Mapping.expand_abbreviation re_compiles re_search re_sub m item) s.
Proof.
  intros Hown. destruct item as [abb stands_for].
  unfold Mapping.expand_abbreviation.
  destruct (re_compiles abb); [|split; [apply unchanged_refl | exact Hown]].
  apply dw_keeps with (D := fun y => In y (lists s m));
    [assumption | | apply Hown].
  apply dw_bind; [apply dw_get_list|].
  intros l [= <-]. cbn [snd get_list].
  destruct (lists s m) as [|first rest]; [apply dw_ret|].
  apply dw_bind; [apply dw_get_dict|].
  intros r _. cbn [snd get_dict].
  destruct (Mapping.has_match_pattern r); [apply dw_ret|].
  apply dw_for_each. intros x Hx t.
  apply dw_weaken with (D := eq x); [apply dw_expand_rule | now intros y <-].
Qed.

Lemma keeps_expand_abbreviations frozen m abbs s :
  owned frozen s m ->
  keeps frozen m
    (Mapping.expand_abbreviations re_compiles re_search re_sub abbs m) s.
Proof.
  intros Hown. destruct abbs as [t|]; cbn [Mapping.expand_abbreviations].
  - apply keeps_for_each; [|assumption].
    intros x s' Hs'. now apply keeps_expand_abbreviation.
  - now apply keeps_ret.
Qed.

Lemma load_abbreviations_state abbs s :
  snd (Mapping.load_abbreviations fs abbs s) = s.
Proof.
  destruct abbs as [|t|path]; cbn; try reflexivity.
  destruct (Mapping.is_empty path); [reflexivity|].
  unfold bind, Mapping.lift.
  destruct (Utils.load_abbreviations_from_file fs path); reflexivity.
Qed.

Lemma unchanged_init arg abbs kw s :
  allocated (registry_object catalog s) s ->
  own_rule_list catalog s arg ->
  unchanged (registry_object catalog s) s (snd (init arg abbs kw s)).
Proof.
  intros Halloc Hown. unfold Mapping.init.
  set (frozen := registry_object catalog s) in *.
  apply unchanged_bind;
    [rewrite load_abbreviations_state; apply unchanged_refl|].
  intros abbs0 _. rewrite load_abbreviations_state.
  assert (Hsrc : sourced frozen
            (match arg with
             | Mapping.Rule_list m =>
                 m' <- Utils.validate m ;; ret (m', abbs0, kw)
             | Mapping.Config_path path =>
                 c <- Mapping.load_mapping_from_path read_mapping_config path ;;
                 Mapping.process_loaded_config kw c
             | _ => Mapping.lookup_config catalog kw
             end) s).
  { destruct arg as [|m|path|].
    - now apply sourced_lookup_config.
    - split; [apply unchanged_refl|]. intros m' a k [= <- _ _]. exact Hown.
    - now apply sourced_load_mapping_from_path.
    - now apply sourced_lookup_config. }
  destruct Hsrc as [Hu Ho].
  apply unchanged_bind; [exact Hu|].
  intros [[m abbs1] kw1] Hcfg. specialize (Ho m abbs1 kw1 Hcfg).
  match goal with |- unchanged _ ?t1 _ => set (s1 := t1) in * end.
  destruct (keeps_expand_abbreviations frozen m abbs1 s1 Ho) as [Hu2 Ho2].
  apply unchanged_bind; [exact Hu2|].
  intros _ _. apply unchanged_bind; [|intros; apply unchanged_refl].
  apply unchanged_process_kwargs; [|exact Ho2].
  eapply allocated_later; [exact Halloc|].
  destruct Hu as [Hn _], Hu2 as [Hn2 _]. fold s1 in Hn. lia.
Qed.

End Init.

(** C9, as the code has it. In a store where the catalog's objects are
    allocated: a lookup by language pair or by id returns a deep copy of
    the first entry that matches, made of new objects, and leaves every
    object there was as it was; and a construction leaves the rule lists
    and rule dicts of the catalog as they were, unless the rule list it is
    given is an object of the catalog or holds a dict of the catalog. *)
Theorem C9_registry_is_copied_and_kept
    (is_letter_or_mark is_decimal_digit : char -> bool)
    (re_compiles : pystr -> bool) (lower re_escape : pystr -> pystr)
    (normalize : pystr -> value -> result pystr)
    (catalog : list Mapping.config)
    (re_search : pystr -> pystr -> bool)
    (re_sub : pystr -> pystr -> pystr -> result pystr)
    (fs : Utils.files) (read_mapping_config : pystr -> result Mapping.loaded)
    (s : store) :
  allocated (registry_object catalog s) s ->
  (forall in_lang out_lang c,
      first_match (has_pair in_lang out_lang) catalog c ->
      exists c' t,
        Mapping.find_mapping catalog in_lang out_lang s = (Ok c', t)
        /\ deep_copy_of s t c c' /\ old_objects_kept s t)
  /\ (forall map_id c,
        first_match (has_id map_id) catalog c ->
        exists c' t,
          Mapping.find_mapping_by_id catalog map_id s = (Ok (Some c'), t)
          /\ deep_copy_of s t c c' /\ old_objects_kept s t)
  /\ (forall arg abbs kw,
        own_rule_list catalog s arg ->
        unchanged (registry_object catalog s) s
          (snd (Mapping.init is_letter_or_mark is_decimal_digit re_compiles
                  lower re_escape normalize catalog re_search re_sub fs
                  read_mapping_config arg abbs kw s))).
Proof.
  intros Halloc.
  assert (Hcopy : forall test c, first_match test catalog c ->
            exists c' t, Mapping.deepcopy c s = (Ok c', t)
                         /\ deep_copy_of s t c c' /\ old_objects_kept s t).
  { intros test c Hc. apply deepcopy_spec.
    intros m x Hm Hx. apply Halloc. exists c, m.
    split; [eapply first_match_in; eassumption | auto]. }
  split; [|split].
  - intros in_lang out_lang c Hc. unfold Mapping.find_mapping.
    rewrite (search_pair_first _ _ _ _ Hc). eapply Hcopy. eassumption.
  - intros map_id c Hc. unfold Mapping.find_mapping_by_id.
    rewrite (search_id_first _ _ _ Hc).
    destruct (Hcopy _ c Hc) as (c' & t & Hrun & Hdeep & Hold).
    exists c', t. unfold bind. rewrite Hrun. auto.
  - intros arg abbs kw Hown. now apply unchanged_init.
Qed.

Lemma registry_store_allocated :
  allocated (registry_object [registry_entry] registry_store) registry_store.
Proof.
  intros l (c & m & [<- | []] & [= <-] & Hl). cbn in *. lia.
Qed.

Lemma C9_registry_is_copied_and_kept_witness :
  (exists c' t,
      Mapping.find_mapping [registry_entry] (VStr (str_of "hun"))
        (VStr (str_of "hun-ipa")) registry_store = (Ok c', t)
      /\ deep_copy_of registry_store t registry_entry c'
      /\ old_objects_kept registry_store t)
  /\ unchanged (registry_object [registry_entry] registry_store)
       registry_store
       (snd (sample_init [registry_entry] Mapping.No_mapping
               Mapping.No_abbreviations
               [("id", VStr (str_of "hun-to-ipa")); ("reverse", VBool true)]%string
               registry_store)).
Proof.
  destruct (C9_registry_is_copied_and_kept ascii_letter ascii_digit
              (fun _ => true) (fun t => t) (fun t => t) (fun t _ => Ok t)
              [registry_entry] (fun _ _ => false) (fun _ _ t => Ok t)
              empty_disk (fun _ => Raise FileNotFoundError) registry_store
              registry_store_allocated) as (Hpair & _ & Hinit).
  split.
  - apply Hpair. exists [], []. repeat split. intros b [].
  - apply Hinit. exact I.
Defined.

(** C9 as stated fails when the constructor is given the rule list of a
    catalog entry itself: [validate] returns the list it is given, and the
    flag pipeline and the compiling loop write to its dicts in place. With
    [reverse=True], the rule a to b of the catalog has become b to a, with
    a pattern. *)
Lemma C9_construction_on_the_catalog_list_rewrites_it :
  let t := snd (sample_init [registry_entry] (Mapping.Rule_list 2%nat)
                  Mapping.No_abbreviations [("reverse", VBool true)]%string
                  registry_store) in
  registry_object [registry_entry] registry_store 0%nat
  /\ dicts registry_store 0%nat = rule_a_b
  /\ dicts t 0%nat
     = Mapping.set_match_pattern
         (plain_rule (str_of "b") (str_of "a") [] [])
         (PCompiled (str_of "b") false)
  /\ ~ unchanged (registry_object [registry_entry] registry_store)
         registry_store t.
Proof.
  intros t.
  assert (Hobject : registry_object [registry_entry] registry_store 0%nat).
  { exists registry_entry, 2%nat. split; [now left|].
    split; [reflexivity|]. right. now left. }
  assert (Hafter : dicts t 0%nat
                   = Mapping.set_match_pattern
                       (plain_rule (str_of "b") (str_of "a") [] [])
                       (PCompiled (str_of "b") false))
    by reflexivity.
  split; [exact Hobject|]. split; [reflexivity|]. split; [exact Hafter|].
  intros [_ Hkept]. destruct (Hkept 0%nat Hobject) as [Hdict _].
  rewrite Hafter in Hdict. discriminate Hdict.
Qed.

Example construction_by_id_reverses_a_copy :
  rules_of (sample_init [registry_entry] Mapping.No_mapping
              Mapping.No_abbreviations
              [("id", VStr (str_of "hun-to-ipa")); ("reverse", VBool true)]%string
              registry_store)
  = Ok [Mapping.set_match_pattern (plain_rule (str_of "b") (str_of "a") [] [])
          (PCompiled (str_of "b") false);
        Mapping.set_match_pattern (plain_rule (str_of "d") (str_of "c") [] [])
          (PCompiled (str_of "d") false)].
Proof. reflexivity. Qed.

(** ** The compiling loop runs to its end *)

Lemma length_remove_first s x l :
  (length (Mapping.remove_first s x l) <= length l)%nat.
Proof.
  induction l as [|y l IH]; cbn [Mapping.remove_first]; [lia|].
  destruct (rule_eqb (dicts s y) x); cbn [length]; lia.
Qed.

Section Fuel.

Variables (is_letter_or_mark is_decimal_digit : char -> bool).
Variable re_compiles : pystr -> bool.

Local Abbreviation rule_to_regex :=
  (Mapping.rule_to_regex is_letter_or_mark is_decimal_digit re_compiles).
Local Abbreviation compile_loop :=
  (Mapping.compile_loop is_letter_or_mark is_decimal_digit re_compiles).

(** Once the turns left are as many as the items from the position on,
    one more turn of fuel changes nothing: the loop of [compile_all] is
    run to its end. *)
Lemma compile_loop_fuel kw m fuel :
  forall i s,
    (length (lists s m) <= i + fuel)%nat ->
    compile_loop kw m (S fuel) i s = compile_loop kw m fuel i s.
Proof.
  induction fuel as [|fuel IH]; intros i s Hlen.
  - cbn [Mapping.compile_loop]. unfold bind, get_list.
    assert (Hnone : nth_error (lists s m) i = None)
      by (apply nth_error_None; lia).
    now rewrite Hnone.
  - change (compile_loop kw m (S (S fuel)) i s)
      with ((l <- get_list m ;;
             match nth_error l i with
             | None => ret tt
             | Some io =>
                 r <- get_dict io ;;
                 p <- rule_to_regex kw r ;;
                 put_dict io (Mapping.set_match_pattern r p) ;;;
                 match p with
                 | PFalse => Mapping.list_remove m io
                 | PCompiled _ _ => ret tt
                 end ;;;
                 compile_loop kw m (S fuel) (S i)
             end) s).
    change (compile_loop kw m (S fuel) i s)
      with ((l <- get_list m ;;
             match nth_error l i with
             | None => ret tt
             | Some io =>
                 r <- get_dict io ;;
                 p <- rule_to_regex kw r ;;
                 put_dict io (Mapping.set_match_pattern r p) ;;;
                 match p with
                 | PFalse => Mapping.list_remove m io
                 | PCompiled _ _ => ret tt
                 end ;;;
                 compile_loop kw m fuel (S i)
             end) s).
    unfold bind at 1 6. unfold get_list.
    destruct (nth_error (lists s m) i) as [io|]; [|reflexivity].
    unfold bind at 1 5. unfold get_dict.
    unfold bind at 1 4.
    pose proof (dw_rule_to_regex is_letter_or_mark is_decimal_digit
                  re_compiles (fun _ => False) kw (dicts s io) s)
      as (Hlists & _ & _).
    destruct (rule_to_regex kw (dicts s io) s) as [[p|e] t1];
      [|reflexivity].
    cbn [snd] in Hlists.
    unfold bind at 1 3. unfold put_dict.
    unfold bind at 1 2.
    destruct p as [|src ic]; cbn [Mapping.list_remove ret]; apply IH;
      cbn [lists set_list set_dict].
    + rewrite Nat.eqb_refl.
      match goal with
      | |- (length (Mapping.remove_first ?a ?b ?c) <= _)%nat =>
          pose proof (length_remove_first a b c)
      end.
      rewrite Hlists in *. lia.
    + rewrite Hlists. lia.
Qed.

Lemma compile_all_any_fuel kw m extra s :
  compile_loop kw m (length (lists s m) + extra) 0 s
  = Mapping.compile_all is_letter_or_mark is_decimal_digit re_compiles kw m s.
Proof.
  induction extra as [|extra IH].
  - now rewrite Nat.add_0_r.
  - rewrite Nat.add_succ_r, compile_loop_fuel; [exact IH | lia].
Qed.

End Fuel.

(** ** Lists without null rules *)

Section Compiles.

Variables (is_letter_or_mark is_decimal_digit : char -> bool).
Variable re_compiles : pystr -> bool.
Variables (kw : odict) (case_sensitive : value).
Hypothesis Hcs : lookup "case_sensitive" kw = Some case_sensitive.

Local Abbreviation rule_to_regex :=
  (Mapping.rule_to_regex is_letter_or_mark is_decimal_digit re_compiles).
Local Abbreviation compile_loop :=
  (Mapping.compile_loop is_letter_or_mark is_decimal_digit re_compiles).
Local Abbreviation compiled :=
  (compiled is_letter_or_mark is_decimal_digit case_sensitive).
Local Abbreviation compilable :=
  (compilable is_letter_or_mark is_decimal_digit re_compiles).

Lemma rule_to_regex_compiles (r : rule) (s : store) :
  compilable r ->
  rule_to_regex kw r s
  = (Ok (PCompiled (regex_source is_letter_or_mark is_decimal_digit r)
           (negb (truthy case_sensitive))), s).
Proof.
  intros [Hin Hre]. unfold Mapping.rule_to_regex, regex_source in *.
  destruct (in_ r) as [|c i]; [congruence|].
  cbn [Mapping.is_empty]. now rewrite Hcs, Hre.
Qed.

Lemma compiled_compilable (r : rule) : compilable r -> compilable (compiled r).
Proof. intros H. exact H. Qed.

Lemma compiled_twice (r : rule) : compiled (compiled r) = compiled r.
Proof. reflexivity. Qed.

Variables (s : store) (m : loc).
Hypothesis Hall : forall x, In x (lists s m) -> compilable (dicts s x).

Lemma compile_turn (t : store) (io : loc) :
  In io (lists s m) ->
  dicts t io = dicts s io \/ dicts t io = compiled (dicts s io) ->
  rule_to_regex kw (dicts t io) t
  = (Ok (PCompiled
           (regex_source is_letter_or_mark is_decimal_digit (dicts s io))
           (negb (truthy case_sensitive))), t)
  /\ Mapping.set_match_pattern (dicts t io)
       (PCompiled
          (regex_source is_letter_or_mark is_decimal_digit (dicts s io))
          (negb (truthy case_sensitive)))
     = compiled (dicts s io).
Proof.
  intros Hin [-> | ->].
  - split; [|reflexivity]. apply rule_to_regex_compiles. now apply Hall.
  - split; [|reflexivity].
    apply (rule_to_regex_compiles (compiled (dicts s io))).
    now apply Hall.
Qed.

Lemma compile_loop_compiles (fuel : nat) :
  forall i t,
    lists t = lists s ->
    (forall x, In x (lists s m) ->
               dicts t x = dicts s x \/ dicts t x = compiled (dicts s x)) ->
    (forall k x, (k < i)%nat -> nth_error (lists s m) k = Some x ->
                 dicts t x = compiled (dicts s x)) ->
    exists t',
      compile_loop kw m fuel i t = (Ok tt, t')
      /\ lists t' = lists s /\ log t' = log t
      /\ (forall k x, (k < i + fuel)%nat ->
                      nth_error (lists s m) k = Some x ->
                      dicts t' x = compiled (dicts s x))
      /\ (forall x, ~ In x (lists s m) -> dicts t' x = dicts t x).
Proof.
  induction fuel as [|fuel IH]; intros i t Hlists Hinv Hdone.
  - exists t. repeat split; try assumption.
    intros k x Hk. apply Hdone. lia.
  - cbn [Mapping.compile_loop]. unfold bind at 1. unfold get_list.
    rewrite Hlists.
    destruct (nth_error (lists s m) i) as [io|] eqn:Hio.
    + assert (Hin : In io (lists s m)) by (eapply nth_error_In; eassumption).
      destruct (compile_turn t io Hin (Hinv io Hin)) as [Hrun Hset].
      unfold bind at 1. unfold get_dict. unfold bind at 1. rewrite Hrun.
      unfold bind at 1. unfold put_dict. unfold bind at 1. unfold ret at 1.
      rewrite Hset.
      set (t1 := set_dict t io (compiled (dicts s io))).
      assert (Ht1 : forall x, x <> io -> dicts t1 x = dicts t x).
      { intros x Hx. cbn. destruct (Nat.eqb_spec x io); [contradiction|].
        reflexivity. }
      assert (Hio1 : dicts t1 io = compiled (dicts s io))
        by (cbn; now rewrite Nat.eqb_refl).
      destruct (IH (S i) t1) as (t' & Hloop & Hl' & Hlog' & Hc' & Hout').
      * exact Hlists.
      * intros x Hx. destruct (Nat.eq_dec x io) as [-> | Hne];
          [now right | rewrite (Ht1 x Hne); now apply Hinv].
      * intros k x Hk Hx. destruct (Nat.eq_dec x io) as [-> | Hne];
          [assumption|]. rewrite (Ht1 x Hne).
        apply (Hdone k); [|assumption].
        destruct (Nat.eq_dec k i) as [-> | Hki]; [congruence | lia].
      * exists t'. repeat split; try assumption.
        -- intros k x Hk. apply Hc'. lia.
        -- intros x Hx. rewrite (Hout' x Hx). apply Ht1.
           intros ->. contradiction.
    + exists t. repeat split; try assumption.
      intros k x Hk Hx. apply (Hdone k); [|assumption].
      apply nth_error_None in Hio.
      assert (k < length (lists s m))%nat
        by (apply nth_error_Some; congruence).
      lia.
Qed.

(** A list that holds no rule with an empty [in], and whose patterns the
    regex engine takes, is compiled rule by rule: nothing is dropped,
    nothing is logged. *)
Lemma compile_all_compiles :
  exists t,
    Mapping.compile_all is_letter_or_mark is_decimal_digit re_compiles kw m s
    = (Ok tt, t)
    /\ lists t = lists s /\ log t = log s
    /\ view t m = map compiled (view s m)
    /\ (forall x, ~ In x (lists s m) -> dicts t x = dicts s x).
Proof.
  destruct (compile_loop_compiles (length (lists s m)) 0%nat s eq_refl)
    as (t & Hrun & Hlists & Hlog & Hc & Hout).
  { intros x _. now left. }
  { intros k x Hk. lia. }
  exists t. repeat split; try assumption.
  unfold view. rewrite Hlists, map_map.
  apply nth_error_ext. intros k. rewrite !nth_error_map.
  destruct (nth_error (lists s m) k) as [x|] eqn:Hx; [|reflexivity].
  cbn. f_equal. apply (Hc k); [|assumption].
  apply nth_error_Some. congruence.
Qed.

End Compiles.


(** ** Validating records *)

Lemma forallb_has_in_default (mapping : list Utils.raw_rule) :
  forallb Utils.has_in (map Utils.default_contexts mapping)
  = forallb Utils.has_in mapping.
Proof. induction mapping as [|d m IH]; cbn; [reflexivity | now rewrite IH]. Qed.

Lemma forallb_has_out_default (mapping : list Utils.raw_rule) :
  forallb Utils.has_out (map Utils.default_contexts mapping)
  = forallb Utils.has_out mapping.
Proof. induction mapping as [|d m IH]; cbn; [reflexivity | now rewrite IH]. Qed.

Lemma has_in_and_out_bool (d : Utils.raw_rule) :
  has_in_and_out d <-> Utils.has_in d = true /\ Utils.has_out d = true.
Proof.
  unfold has_in_and_out, Utils.has_in, Utils.has_out.
  destruct (Utils.raw_in d), (Utils.raw_out d); split; intros [H1 H2];
    split; congruence.
Qed.

(** X1. [validate] accepts a list of records exactly when every record
    has the keys ['in'] and ['out'], and otherwise raises
    [MalformedMapping]; either way it has given every record both context
    keys, and it has left the records' number, their ['in'] and their
    ['out'] as they were. *)
Theorem validate_accepts_records_with_in_and_out
    (mapping : list Utils.raw_rule) :
  let after := fst (Utils.validate_records mapping) in
  let outcome := snd (Utils.validate_records mapping) in
  (outcome = Ok tt <-> Forall has_in_and_out mapping)
  /\ (outcome <> Ok tt -> outcome = Raise MalformedMapping)
  /\ Forall has_contexts after
  /\ map Utils.raw_in after = map Utils.raw_in mapping
  /\ map Utils.raw_out after = map Utils.raw_out mapping.
Proof.
  cbn [fst snd Utils.validate_records].
  rewrite forallb_has_in_default, forallb_has_out_default.
  split; [|split; [|split; [|split]]].
  - destruct (forallb Utils.has_in mapping && forallb Utils.has_out mapping)
      eqn:Hb.
    + split; [intros _|reflexivity].
      apply andb_prop in Hb as [Hi Ho].
      rewrite forallb_forall in Hi, Ho. apply Forall_forall.
      intros d Hd. apply has_in_and_out_bool. auto.
    + split; [discriminate|]. intros Hall. exfalso.
      assert (forallb Utils.has_in mapping && forallb Utils.has_out mapping
              = true); [|congruence].
      apply andb_true_intro. split; apply forallb_forall; intros d Hd;
        rewrite Forall_forall in Hall;
        now apply has_in_and_out_bool, Hall.
  - destruct (forallb Utils.has_in mapping && forallb Utils.has_out mapping);
      [congruence | reflexivity].
  - apply Forall_map, Forall_forall. intros d _. unfold has_contexts.
    cbn. destruct (Utils.raw_context_before d), (Utils.raw_context_after d);
      split; discriminate.
  - rewrite map_map. reflexivity.
  - rewrite map_map. reflexivity.
Qed.

Lemma default_contexts_twice (d : Utils.raw_rule) :
  Utils.default_contexts (Utils.default_contexts d) = Utils.default_contexts d.
Proof.
  unfold Utils.default_contexts. cbn.
  destruct (Utils.raw_context_before d), (Utils.raw_context_after d);
    reflexivity.
Qed.

(** X2. Validating twice is validating once; and a list of records that
    have all four keys, as every loader of rule tables builds them, is
    accepted and comes back as it is. *)
Theorem validate_again_changes_nothing
    (mapping : list Utils.raw_rule) (rules : list rule) :
  Utils.validate_records (fst (Utils.validate_records mapping))
  = Utils.validate_records mapping
  /\ Utils.validate_records (map Utils.record_of rules)
     = (map Utils.record_of rules, Ok tt).
Proof.
  split.
  - unfold Utils.validate_records. cbn [fst].
    rewrite !forallb_has_in_default, !forallb_has_out_default.
    f_equal. rewrite map_map. apply map_ext. apply default_contexts_twice.
  - unfold Utils.validate_records.
    rewrite forallb_has_in_default, forallb_has_out_default.
    replace (map Utils.default_contexts (map Utils.record_of rules))
      with (map Utils.record_of rules)
      by (rewrite map_map; apply map_ext; reflexivity).
    replace (forallb Utils.has_in (map Utils.record_of rules)) with true
      by (symmetry; apply forallb_forall; intros d Hd;
          apply in_map_iff in Hd as (r & <- & _); reflexivity).
    replace (forallb Utils.has_out (map Utils.record_of rules)) with true
      by (symmetry; apply forallb_forall; intros d Hd;
          apply in_map_iff in Hd as (r & <- & _); reflexivity).
    reflexivity.
Qed.


(** ** Abbreviation tables *)

Lemma flatten_from_empty_row (data : list (list pystr)) :
  In [] data -> forall d, Utils.flatten_from d data = Raise IndexError.
Proof.
  induction data as [|row data IH]; intros Hin d; [destruct Hin|].
  destruct row as [|key cols]; [reflexivity|].
  destruct Hin as [Hin | Hin]; [discriminate|].
  cbn [Utils.flatten_from]. destruct (Utils.nonempty key); now apply IH.
Qed.

Lemma flatten_from_rows (data : list (list pystr)) :
  ~ In [] data -> forall d, exists d', Utils.flatten_from d data = Ok d'.
Proof.
  induction data as [|row data IH]; intros Hin d; [now exists d|].
  destruct row as [|key cols]; [exfalso; apply Hin; now left|].
  cbn [Utils.flatten_from].
  assert (Hdata : ~ In [] data) by (intros H; apply Hin; now right).
  destruct (Utils.nonempty key); now apply IH.
Qed.

(** X3. [flatten_abbreviations] reads the first cell of every row, so it
    raises [IndexError] exactly when some row has no cell at all, as the
    row of a blank line has; on every other table it returns a dict. *)
Theorem flatten_raises_on_an_empty_row (data : list (list pystr)) :
  (In [] data <-> Utils.flatten_abbreviations data = Raise IndexError)
  /\ (~ In [] data <-> exists d, Utils.flatten_abbreviations data = Ok d).
Proof.
  unfold Utils.flatten_abbreviations.
  assert (Hdec : In [] data \/ ~ In [] data).
  { induction data as [|row data IH]; [now right|].
    destruct row; [left; now left|].
    destruct IH as [H | H]; [left; now right|].
    right. intros [H' | H']; [discriminate | contradiction]. }
  split; split.
  - intros H. now apply flatten_from_empty_row.
  - intros H. destruct Hdec as [Hin | Hout]; [assumption|].
    destruct (flatten_from_rows data Hout []) as [d Hd]. congruence.
  - intros H. now apply flatten_from_rows.
  - intros [d Hd] Hin.
    rewrite (flatten_from_empty_row data Hin) in Hd. discriminate.
Qed.

Lemma stands_for_extend_same key more d :
  stands_for key (Utils.extend key more d)
  = Some (match stands_for key d with Some v => v | None => [] end ++ more).
Proof.
  induction d as [|[k v] d IH]; cbn.
  - now rewrite pystr_eqb_refl.
  - destruct (pystr_eqb k key) eqn:Hk; cbn; rewrite Hk; [reflexivity|].
    exact IH.
Qed.

Lemma stands_for_extend_other key key' more d :
  key' <> key ->
  stands_for key (Utils.extend key' more d) = stands_for key d.
Proof.
  intros Hne. induction d as [|[k v] d IH]; cbn.
  - rewrite pystr_eqb_neq; [reflexivity | assumption].
  - destruct (pystr_eqb k key') eqn:Hk; cbn.
    + apply pystr_eqb_eq in Hk. subst k.
      now rewrite (pystr_eqb_neq key' key Hne).
    + now rewrite IH.
Qed.

Lemma flatten_from_stands_for (data : list (list pystr)) :
  forall d d' key,
    key <> [] ->
    Utils.flatten_from d data = Ok d' ->
    stands_for key d'
    = match stands_for key d with
      | Some v => Some (v ++ expansions_of key data)
      | None => if existsb (fun row => match row with
                                       | k :: _ => pystr_eqb k key
                                       | [] => false
                                       end) data
                then Some (expansions_of key data) else None
      end.
Proof.
  induction data as [|row data IH]; intros d d' key Hkey Hrun.
  - injection Hrun as <-. cbn. rewrite ?app_nil_r.
    destruct (stands_for key d); [now rewrite app_nil_r | reflexivity].
  - destruct row as [|k cols]; [discriminate|].
    cbn [Utils.flatten_from] in Hrun. cbn [expansions_of existsb].
    destruct (Utils.nonempty k) eqn:Hk.
    + rewrite (IH _ _ key Hkey Hrun).
      destruct (pystr_eqb k key) eqn:Hkk.
      * apply pystr_eqb_eq in Hkk. subst k.
        rewrite stands_for_extend_same. cbn [orb].
        destruct (stands_for key d); cbn [app]; now rewrite <- ?app_assoc.
      * rewrite stands_for_extend_other
          by (intros ->; now rewrite pystr_eqb_refl in Hkk).
        reflexivity.
    + assert (k = []) as -> by (destruct k; [reflexivity | discriminate]).
      rewrite (pystr_eqb_neq [] key) by congruence. cbn [orb].
      now apply IH.
Qed.

(** X4. Rows with the same token add up: in the dict
    [flatten_abbreviations] returns, a non-empty token that starts some
    row stands for the non-empty cells of all its rows, in the order of
    the rows; a token that starts no row is not in the dict. *)
Theorem flatten_accumulates_rows
    (data : list (list pystr)) (d : Utils.abbreviations) (key : pystr) :
  key <> [] ->
  Utils.flatten_abbreviations data = Ok d ->
  (names key data -> stands_for key d = Some (expansions_of key data))
  /\ (~ names key data -> stands_for key d = None).
Proof.
  intros Hkey Hrun. unfold Utils.flatten_abbreviations in Hrun.
  rewrite (flatten_from_stands_for data [] d key Hkey Hrun). cbn [stands_for].
  assert (Hnames : names key data
                   <-> existsb (fun row => match row with
                                           | k :: _ => pystr_eqb k key
                                           | [] => false
                                           end) data = true).
  { unfold names. rewrite existsb_exists. split.
    - intros [cols Hin]. exists (key :: cols). split; [assumption|].
      apply pystr_eqb_refl.
    - intros ([|k cols] & Hin & Hk); [discriminate|].
      apply pystr_eqb_eq in Hk. subst k. now exists cols. }
  split; intros H.
  - apply Hnames in H. now rewrite H.
  - destruct (existsb _ data) eqn:E; [|reflexivity].
    exfalso. apply H, Hnames. reflexivity.
Qed.

Example flatten_sample_rows :
  Utils.flatten_abbreviations
    [[str_of "V"; str_of "a"; str_of "b"]; [str_of "C"; str_of "t"];
     [str_of "V"; []; str_of "e"]]
  = Ok [(str_of "V", [str_of "a"; str_of "b"; str_of "e"]);
        (str_of "C", [str_of "t"])].
Proof. reflexivity. Qed.

Lemma flatten_accumulates_rows_witness :
  stands_for (str_of "V")
    [(str_of "V", [str_of "a"; str_of "b"; str_of "e"]);
     (str_of "C", [str_of "t"])]
  = Some [str_of "a"; str_of "b"; str_of "e"].
Proof.
  apply (proj1 (flatten_accumulates_rows
                  [[str_of "V"; str_of "a"; str_of "b"];
                   [str_of "C"; str_of "t"];
                   [str_of "V"; []; str_of "e"]]
                  _ (str_of "V") ltac:(discriminate) eq_refl)).
  exists [str_of "a"; str_of "b"]. now left.
Defined.

Lemma extend_keys key more d :
  map fst (Utils.extend key more d)
  = if existsb (fun k => pystr_eqb k key) (map fst d)
    then map fst d else map fst d ++ [key].
Proof.
  induction d as [|[k v] d IH]; cbn; [reflexivity|].
  destruct (pystr_eqb k key); cbn; [reflexivity|].
  rewrite IH. now destruct (existsb _ (map fst d)).
Qed.

Lemma extend_in key more d kv :
  In kv (Utils.extend key more d) ->
  (exists v, In (key, v) d /\ kv = (key, v ++ more))
  \/ In kv d \/ kv = (key, more).
Proof.
  induction d as [|[k v] d IH]; cbn.
  - intros [<- | []]. right. now right.
  - destruct (pystr_eqb k key) eqn:Hk; cbn.
    + apply pystr_eqb_eq in Hk. subst k.
      intros [<- | H]; [left; exists v; auto | right; left; now right].
    + intros [<- | H]; [right; left; now left|].
      destruct (IH H) as [(v' & Hin & ->) | [Hin | ->]].
      * left. exists v'. auto.
      * right. left. now right.
      * right. now right.
Qed.

Lemma flat_table_extend key more d :
  key <> [] -> Forall (fun v => v <> []) more ->
  flat_table d -> flat_table (Utils.extend key more d).
Proof.
  intros Hkey Hmore [Hnodup Hall]. split.
  - rewrite extend_keys.
    destruct (existsb (fun k => pystr_eqb k key) (map fst d)) eqn:E;
      [assumption|].
    apply NoDup_app; [assumption | repeat constructor; easy |].
    intros k Hk [Heq | []]. subst k.
    assert (existsb (fun k' => pystr_eqb k' key) (map fst d) = true);
      [|congruence].
    apply existsb_exists. exists key. split; [assumption|].
    apply pystr_eqb_refl.
  - apply Forall_forall. intros kv Hkv. rewrite Forall_forall in Hall.
    destruct (extend_in _ _ _ _ Hkv) as [(v & Hin & ->) | [Hin | ->]].
    + destruct (Hall _ Hin) as [_ Hv]. split; [assumption|].
      apply Forall_app. split; assumption.
    + now apply Hall.
    + split; assumption.
Qed.

Lemma filter_nonempty_cells (cols : list pystr) :
  Forall (fun v => v <> []) (filter Utils.nonempty cols).
Proof.
  apply Forall_forall. intros v Hv. apply filter_In in Hv as [_ Hv].
  destruct v; [discriminate | congruence].
Qed.

Lemma flatten_from_flat (data : list (list pystr)) :
  forall d d', flat_table d -> Utils.flatten_from d data = Ok d' ->
               flat_table d'.
Proof.
  induction data as [|row data IH]; intros d d' Hd Hrun.
  - now injection Hrun as <-.
  - destruct row as [|key cols]; [discriminate|].
    cbn [Utils.flatten_from] in Hrun.
    destruct (Utils.nonempty key) eqn:Hkey; [|now apply (IH d)].
    apply (IH _ _ (flat_table_extend key _ d
                     ltac:(destruct key; [discriminate | congruence])
                     (filter_nonempty_cells cols) Hd) Hrun).
Qed.

(** X5. What [flatten_abbreviations] returns holds no token twice, no
    empty token and no empty expansion. *)
Theorem flatten_gives_a_flat_table
    (data : list (list pystr)) (d : Utils.abbreviations) :
  Utils.flatten_abbreviations data = Ok d -> flat_table d.
Proof.
  apply flatten_from_flat. split; constructor.
Qed.

Lemma flatten_gives_a_flat_table_witness :
  flat_table [(str_of "V", [str_of "a"; str_of "b"; str_of "e"]);
              (str_of "C", [str_of "t"])].
Proof.
  apply (flatten_gives_a_flat_table
           [[str_of "V"; str_of "a"; str_of "b"]; [str_of "C"; str_of "t"];
            [str_of "V"; []; str_of "e"]]).
  reflexivity.
Defined.

Lemma extend_new key more d :
  ~ In key (map fst d) -> Utils.extend key more d = d ++ [(key, more)].
Proof.
  induction d as [|[k v] d IH]; cbn; intros Hk; [reflexivity|].
  rewrite pystr_eqb_neq by (intros ->; apply Hk; now left).
  rewrite IH; [reflexivity|]. intros H. apply Hk. now right.
Qed.

Lemma filter_nonempty_same (v : list pystr) :
  Forall (fun x => x <> []) v -> filter Utils.nonempty v = v.
Proof.
  induction 1 as [|x v Hx _ IH]; [reflexivity|].
  cbn. rewrite IH. destruct x; [congruence | reflexivity].
Qed.

Lemma flatten_from_lines (d : Utils.abbreviations) :
  forall acc,
    flat_table (acc ++ d) ->
    Utils.flatten_from acc (map (fun kv => fst kv :: snd kv) d)
    = Ok (acc ++ d).
Proof.
  induction d as [|[k v] d IH]; intros acc Hflat; cbn [map].
  - now rewrite app_nil_r.
  - cbn [fst snd Utils.flatten_from].
    destruct Hflat as [Hnodup Hall].
    assert (Hkv : k <> [] /\ Forall (fun x => x <> []) v).
    { rewrite Forall_forall in Hall. apply (Hall (k, v)).
      apply in_or_app. right. now left. }
    destruct Hkv as [Hk Hv].
    replace (Utils.nonempty k) with true
      by (destruct k; [congruence | reflexivity]).
    rewrite filter_nonempty_same by assumption.
    rewrite extend_new.
    + rewrite IH; [now rewrite <- app_assoc|].
      rewrite <- app_assoc. now split.
    + rewrite map_app in Hnodup. cbn [map fst] in Hnodup.
      apply NoDup_remove_2 in Hnodup. intros H. apply Hnodup.
      apply in_or_app. now left.
Qed.

(** X6. A table as [flatten_abbreviations] builds them survives the way
    through [expand_abbreviations] and back: the rows it expands to
    flatten to the table itself. The empty table expands to ten rows of
    six empty cells, which flatten to the empty table. *)
Theorem expand_then_flatten (d : Utils.abbreviations) :
  flat_table d ->
  Utils.flatten_abbreviations (Utils.expand_abbreviations d) = Ok d.
Proof.
  intros Hflat. unfold Utils.expand_abbreviations.
  destruct d as [|kv d]; [reflexivity|].
  apply (flatten_from_lines (kv :: d) [] Hflat).
Qed.

Lemma expand_then_flatten_witness :
  Utils.flatten_abbreviations
    (Utils.expand_abbreviations
       [(str_of "V", [str_of "a"; str_of "b"]); (str_of "C", [])])
  = Ok [(str_of "V", [str_of "a"; str_of "b"]); (str_of "C", [])].
Proof.
  apply expand_then_flatten. split.
  - repeat constructor; cbn; intuition discriminate.
  - repeat constructor; discriminate.
Defined.


(** ** Escapes and contexts *)

Section Texts.

Variable is_letter_or_mark : char -> bool.

Lemma unicode_escape_from_plain (text : pystr) :
  ~ In Mapping.backslash text ->
  Mapping.unicode_escape_from 0 text = Ok text.
Proof.
  induction text as [|c text IH]; intros Hin; [reflexivity|].
  cbn [Mapping.unicode_escape_from].
  destruct (Z.eqb_spec c Mapping.backslash) as [-> | _].
  - exfalso. apply Hin. now left.
  - rewrite IH; [reflexivity|]. intros H. apply Hin. now right.
Qed.

(** X7. [unicode_escape] returns a text without a backslash as it is, and
    raises nothing on it. *)
Theorem unicode_escape_keeps_plain_text (text : pystr) :
  ~ In Mapping.backslash text -> Mapping.unicode_escape text = Ok text.
Proof. apply unicode_escape_from_plain. Qed.

Lemma sub_runs_outside (s : pystr) :
  forallb (fun c => negb (Utils.in_class is_letter_or_mark c)) s = true ->
  Utils.sub_runs is_letter_or_mark [] s = s.
Proof.
  induction s as [|c s IH]; cbn [forallb Utils.sub_runs]; [reflexivity|].
  intros H. apply andb_prop in H as [Hc Hs]. apply negb_true_iff in Hc.
  rewrite Hc. cbn [Utils.flush app]. now rewrite IH.
Qed.

Lemma sub_runs_inside (w run : pystr) :
  forallb (Utils.in_class is_letter_or_mark) w = true ->
  Utils.sub_runs is_letter_or_mark run w = Utils.flush (run ++ w).
Proof.
  revert run. induction w as [|c w IH]; intros run H;
    cbn [forallb Utils.sub_runs].
  - now rewrite app_nil_r.
  - cbn [forallb] in H. apply andb_prop in H as [Hc Hw]. rewrite Hc.
    rewrite IH by assumption. now rewrite <- app_assoc.
Qed.

Lemma split_acc_no_sep (sep : char) (w piece : pystr) :
  ~ In sep w -> split_acc sep piece w = [piece ++ w].
Proof.
  revert piece. induction w as [|c w IH]; intros piece Hin; cbn.
  - now rewrite app_nil_r.
  - destruct (Z.eqb_spec c sep) as [-> | _]; [exfalso; apply Hin; now left|].
    rewrite IH by (intros H; apply Hin; now right).
    now rewrite <- app_assoc.
Qed.

(** X8. [create_fixed_width_lookbehind] leaves a context without letters,
    marks and bars as it is, the empty context among them; and it turns a
    context that is one word of letters and marks into one lookbehind on
    that word, in a group. *)
Theorem lookbehind_of_simple_contexts (pattern word : pystr) :
  (forallb (fun c => negb (Utils.in_class is_letter_or_mark c)) pattern = true
   -> Utils.create_fixed_width_lookbehind is_letter_or_mark pattern = pattern)
  /\ (word <> [] -> forallb is_letter_or_mark word = true ->
      ~ In Utils.bar word ->
      Utils.create_fixed_width_lookbehind is_letter_or_mark word
      = str_of "((?<=" ++ word ++ str_of "))").
Proof.
  split.
  - apply sub_runs_outside.
  - intros Hne Hword Hbar. unfold Utils.create_fixed_width_lookbehind.
    rewrite sub_runs_inside.
    + cbn [app]. destruct word as [|c w]; [congruence|].
      cbn [Utils.flush]. unfold Utils.pattern_to_fixed_width_lookbehinds.
      unfold split. rewrite split_acc_no_sep by assumption.
      cbn [app sorted_desc insert_desc].
      change (Utils.lb_loop [c :: w]) with
        (Utils.all_lookbehinds
           (Utils.close_if_last [c :: w] (c :: w)
              (Utils.add_item
                 {| Utils.current_len := length (c :: w);
                    Utils.all_lookbehinds := [];
                    Utils.current_list := [] |} (c :: w)))).
      rewrite add_item_same by reflexivity.
      unfold Utils.close_if_last, index. cbn [index_from].
      rewrite pystr_eqb_refl. cbn.
      unfold Utils.lookbehind. cbn [join].
      rewrite <- !app_assoc. reflexivity.
    + rewrite forallb_forall in *. intros c Hc. unfold Utils.in_class.
      now rewrite (Hword c Hc).
Qed.

End Texts.

Lemma unicode_escape_keeps_plain_text_witness :
  Mapping.unicode_escape (str_of "a|b") = Ok (str_of "a|b").
Proof.
  apply unicode_escape_keeps_plain_text.
  intros [H | [H | [H | []]]]; discriminate.
Defined.

Lemma lookbehind_of_simple_contexts_witness :
  Utils.create_fixed_width_lookbehind ascii_letter (str_of "^") = str_of "^"
  /\ Utils.create_fixed_width_lookbehind ascii_letter (str_of "sz")
     = str_of "((?<=sz))".
Proof.
  split.
  - apply (proj1 (lookbehind_of_simple_contexts ascii_letter (str_of "^") [])).
    reflexivity.
  - apply (proj2 (lookbehind_of_simple_contexts ascii_letter [] (str_of "sz"))).
    + discriminate.
    + reflexivity.
    + intros [H | [H | []]]; discriminate.
Defined.


(** ** Rules the regex engine refuses *)

Section Refused.

Variables (is_letter_or_mark is_decimal_digit : char -> bool).
Variable re_compiles : pystr -> bool.

Local Abbreviation rule_to_regex :=
  (Mapping.rule_to_regex is_letter_or_mark is_decimal_digit re_compiles).

(** X9. When the regex engine refuses the pattern of a rule with a
    non-empty [in], [rule_to_regex] builds its error message from
    [self.kwargs["in_lang"]] and [self.kwargs["out_lang"]]: with both keys
    it logs the pattern and raises the malformed-rule error; without
    [in_lang], as in a Mapping built from a bare rule list, it raises
    [KeyError] and logs nothing. *)
Theorem refused_pattern_needs_language_names
    (kw : odict) (case_sensitive : value) (r : rule) (s : store) :
  in_ r <> [] ->
  lookup "case_sensitive" kw = Some case_sensitive ->
  re_compiles (regex_source is_letter_or_mark is_decimal_digit r) = false ->
  (has_key "in_lang" kw = true -> has_key "out_lang" kw = true ->
   fst (rule_to_regex kw r s) = Raise MalformedRegex
   /\ log (snd (rule_to_regex kw r s))
      = log s ++ [Error_malformed_regex
                    (regex_source is_letter_or_mark is_decimal_digit r)
                    (context_before r) (context_after r)])
  /\ (has_key "in_lang" kw = false ->
      rule_to_regex kw r s = (Raise (KeyError "in_lang"), s))
  /\ (has_key "in_lang" kw = true -> has_key "out_lang" kw = false ->
      rule_to_regex kw r s = (Raise (KeyError "out_lang"), s)).
Proof.
  intros Hin Hcs Hre. unfold Mapping.rule_to_regex, regex_source in *.
  destruct (in_ r) as [|c i]; [congruence|].
  cbn [Mapping.is_empty]. rewrite Hcs, Hre.
  split; [|split].
  - intros -> ->. split; reflexivity.
  - intros ->. reflexivity.
  - intros -> ->. reflexivity.
Qed.

End Refused.

Lemma refused_pattern_needs_language_names_witness :
  Mapping.rule_to_regex ascii_letter ascii_digit (fun _ => false)
    [("case_sensitive", VBool true)]%string (plain_rule (str_of "(") [] [] [])
    empty_store
  = (Raise (KeyError "in_lang"), empty_store).
Proof.
  apply (refused_pattern_needs_language_names ascii_letter ascii_digit
           (fun _ => false) [("case_sensitive", VBool true)]%string
           (VBool true) (plain_rule (str_of "(") [] [] []) empty_store);
    try reflexivity.
  discriminate.
Defined.


(** ** Construction by an unknown id *)

Section Unknown_id.

Variables (is_letter_or_mark is_decimal_digit : char -> bool).
Variables (re_compiles : pystr -> bool) (lower re_escape : pystr -> pystr).
Variable normalize : pystr -> value -> result pystr.
Variable MAPPINGS_AVAILABLE : list Mapping.config.
Variable re_search : pystr -> pystr -> bool.
Variable re_sub : pystr -> pystr -> pystr -> result pystr.
Variable fs : Utils.files.
Variable read_mapping_config : pystr -> result Mapping.loaded.

Local Abbreviation init :=
  (Mapping.init is_letter_or_mark is_decimal_digit re_compiles lower re_escape
     normalize MAPPINGS_AVAILABLE re_search re_sub fs read_mapping_config).

(** X10. A construction that has neither a rule list nor a path, does
    not name both languages and gives an id that no catalog entry has,
    fails: [find_mapping_by_id] returns [None], and
    [process_loaded_config] subscripts it, which raises [TypeError]. The
    store is left as it was. *)
Theorem construction_by_unknown_id
    (arg : Mapping.mapping_argument) (abbs : Mapping.abbreviations_argument)
    (kw : odict) (map_id : value) (s : store) :
  neither_list_nor_path arg ->
  abbreviations_load fs abbs ->
  no_language_pair kw ->
  lookup "id" kw = Some map_id ->
  no_entry_with_id MAPPINGS_AVAILABLE map_id ->
  init arg abbs kw s = (Raise TypeError, s).
Proof.
  intros Harg Habbs Hpair Hid Hnone.
  destruct (load_abbreviations_ok fs abbs s Habbs) as [t Ht].
  unfold Mapping.init, bind. rewrite Ht.
  assert (Hlookup : Mapping.lookup_config MAPPINGS_AVAILABLE kw s
                    = (Raise TypeError, s)).
  { unfold Mapping.lookup_config, bind, Mapping.find_mapping_by_id.
    rewrite Hid, (search_id_none _ _ Hnone).
    destruct Hpair as [-> | ->]; [reflexivity|].
    destruct (lookup "in_lang" kw); reflexivity. }
  destruct Harg as [-> | ->]; now rewrite Hlookup.
Qed.

End Unknown_id.

Lemma construction_by_unknown_id_witness :
  sample_init [sample_entry] Mapping.No_mapping Mapping.No_abbreviations
    [("id", VStr (str_of "fra-to-ipa"))]%string empty_store
  = (Raise TypeError, empty_store).
Proof.
  apply construction_by_unknown_id with (map_id := VStr (str_of "fra-to-ipa")).
  - now left.
  - exact I.
  - now left.
  - reflexivity.
  - intros c [<- | []]. reflexivity.
Defined.


(** ** Keyword arguments: defaults and overrides *)

Lemma lookup_assign (k k' : string) (v : value) (d : odict) :
  lookup k (assign k' v d) = if String.eqb k' k then Some v else lookup k d.
Proof.
  induction d as [|[k0 v0] d IH]; cbn.
  - reflexivity.
  - destruct (String.eqb k0 k') eqn:E0; cbn.
    + apply String.eqb_eq in E0. subst k0.
      destruct (String.eqb k' k); reflexivity.
    + rewrite IH. destruct (String.eqb k0 k) eqn:E1; [|reflexivity].
      apply String.eqb_eq in E1. subst k0.
      rewrite String.eqb_sym in E0. now rewrite E0.
Qed.

Lemma lookup_not_key (k : string) (d : odict) :
  is_key_of d k = false -> lookup k d = None.
Proof.
  unfold is_key_of. induction d as [|[k0 v0] d IH]; cbn; [reflexivity|].
  intros H. apply orb_false_elim in H as [H0 H].
  rewrite String.eqb_sym, H0. now apply IH.
Qed.

Lemma lookup_merge (k : string) (b : odict) :
  NoDup (map fst b) ->
  forall a, lookup k (merge a b)
            = match lookup k b with Some v => Some v | None => lookup k a end.
Proof.
  unfold merge. induction b as [|[k0 v0] b IH]; intros Hb a; [reflexivity|].
  inversion Hb as [|? ? Hk0 Hb']; subst. cbn [fold_left fst snd lookup].
  rewrite IH by assumption. rewrite lookup_assign.
  destruct (String.eqb k0 k) eqn:E; [|reflexivity].
  apply String.eqb_eq in E. subst k0.
  rewrite lookup_not_key; [reflexivity|].
  unfold is_key_of. destruct (existsb (String.eqb k) (map fst b)) eqn:Ex;
    [|reflexivity].
  apply existsb_exists in Ex as (k' & Hin & Hk').
  apply String.eqb_eq in Hk'. subst k'. contradiction.
Qed.

Lemma keys_assign (k : string) (v : value) (d : odict) :
  map fst (assign k v d)
  = if is_key_of d k then map fst d else map fst d ++ [k].
Proof.
  unfold is_key_of. induction d as [|[k0 v0] d IH]; cbn; [reflexivity|].
  destruct (String.eqb k0 k) eqn:E; cbn.
  - apply String.eqb_eq in E. subst k0. now rewrite String.eqb_refl.
  - rewrite String.eqb_sym, E. cbn. rewrite IH.
    now destruct (existsb (String.eqb k) (map fst d)).
Qed.

Lemma is_key_of_app (a b : odict) (k : string) :
  is_key_of (a ++ b) k = is_key_of a k || is_key_of b k.
Proof. unfold is_key_of. now rewrite map_app, existsb_app. Qed.

Lemma keys_merge (b : odict) :
  NoDup (map fst b) ->
  forall a, map fst (merge a b)
            = map fst a
              ++ filter (fun k => negb (is_key_of a k)) (map fst b).
Proof.
  unfold merge. induction b as [|[k0 v0] b IH]; intros Hb a;
    cbn [fold_left map fst snd filter]; [now rewrite app_nil_r|].
  inversion Hb as [|? ? Hk0 Hb']; subst.
  rewrite IH by assumption. rewrite keys_assign.
  destruct (is_key_of a k0) eqn:Ea; cbn [negb].
  - f_equal. apply filter_ext_in. intros k Hk. f_equal.
    unfold is_key_of. now rewrite keys_assign, Ea.
  - rewrite <- app_assoc. cbn [app]. f_equal. f_equal.
    apply filter_ext_in. intros k Hk. f_equal.
    unfold is_key_of. rewrite keys_assign, Ea, existsb_app. cbn.
    fold (is_key_of a k). rewrite orb_false_r.
    destruct (String.eqb k k0) eqn:E; [|now rewrite orb_false_r].
    apply String.eqb_eq in E. subst k. contradiction.
Qed.

Lemma lookup_filter_allowable (k : string) (d : odict) :
  lookup k (filter Mapping.allowable d)
  = if allowable_key k then lookup k d else None.
Proof.
  induction d as [|[k0 v0] d IH]; cbn [filter lookup].
  - now destruct (allowable_key k).
  - unfold Mapping.allowable at 1. cbn [fst].
    destruct (String.eqb k0 k) eqn:E.
    + apply String.eqb_eq in E. subst k0. unfold allowable_key.
      destruct (existsb (String.eqb k) Mapping.allowable_kwargs) eqn:Ea.
      * cbn [lookup]. now rewrite String.eqb_refl.
      * rewrite IH. unfold allowable_key. now rewrite Ea.
    + destruct (existsb (String.eqb k0) Mapping.allowable_kwargs);
        [cbn [lookup]; now rewrite E | exact IH].
Qed.

(** X11. [process_loaded_config] merges the kwargs of the constructor
    over the allowable keys of the configuration: a key the constructor
    gave keeps the constructor's value; another key has the
    configuration's value if it is allowable and is dropped otherwise; and
    the keys of the configuration come first, in their order, before the
    keys only the constructor gave. *)
Theorem constructor_kwargs_override_configuration
    (kw : odict) (c : Mapping.config) (s : store) (m : loc)
    (abbs : option Utils.abbreviations) (kw' : odict) :
  NoDup (map fst kw) ->
  Mapping.process_loaded_config kw c s = (Ok (m, abbs, kw'), s) ->
  (forall k, lookup k kw'
             = match lookup k kw with
               | Some v => Some v
               | None => if allowable_key k
                         then lookup k (Mapping.entries c) else None
               end)
  /\ map fst kw'
     = map fst (filter Mapping.allowable (Mapping.entries c))
       ++ filter (fun k => negb (is_key_of
                                   (filter Mapping.allowable
                                      (Mapping.entries c)) k))
            (map fst kw).
Proof.
  intros Hkw. unfold Mapping.process_loaded_config.
  destruct (Mapping.mapping_data c); [|discriminate].
  intros [= _ _ <-]. split.
  - intros k. rewrite lookup_merge by assumption.
    now rewrite lookup_filter_allowable.
  - now apply keys_merge.
Qed.

Lemma constructor_kwargs_override_configuration_witness :
  lookup "out_lang"
    (merge (filter Mapping.allowable (Mapping.entries sample_entry))
       reversing_kwargs)
  = Some (VStr (str_of "eng-arpabet")).
Proof.
  assert (Hkeys : NoDup (map fst reversing_kwargs)).
  { repeat constructor; cbn; intuition discriminate. }
  rewrite (proj1 (constructor_kwargs_override_configuration
                    reversing_kwargs sample_entry empty_store 0%nat None _
                    Hkeys eq_refl) "out_lang"%string).
  reflexivity.
Defined.

Lemma has_key_app (k : string) (a b : odict) :
  has_key k (a ++ b) = has_key k a || has_key k b.
Proof.
  unfold has_key. induction a as [|[k0 v0] a IH]; cbn [app lookup].
  - reflexivity.
  - destruct (String.eqb k0 k); [reflexivity | exact IH].
Qed.

Lemma set_defaults_append (kw : odict) (ds : odict) :
  NoDup (map fst ds) ->
  forall t,
    (forall kv, In kv ds -> has_key (fst kv) t = false) ->
    fold_left (fun d kv => set_default (fst kv) (snd kv) d) ds (kw ++ t)
    = kw ++ t ++ filter (fun kv => negb (has_key (fst kv) kw)) ds.
Proof.
  induction ds as [|[k v] ds IH]; intros Hds t Ht; cbn [fold_left filter].
  - now rewrite app_nil_r.
  - inversion Hds as [|? ? Hk Hds']; subst. cbn [fst snd].
    unfold set_default at 2. rewrite has_key_app.
    pose proof (Ht (k, v) (or_introl eq_refl)) as Hkt. cbn [fst] in Hkt.
    rewrite Hkt, orb_false_r.
    destruct (has_key k kw) eqn:Hkw; cbn [negb].
    + apply IH; [assumption|]. intros kv Hin. apply Ht. now right.
    + rewrite <- app_assoc, IH; [now rewrite <- app_assoc | assumption |].
      intros [k' v'] Hin. rewrite has_key_app.
      pose proof (Ht (k', v') (or_intror Hin)) as Hkt'. cbn [fst] in Hkt' |- *.
      rewrite Hkt'. cbn [orb].
      unfold has_key. cbn [lookup].
      destruct (String.eqb k k') eqn:E; [|reflexivity].
      apply String.eqb_eq in E. subst k'. exfalso. apply Hk.
      now apply (in_map fst) in Hin.
Qed.

(** X12. [process_kwargs] leaves the kwargs the caller gave where they
    are and appends, in a fixed order, exactly those of the six flags the
    caller did not give, with their defaults: the flags are then applied in
    that order, the caller's first. *)
Theorem defaults_follow_the_given_kwargs (kw : odict) :
  Mapping.add_defaults kw
  = kw ++ filter (fun kv => negb (has_key (fst kv) kw)) six_defaults.
Proof.
  assert (Hkeys : NoDup (map fst six_defaults)).
  { repeat constructor; cbn; intuition discriminate. }
  pose proof (set_defaults_append kw six_defaults Hkeys []
                (fun _ _ => eq_refl)) as H.
  rewrite app_nil_r in H. exact H.
Qed.


(** ** Sorting the rules by the length of their input *)

Section Sorting.

Context {A : Type} (key : A -> nat).

Lemma insert_desc_permutation (x : A) (l : list A) :
  Permutation (insert_desc key x l) (x :: l).
Proof.
  induction l as [|y l IH]; cbn [insert_desc]; [reflexivity|].
  destruct (key x <? key y)%nat; [|reflexivity].
  rewrite IH. apply perm_swap.
Qed.

Lemma sorted_desc_permutation (l : list A) : Permutation (sorted_desc key l) l.
Proof.
  induction l as [|x l IH]; cbn [sorted_desc]; [reflexivity|].
  rewrite insert_desc_permutation. now constructor.
Qed.

Local Abbreviation not_shorter := (fun x y : A => (key y <= key x)%nat).

Lemma insert_desc_sorted (x : A) (l : list A) :
  StronglySorted not_shorter l ->
  StronglySorted not_shorter (insert_desc key x l).
Proof.
  induction 1 as [|y l Hl IH Hy]; cbn [insert_desc].
  - repeat constructor.
  - destruct (key x <? key y)%nat eqn:E.
    + apply Nat.ltb_lt in E. constructor; [exact IH|].
      apply Forall_forall. intros z Hz.
      apply (Permutation_in _ (insert_desc_permutation x l)) in Hz.
      destruct Hz as [<- | Hz].
      * lia.
      * rewrite Forall_forall in Hy. now apply Hy.
    + apply Nat.ltb_ge in E. constructor; [now constructor|].
      constructor; [exact E|].
      apply Forall_forall. intros z Hz. rewrite Forall_forall in Hy.
      specialize (Hy z Hz). cbn beta in *. lia.
Qed.

Lemma sorted_desc_sorted (l : list A) :
  StronglySorted not_shorter (sorted_desc key l).
Proof.
  induction l as [|x l IH]; cbn [sorted_desc]; [constructor|].
  now apply insert_desc_sorted.
Qed.

Lemma insert_desc_stable (n : nat) (x : A) (l : list A) :
  filter (fun y => (key y =? n)%nat) (insert_desc key x l)
  = filter (fun y => (key y =? n)%nat) (x :: l).
Proof.
  induction l as [|y l IH]; cbn [insert_desc]; [reflexivity|].
  destruct (key x <? key y)%nat eqn:E; [|reflexivity].
  apply Nat.ltb_lt in E. cbn [filter] in *. rewrite IH.
  destruct (key x =? n)%nat eqn:Ex; [|reflexivity].
  apply Nat.eqb_eq in Ex.
  destruct (key y =? n)%nat eqn:Ey; [|reflexivity].
  apply Nat.eqb_eq in Ey. lia.
Qed.

Lemma sorted_desc_stable (n : nat) (l : list A) :
  filter (fun y => (key y =? n)%nat) (sorted_desc key l)
  = filter (fun y => (key y =? n)%nat) l.
Proof.
  induction l as [|x l IH]; cbn [sorted_desc]; [reflexivity|].
  rewrite insert_desc_stable. cbn [filter]. now rewrite IH.
Qed.

End Sorting.

Section Sorted_copy.

Variables (lower re_escape : pystr -> pystr).
Variable normalize : pystr -> value -> result pystr.

Local Abbreviation apply_kwarg :=
  (Mapping.apply_kwarg lower re_escape normalize).

(** X13. With a falsy [as_is], the step of the flag pipeline for
    [as_is] returns a new list object: it holds the same dicts as the list
    it was given, the ones with a longer [in] first and the ones with an
    [in] of one length in the order they had; the list given, the other
    lists, the dicts and the log stay as they were. *)
Theorem as_is_false_sorts_a_copy
    (kw : odict) (m : loc) (val : value) (s : store) :
  truthy val = false ->
  exists t,
    apply_kwarg kw m "as_is" val s = (Ok (next s), t)
    /\ Permutation (lists t (next s)) (lists s m)
    /\ StronglySorted (longest_first s) (lists t (next s))
    /\ (forall n, of_length s n (lists t (next s))
                  = of_length s n (lists s m))
    /\ (forall l, l <> next s -> lists t l = lists s l)
    /\ dicts t = dicts s
    /\ log t = log s.
Proof.
  intros Hval. unfold Mapping.apply_kwarg. rewrite Hval.
  cbn [String.eqb Ascii.eqb Bool.eqb negb andb].
  unfold Mapping.sort_by_in, new_list. eexists. split; [reflexivity|].
  cbn [lists dicts log]. rewrite Nat.eqb_refl.
  split; [apply sorted_desc_permutation|].
  split; [apply (sorted_desc_sorted (in_length s))|].
  split; [intros n; apply (sorted_desc_stable (in_length s))|].
  split; [|split; reflexivity].
  intros l Hl. apply Nat.eqb_neq in Hl. now rewrite Hl.
Qed.

End Sorted_copy.

Lemma as_is_false_sorts_a_copy_witness :
  exists t,
    Mapping.apply_kwarg id id (fun text _ => Ok text) [] 2%nat "as_is"
      (VBool false) registry_store
    = (Ok (next registry_store), t)
    /\ Permutation (lists t (next registry_store)) (lists registry_store 2%nat)
    /\ StronglySorted (longest_first registry_store)
         (lists t (next registry_store))
    /\ (forall n, of_length registry_store n (lists t (next registry_store))
                  = of_length registry_store n (lists registry_store 2%nat))
    /\ (forall l, l <> next registry_store
                  -> lists t l = lists registry_store l)
    /\ dicts t = dicts registry_store
    /\ log t = log registry_store.
Proof.
  apply (as_is_false_sorts_a_copy id id (fun text _ => Ok text) [] 2%nat
           (VBool false) registry_store).
  reflexivity.
Defined.


(** ** Reversing a mapping *)

Lemma swapped_twice (r : rule) : swapped (swapped r) = r.
Proof. now destruct r. Qed.

(** The loop of [reverse_mappings] exchanges a dict once for each place
    it has in the list. *)
Lemma for_each_reverse_rule (l : list loc) :
  forall s,
  exists t,
    for_each Mapping.reverse_rule l s = (Ok tt, t)
    /\ (forall x, dicts t x
                  = if Nat.even (count_occ Nat.eq_dec l x)
                    then dicts s x else swapped (dicts s x))
    /\ lists t = lists s /\ next t = next s /\ log t = log s.
Proof.
  induction l as [|a l IH]; intros s; cbn [for_each].
  - exists s. repeat split; reflexivity.
  - unfold bind at 1. unfold Mapping.reverse_rule at 1.
    unfold bind at 1. unfold get_dict, put_dict.
    fold (swapped (dicts s a)).
    destruct (IH (set_dict s a (swapped (dicts s a))))
      as (t & Hrun & Hdicts & Hlists & Hnext & Hlog).
    exists t. split; [exact Hrun|]. split; [|now repeat split].
    intros x. rewrite Hdicts. cbn [count_occ set_dict dicts].
    destruct (Nat.eq_dec a x) as [-> | Hne].
    + rewrite Nat.eqb_refl, Nat.even_succ, <- Nat.negb_even.
      destruct (Nat.even (count_occ Nat.eq_dec l x)); cbn [negb];
        [reflexivity | apply swapped_twice].
    + assert (E : (x =? a)%nat = false) by (apply Nat.eqb_neq; congruence).
      now rewrite E.
Qed.

(** X14. [reverse_mappings] exchanges [in] and [out] of the dicts of
    the list in place, once for each place a dict has in the list: a dict
    listed an even number of times ends as it was. The call returns the
    list it was given, and a second call gives every dict back as it
    was. *)
Theorem reverse_twice_restores (m : loc) (s : store) :
  exists t u,
    Mapping.reverse_mappings m s = (Ok m, t)
    /\ Mapping.reverse_mappings m t = (Ok m, u)
    /\ (forall x, dicts t x
                  = if Nat.even (count_occ Nat.eq_dec (lists s m) x)
                    then dicts s x else swapped (dicts s x))
    /\ lists t = lists s
    /\ (forall x, dicts u x = dicts s x)
    /\ lists u = lists s.
Proof.
  destruct (for_each_reverse_rule (lists s m) s)
    as (t & Hrun & Hdicts & Hlists & _).
  destruct (for_each_reverse_rule (lists t m) t)
    as (u & Hrun' & Hdicts' & Hlists' & _).
  exists t, u.
  split; [unfold Mapping.reverse_mappings, bind, get_list; now rewrite Hrun|].
  split; [unfold Mapping.reverse_mappings, bind, get_list; now rewrite Hrun'|].
  split; [exact Hdicts|]. split; [exact Hlists|].
  split; [|now rewrite Hlists'].
  intros x. rewrite Hdicts', Hlists, Hdicts.
  destruct (Nat.even (count_occ Nat.eq_dec (lists s m) x));
    [reflexivity | apply swapped_twice].
Qed.


(** ** What the compiling loop drops *)

Lemma subsequence_refl {A} (l : list A) : subsequence l l.
Proof. induction l; now constructor. Qed.

Lemma subsequence_trans {A} (a b c : list A) :
  subsequence a b -> subsequence b c -> subsequence a c.
Proof.
  intros Hab Hbc. revert a Hab.
  induction Hbc as [|x l l' H IH|x l l' H IH]; intros a Hab.
  - exact Hab.
  - inversion Hab; subst; constructor; now apply IH.
  - constructor. now apply IH.
Qed.

Lemma remove_first_subsequence s x l :
  subsequence (Mapping.remove_first s x l) l.
Proof.
  induction l as [|y l IH]; cbn [Mapping.remove_first]; [constructor|].
  destruct (rule_eqb (dicts s y) x).
  - constructor. apply subsequence_refl.
  - now constructor.
Qed.

Lemma remove_first_one s x l :
  (exists y, In y l /\ rule_eqb (dicts s y) x = true) ->
  S (length (Mapping.remove_first s x l)) = length l.
Proof.
  induction l as [|y l IH]; intros (z & Hz & Heq); [destruct Hz|].
  cbn [Mapping.remove_first].
  destruct (rule_eqb (dicts s y) x) eqn:E; [reflexivity|].
  cbn [length]. f_equal. apply IH. exists z. split; [|exact Heq].
  destruct Hz as [-> | Hz]; [congruence | exact Hz].
Qed.

Lemma dropped_refl m s : dropped_with_warnings m s s.
Proof.
  exists []. rewrite app_nil_r. cbn [length]. rewrite Nat.add_0_r.
  repeat split; try reflexivity; [constructor | apply subsequence_refl].
Qed.

Lemma dropped_trans m s t u :
  dropped_with_warnings m s t -> dropped_with_warnings m t u ->
  dropped_with_warnings m s u.
Proof.
  intros (w1 & Hlog1 & Hw1 & Hlen1 & Hsub1 & Hl1 & Hn1)
         (w2 & Hlog2 & Hw2 & Hlen2 & Hsub2 & Hl2 & Hn2).
  exists (w1 ++ w2). repeat split.
  - now rewrite Hlog2, Hlog1, app_assoc.
  - now apply Forall_app.
  - rewrite length_app. lia.
  - eapply subsequence_trans; eassumption.
  - intros l Hl. now rewrite Hl2, Hl1.
  - congruence.
Qed.

Section Dropping.

Variables (is_letter_or_mark is_decimal_digit : char -> bool).
Variable re_compiles : pystr -> bool.

Local Abbreviation rule_to_regex :=
  (Mapping.rule_to_regex is_letter_or_mark is_decimal_digit re_compiles).
Local Abbreviation compile_loop :=
  (Mapping.compile_loop is_letter_or_mark is_decimal_digit re_compiles).
Local Abbreviation compile_all :=
  (Mapping.compile_all is_letter_or_mark is_decimal_digit re_compiles).

(** A rule that gets a pattern: [False] with one warning, or a compiled
    pattern and nothing logged. *)
Lemma rule_to_regex_pattern kw r s p t :
  rule_to_regex kw r s = (Ok p, t) ->
  (p = PFalse
   /\ t = {| dicts := dicts s; lists := lists s; next := next s;
             log := log s ++ [Warning_null_input (in_ r) (out r)] |})
  \/ ((exists source ignore_case, p = PCompiled source ignore_case) /\ t = s).
Proof.
  unfold Mapping.rule_to_regex.
  destruct (Mapping.is_empty (in_ r)).
  - unfold bind, tell, ret. intros [= <- <-]. now left.
  - destruct (lookup "case_sensitive" kw) as [cs|].
    + destruct (re_compiles _).
      * unfold ret. intros [= <- <-]. right. split; [eauto | reflexivity].
      * destruct (has_key "in_lang" kw); [|discriminate].
        destruct (has_key "out_lang" kw); discriminate.
    + destruct (has_key "in_lang" kw); [|discriminate].
      destruct (has_key "out_lang" kw); discriminate.
Qed.

Lemma compile_loop_drops kw m fuel :
  forall i s t,
    compile_loop kw m fuel i s = (Ok tt, t) -> dropped_with_warnings m s t.
Proof.
  induction fuel as [|fuel IH]; intros i s t; cbn [Mapping.compile_loop].
  - unfold ret. intros [= <-]. apply dropped_refl.
  - unfold bind at 1. unfold get_list.
    destruct (nth_error (lists s m) i) as [io|] eqn:Hio;
      [|unfold ret; intros [= <-]; apply dropped_refl].
    unfold bind at 1. unfold get_dict. unfold bind at 1.
    destruct (rule_to_regex kw (dicts s io) s) as [[p | e] s1] eqn:Hre;
      [|discriminate].
    apply rule_to_regex_pattern in Hre.
    unfold bind at 1. unfold put_dict. unfold bind at 1.
    destruct Hre as [[-> ->] | [(source & ic & ->) ->]].
    + unfold Mapping.list_remove. intros Hrest. apply IH in Hrest.
      refine (dropped_trans _ _ _ _ _ Hrest).
      exists [Warning_null_input (in_ (dicts s io)) (out (dicts s io))].
      cbn [log lists dicts next set_list set_dict length].
      rewrite Nat.eqb_refl.
      repeat split.
      * repeat constructor.
      * rewrite Nat.add_1_r. symmetry. apply remove_first_one.
        exists io. split; [eapply nth_error_In; eassumption|].
        apply rule_eqb_refl.
      * apply remove_first_subsequence.
      * intros l Hl. apply Nat.eqb_neq in Hl. now rewrite Hl.
    + unfold ret. intros Hrest. apply IH in Hrest.
      refine (dropped_trans _ _ _ _ _ Hrest).
      exists []. cbn [log lists dicts next set_dict length].
      rewrite app_nil_r, Nat.add_0_r.
      repeat split; [constructor | apply subsequence_refl].
Qed.

(** X15. When the closing loop of [process_kwargs] ends without an
    error, it has logged exactly one null-input warning for each rule it
    removed from the list and nothing else; the rules left are in the order
    they had; and no other list has changed. *)
Theorem compiling_drops_one_rule_per_warning kw m s t :
  compile_all kw m s = (Ok tt, t) -> dropped_with_warnings m s t.
Proof.
  unfold Mapping.compile_all, bind, get_list. apply compile_loop_drops.
Qed.

End Dropping.

Lemma compiling_drops_one_rule_per_warning_witness :
  dropped_with_warnings 2%nat (store_of [rule_a_b; rule_null_c])
    (snd (Mapping.compile_all ascii_letter ascii_digit (fun _ => true)
            [("case_sensitive", VBool true)]%string 2%nat
            (store_of [rule_a_b; rule_null_c]))).
Proof.
  apply (compiling_drops_one_rule_per_warning ascii_letter ascii_digit
           (fun _ => true) [("case_sensitive", VBool true)]%string).
  reflexivity.
Defined.


(** ** The list object of a Mapping built from a list *)

Lemma in_add_defaults (kv : string * value) (kw : odict) :
  In kv (Mapping.add_defaults kw) -> In kv kw \/ In kv six_defaults.
Proof.
  assert (Hkeys : NoDup (map fst six_defaults)).
  { repeat constructor; cbn; intuition discriminate. }
  pose proof (set_defaults_append kw six_defaults Hkeys []
                (fun _ _ => eq_refl)) as H.
  rewrite app_nil_r in H.
  change (fold_left (fun d kv => set_default (fst kv) (snd kv) d)
            six_defaults kw) with (Mapping.add_defaults kw) in H.
  rewrite H. intros Hin. apply in_app_or in Hin as [Hin | Hin].
  - now left.
  - right. now apply filter_In in Hin.
Qed.

Lemma neither_with_defaults (kw : odict) :
  neither_sorts_nor_escapes kw ->
  neither_sorts_nor_escapes (Mapping.add_defaults kw).
Proof.
  intros [Has Hes]. split; intros v Hin;
    apply in_add_defaults in Hin as [Hin | Hin]; auto;
    cbn [six_defaults In] in Hin;
    repeat (destruct Hin as [Hin | Hin];
            [try discriminate Hin; now inversion Hin|]);
    destruct Hin.
Qed.

Lemma then_ret_same {A} (c : M A) (m m' : loc) (s t : store) :
  (c ;;; ret m) s = (Ok m', t) -> m' = m.
Proof.
  unfold bind, ret. destruct (c s) as [[a | e] u]; now intros [= -> _].
Qed.

Section Same_list.

Variables (is_letter_or_mark is_decimal_digit : char -> bool).
Variables (re_compiles : pystr -> bool) (lower re_escape : pystr -> pystr).
Variable normalize : pystr -> value -> result pystr.
Variable MAPPINGS_AVAILABLE : list Mapping.config.
Variable re_search : pystr -> pystr -> bool.
Variable re_sub : pystr -> pystr -> pystr -> result pystr.
Variable fs : Utils.files.
Variable read_mapping_config : pystr -> result Mapping.loaded.

Local Abbreviation apply_kwarg :=
  (Mapping.apply_kwarg lower re_escape normalize).
Local Abbreviation apply_kwargs :=
  (Mapping.apply_kwargs lower re_escape normalize).
Local Abbreviation process_kwargs :=
  (Mapping.process_kwargs is_letter_or_mark is_decimal_digit re_compiles
     lower re_escape normalize).
Local Abbreviation init :=
  (Mapping.init is_letter_or_mark is_decimal_digit re_compiles lower
     re_escape normalize MAPPINGS_AVAILABLE re_search re_sub fs
     read_mapping_config).

Lemma apply_kwarg_same kw m kwarg val s m' t :
  (kwarg = "as_is"%string -> truthy val = true) ->
  (kwarg = "escape_special"%string -> truthy val = false) ->
  apply_kwarg kw m kwarg val s = (Ok m', t) -> m' = m.
Proof.
  intros Has Hes. unfold Mapping.apply_kwarg.
  destruct (String.eqb kwarg "as_is") eqn:E1.
  { apply String.eqb_eq in E1. rewrite (Has E1). subst kwarg.
    cbn [negb andb String.eqb Ascii.eqb Bool.eqb].
    destruct (truthy val); cbn [andb negb];
      [|unfold ret; now intros [= -> _]].
    unfold ret; now intros [= -> _]. }
  cbn [andb].
  destruct (String.eqb kwarg "escape_special") eqn:E2.
  { apply String.eqb_eq in E2. rewrite (Hes E2). subst kwarg.
    cbn [negb andb String.eqb Ascii.eqb Bool.eqb].
    unfold ret; now intros [= -> _]. }
  cbn [andb].
  destruct (String.eqb kwarg "case_sensitive" && negb (truthy val));
    [unfold Mapping.lower_mappings, bind at 1, get_list;
     apply then_ret_same|].
  destruct (String.eqb kwarg "norm_form" && truthy val);
    [unfold Mapping.normalize_mappings, bind at 1, get_list;
     apply then_ret_same|].
  destruct (String.eqb kwarg "reverse" && truthy val);
    [unfold Mapping.reverse_mappings, bind at 1, get_list;
     apply then_ret_same|].
  destruct (String.eqb kwarg "prevent_feeding" && truthy val);
    [unfold Mapping.prevent_feeding, bind at 1, get_list;
     apply then_ret_same|].
  unfold ret; now intros [= -> _].
Qed.

Lemma apply_kwargs_same kw items :
  neither_sorts_nor_escapes items ->
  forall m s m' t, apply_kwargs kw items m s = (Ok m', t) -> m' = m.
Proof.
  induction items as [|[kwarg val] items IH]; intros [Has Hes] m s m' t;
    cbn [Mapping.apply_kwargs].
  - unfold ret. now intros [= -> _].
  - unfold bind at 1.
    destruct (apply_kwarg kw m kwarg val s) as [[m1 | e] s1] eqn:H1;
      [|discriminate].
    apply apply_kwarg_same in H1.
    + subst m1. apply IH. split; intros v Hin.
      * apply Has. now right.
      * apply Hes. now right.
    + intros ->. apply Has. now left.
    + intros ->. apply Hes. now left.
Qed.

(** X16. A Mapping built from a list of rules, with kwargs in which
    [as_is] is truthy or absent and [escape_special] is falsy or absent,
    holds the caller's list object itself and not a copy: what the
    construction does to the list, the caller's list shows. Its kwargs are
    the caller's followed by the defaults. *)
Theorem mapping_holds_the_list_given
    (m : loc) (abbs : Mapping.abbreviations_argument) (kw : odict)
    (s t : store) (self : Mapping.mapping_object) :
  neither_sorts_nor_escapes kw ->
  init (Mapping.Rule_list m) abbs kw s = (Ok self, t) ->
  Mapping.mapping self = m
  /\ Mapping.kwargs self = Mapping.add_defaults kw.
Proof.
  intros Hkw. unfold Mapping.init. unfold bind at 1.
  destruct (Mapping.load_abbreviations fs abbs s) as [[abbs0 | e] s0];
    [|discriminate].
  unfold bind at 1. unfold bind at 1. unfold Utils.validate, ret at 1 2.
  unfold bind at 1.
  destruct (Mapping.expand_abbreviations _ _ _ abbs0 m s0)
    as [[[] | e] s1]; [|discriminate].
  unfold bind at 1. unfold Mapping.process_kwargs. unfold bind at 1.
  destruct (apply_kwargs (Mapping.add_defaults kw) (Mapping.add_defaults kw)
              m s1) as [[m1 | e] s2] eqn:Hsteps; [|discriminate].
  apply apply_kwargs_same in Hsteps; [|now apply neither_with_defaults].
  subst m1. unfold bind at 1.
  destruct (Mapping.compile_all _ _ _ _ _ s2) as [[[] | e] s3];
    [|discriminate].
  unfold ret. intros [= <- _]. split; reflexivity.
Qed.

End Same_list.

Lemma mapping_holds_the_list_given_witness :
  exists t,
    sample_init [] (Mapping.Rule_list 2%nat) Mapping.No_abbreviations
      [("reverse", VBool true)]%string registry_store
    = (Ok reversed_mapping, t)
    /\ Mapping.mapping reversed_mapping = 2%nat
    /\ Mapping.kwargs reversed_mapping
       = Mapping.add_defaults [("reverse", VBool true)]%string.
Proof.
  exists (snd (sample_init [] (Mapping.Rule_list 2%nat)
                 Mapping.No_abbreviations [("reverse", VBool true)]%string
                 registry_store)).
  assert (Hrun : sample_init [] (Mapping.Rule_list 2%nat)
                   Mapping.No_abbreviations [("reverse", VBool true)]%string
                   registry_store
                 = (Ok reversed_mapping,
                    snd (sample_init [] (Mapping.Rule_list 2%nat)
                           Mapping.No_abbreviations
                           [("reverse", VBool true)]%string registry_store)))
    by (vm_compute; reflexivity).
  assert (Hkw : neither_sorts_nor_escapes [("reverse", VBool true)]%string)
    by (split; intros v [Hin | []]; discriminate).
  split; [exact Hrun|].
  apply (mapping_holds_the_list_given ascii_letter ascii_digit (fun _ => true)
           (fun t => t) (fun t => t) (fun t _ => Ok t) []
           (fun _ _ => false) (fun _ _ t => Ok t) empty_disk
           (fun _ => Raise FileNotFoundError) 2%nat Mapping.No_abbreviations
           [("reverse", VBool true)]%string registry_store _
           reversed_mapping Hkw Hrun).
Defined.


(** ** Exporting a mapping with its configuration *)

Lemma write_file_there disk fn content :
  Mapping.write_file disk fn content fn = Some content.
Proof. unfold Mapping.write_file. now rewrite pystr_eqb_refl. Qed.

Lemma write_file_elsewhere disk fn content path :
  path <> fn -> Mapping.write_file disk fn content path = disk path.
Proof.
  intros H. unfold Mapping.write_file. now rewrite (pystr_eqb_neq _ _ H).
Qed.

Lemma last_after {A} (a b : list A) (d : A) :
  b <> [] -> last (a ++ b) d = last b d.
Proof.
  intros Hb. induction a as [|x a IH]; [reflexivity|].
  cbn [app]. rewrite <- IH. cbn [last].
  destruct (a ++ b) eqn:E; [|reflexivity].
  apply app_eq_nil in E as [_ E]. contradiction.
Qed.

Lemma last_os_path_join (a b : pystr) (d : char) :
  b <> [] -> last (Mapping.os_path_join a b) d = last b d.
Proof.
  intros Hb. unfold Mapping.os_path_join.
  destruct b as [|c b]; [contradiction|].
  destruct (c =? Mapping.slash); [reflexivity|].
  destruct (Mapping.is_empty a || Utils.endswith a [Mapping.slash]).
  - now apply last_after.
  - rewrite app_assoc. now apply last_after.
Qed.

(** The rule file of a csv or json export is never the configuration
    file: their names end differently. *)
Lemma rule_file_is_not_config_file output_path in_lang out_lang file_type :
  csv_or_json file_type ->
  Mapping.os_path_join output_path
    (rule_file_name in_lang out_lang file_type)
  <> config_file output_path.
Proof.
  intros Htype Heq. apply (f_equal (fun p => last p 0)) in Heq.
  unfold config_file, rule_file_name in Heq.
  rewrite !last_os_path_join in Heq.
  - rewrite !app_assoc in Heq. rewrite last_after in Heq.
    + destruct Htype as [-> | ->]; discriminate Heq.
    + destruct Htype as [-> | ->]; discriminate.
  - discriminate.
  - rewrite !app_assoc. intros E. apply app_eq_nil in E as [_ E].
    destruct Htype as [-> | ->]; discriminate E.
Qed.

(** A text with a lone surrogate stops the export at its row: the rows
    before it are in the file. *)
Example mapping_to_file_refuses_a_surrogate :
  Mapping.mapping_to_file (fun _ => true) (fun _ => true) [Utils.lf]
    (fun _ => []) (mapping_at 2%nat)
    (store_of [rule_a_b; plain_rule [55296] (str_of "c") [] []]) empty_disk
    (str_of "out") (str_of "csv")
  = (Raise UnicodeEncodeError,
     Mapping.write_file empty_disk (str_of "out/hun_to_und.csv")
       (str_of "a,b,," ++ [Utils.cr; Utils.lf])).
Proof. reflexivity. Qed.

Section Exporting.

Variables (isdir can_open_w : pystr -> bool) (linesep : pystr).
Variable json_dump : list (list pystr) -> pystr.
Variable yaml_dump : list (string * Mapping.yaml_value) -> pystr.

Local Abbreviation mapping_to_file :=
  (Mapping.mapping_to_file isdir can_open_w linesep json_dump).
Local Abbreviation config_to_file :=
  (Mapping.config_to_file isdir can_open_w linesep yaml_dump).
Local Abbreviation to_file :=
  (Mapping.to_file isdir can_open_w linesep json_dump yaml_dump).

Lemma lang_or_und_no_string key kw :
  code_is_no_string key kw -> Mapping.lang_or_und key kw = Raise TypeError.
Proof.
  intros (v & Hv & Hno). unfold Mapping.lang_or_und, get_or. rewrite Hv.
  destruct v; [reflexivity | reflexivity | reflexivity | contradiction].
Qed.

Lemma export_name_no_string kw output_path file_type :
  code_is_no_string "in_lang" kw \/ code_is_no_string "out_lang" kw ->
  Mapping.export_name kw output_path file_type = Raise TypeError.
Proof.
  unfold Mapping.export_name. intros [H | H];
    rewrite (lang_or_und_no_string _ _ H); [reflexivity|].
  destruct (Mapping.lang_or_und "in_lang" kw) as [i | e] eqn:Hin;
    [reflexivity|].
  now rewrite (lang_or_und_raises _ _ _ Hin).
Qed.

(** A rule file that cannot be started leaves the file system alone. *)
Lemma mapping_to_file_cannot_start self s disk output_path file_type :
  export_cannot_start isdir can_open_w (Mapping.kwargs self) output_path
    file_type ->
  exists e,
    mapping_to_file self s disk output_path file_type = (Raise e, disk).
Proof.
  intros Hcause. unfold Mapping.mapping_to_file.
  destruct (isdir output_path) eqn:Hdir; [|eauto].
  destruct Hcause as [Hno | [Hcode | [[Hcsv Hjson] | (fn & Hfn & Hopen)]]].
  - congruence.
  - rewrite (export_name_no_string _ _ _ Hcode). eauto.
  - rewrite (pystr_eqb_neq _ _ Hjson), (pystr_eqb_neq _ _ Hcsv).
    destruct (Mapping.export_name _ _ _); eauto.
  - rewrite Hfn, Hopen.
    destruct (pystr_eqb file_type (str_of "json")); [eauto|].
    destruct (pystr_eqb file_type (str_of "csv")); eauto.
Qed.

(** X17. [to_file], in an existing directory, for the type ["csv"] or
    ["json"] and language codes that are strings, when both files can be
    opened and, for ["csv"], no text of a rule holds a surrogate, which a
    utf8 file refuses: it writes the configuration to [config.yaml] in the
    directory and the rules to the file that the configuration names under
    ["mapping"], joined to the same directory; no other file changes. *)
Theorem to_file_writes_rules_and_configuration
    (self : Mapping.mapping_object) (s : store) (disk : Utils.files)
    (output_path mapping_type in_lang out_lang : pystr) :
  isdir output_path = true ->
  csv_or_json mapping_type ->
  Mapping.lang_or_und "in_lang" (Mapping.kwargs self) = Ok in_lang ->
  Mapping.lang_or_und "out_lang" (Mapping.kwargs self) = Ok out_lang ->
  let name := rule_file_name in_lang out_lang mapping_type in
  let rule_file := Mapping.os_path_join output_path name in
  can_open_w rule_file = true ->
  can_open_w (config_file output_path) = true ->
  Mapping.encodable linesep = true ->
  (mapping_type = str_of "csv" ->
   Forall encodable_rule (view s (Mapping.mapping self))) ->
  exists entry disk',
    to_file self s disk output_path mapping_type = (Ok tt, disk')
    /\ Mapping.config_entry (Mapping.kwargs self) mapping_type = Ok entry
    /\ In ("mapping"%string, Mapping.Scalar (VStr name)) entry
    /\ disk' (config_file output_path)
       = Some (Utils.write_translate linesep (yaml_dump entry))
    /\ disk' rule_file
       = snd (mapping_to_file self s disk output_path mapping_type) rule_file
    /\ disk' rule_file <> None
    /\ (forall path, path <> rule_file -> path <> config_file output_path ->
                     disk' path = disk path).
Proof.
  intros Hdir Htype Hin Hout name rule_file Hrule Hconfig Hsep Htexts.
  unfold Mapping.to_file, Mapping.mapping_to_file, Mapping.config_to_file,
    Mapping.export_name, Mapping.config_entry.
  rewrite Hdir, Hin, Hout.
  fold (rule_file_name in_lang out_lang mapping_type). fold name.
  fold rule_file. fold (config_file output_path).
  rewrite Hrule, Hconfig.
  assert (Hne : rule_file <> config_file output_path)
    by now apply rule_file_is_not_config_file.
  assert (Hcsv : pystr_eqb (str_of "csv") (str_of "json") = false)
    by reflexivity.
  destruct Htype as [-> | ->];
    rewrite ?Hcsv, ?pystr_eqb_refl;
    rewrite ?(write_rows_encodable linesep _ Hsep
                (filtered_encodable _ (Htexts eq_refl)));
    cbn [snd];
    (eexists; eexists; split; [reflexivity|]; split; [reflexivity|];
     split; [cbn [In]; tauto|];
     split; [apply write_file_there|];
     rewrite (write_file_elsewhere _ _ _ _ Hne), write_file_there;
     split; [reflexivity|]; split; [discriminate|];
     intros path H1 H2; now rewrite !write_file_elsewhere by assumption).
Qed.

(** X18. When the rule file cannot be started, because the directory is
    missing, a language code is no string, the type is not supported or
    the file cannot be opened, [to_file] raises the error of
    [mapping_to_file], does not go on to the configuration, and leaves
    every file as it was. *)
Theorem to_file_stops_at_a_failed_rule_file
    (self : Mapping.mapping_object) (s : store) (disk : Utils.files)
    (output_path mapping_type : pystr) :
  export_cannot_start isdir can_open_w (Mapping.kwargs self) output_path
    mapping_type ->
  exists e,
    mapping_to_file self s disk output_path mapping_type = (Raise e, disk)
    /\ to_file self s disk output_path mapping_type = (Raise e, disk).
Proof.
  intros Hcause.
  destruct (mapping_to_file_cannot_start self s disk output_path
              mapping_type Hcause) as [e He].
  exists e. split; [exact He|]. unfold Mapping.to_file. now rewrite He.
Qed.

End Exporting.

Lemma to_file_writes_rules_and_configuration_witness :
  exists entry disk',
    Mapping.to_file (fun _ => true) (fun _ => true) [Utils.lf] (fun _ => [])
      (fun _ => []) (mapping_at 2%nat) (store_of [rule_a_b; rule_c_d])
      empty_disk (str_of "out") (str_of "csv")
    = (Ok tt, disk')
    /\ Mapping.config_entry (Mapping.kwargs (mapping_at 2%nat))
         (str_of "csv")
       = Ok entry
    /\ In ("mapping"%string,
           Mapping.Scalar
             (VStr (rule_file_name (str_of "hun") (str_of "und")
                      (str_of "csv")))) entry
    /\ disk' (config_file (str_of "out"))
       = Some (Utils.write_translate [Utils.lf] [])
    /\ disk' (Mapping.os_path_join (str_of "out")
                (rule_file_name (str_of "hun") (str_of "und") (str_of "csv")))
       = snd (Mapping.mapping_to_file (fun _ => true) (fun _ => true)
                [Utils.lf] (fun _ => []) (mapping_at 2%nat)
                (store_of [rule_a_b; rule_c_d]) empty_disk (str_of "out")
                (str_of "csv"))
           (Mapping.os_path_join (str_of "out")
              (rule_file_name (str_of "hun") (str_of "und") (str_of "csv")))
    /\ disk' (Mapping.os_path_join (str_of "out")
                (rule_file_name (str_of "hun") (str_of "und") (str_of "csv")))
       <> None
    /\ (forall path,
          path <> Mapping.os_path_join (str_of "out")
                    (rule_file_name (str_of "hun") (str_of "und")
                       (str_of "csv")) ->
          path <> config_file (str_of "out") ->
          disk' path = empty_disk path).
Proof.
  apply (to_file_writes_rules_and_configuration (fun _ => true)
           (fun _ => true) [Utils.lf] (fun _ => []) (fun _ => [])
           (mapping_at 2%nat) (store_of [rule_a_b; rule_c_d]) empty_disk
           (str_of "out") (str_of "csv") (str_of "hun") (str_of "und"));
    try reflexivity.
  - now left.
  - intros _. repeat constructor.
Defined.

Lemma to_file_stops_at_a_failed_rule_file_witness :
  exists e,
    Mapping.mapping_to_file (fun _ => false) (fun _ => true) [Utils.lf]
      (fun _ => []) sample_mapping empty_store empty_disk (str_of "out")
      (str_of "csv")
    = (Raise e, empty_disk)
    /\ Mapping.to_file (fun _ => false) (fun _ => true) [Utils.lf]
         (fun _ => []) (fun _ => []) sample_mapping empty_store empty_disk
         (str_of "out") (str_of "csv")
       = (Raise e, empty_disk).
Proof.
  apply (to_file_stops_at_a_failed_rule_file (fun _ => false) (fun _ => true)
           [Utils.lf] (fun _ => []) (fun _ => []) sample_mapping empty_store
           empty_disk (str_of "out") (str_of "csv")).
  left. reflexivity.
Defined.


(** ** Loading rule files *)

Lemma rows_to_rules_short_row (work_sheet : list (list pystr)) :
  Exists (fun entry => (length entry < 2)%nat) work_sheet ->
  Utils.rows_to_rules work_sheet = Raise IndexError.
Proof.
  induction work_sheet as [|entry rest IH]; intros Hshort;
    [inversion Hshort|].
  cbn [Utils.rows_to_rules].
  destruct entry as [|i [|o cols]]; try reflexivity.
  cbn [Utils.entry_to_rule nth_error].
  rewrite IH; [reflexivity|].
  inversion Hshort as [? ? Hlen | ? ? Hrest]; subst; [|exact Hrest].
  cbn [length] in Hlen. lia.
Qed.

(** X19. One row with fewer than two columns, anywhere in the table,
    makes [load_from_csv] raise [IndexError]: no rule of the other rows is
    returned. *)
Theorem short_row_fails_the_whole_load
    (fs : Utils.files) (language content : pystr)
    (work_sheet : list (list pystr)) :
  fs language = Some content ->
  Utils.csv_reader content = Ok work_sheet ->
  Exists (fun entry => (length entry < 2)%nat) work_sheet ->
  Utils.load_from_csv fs language = Raise IndexError.
Proof.
  intros Hfile Hread Hshort. unfold Utils.load_from_csv, Utils.open_read.
  rewrite Hfile, Hread. now apply rows_to_rules_short_row.
Qed.

Lemma short_row_fails_the_whole_load_witness :
  Utils.load_from_csv
    (fun _ => Some (str_of "a,b" ++ [Utils.lf] ++ str_of "c" ++ [Utils.lf]
                    ++ str_of "d,e"))
    (str_of "t.csv")
  = Raise IndexError.
Proof.
  apply (short_row_fails_the_whole_load _ (str_of "t.csv")
           (str_of "a,b" ++ [Utils.lf] ++ str_of "c" ++ [Utils.lf]
            ++ str_of "d,e")
           [[str_of "a"; str_of "b"]; [str_of "c"];
            [str_of "d"; str_of "e"]]).
  - reflexivity.
  - reflexivity.
  - apply Exists_cons_tl, Exists_cons_hd. cbn. lia.
Defined.

Lemma validate_records_of_rules (rules : list rule) :
  Utils.validate_records (map Utils.record_of rules)
  = (map Utils.record_of rules, Ok tt).
Proof.
  unfold Utils.validate_records. rewrite map_map.
  replace (map (fun x => Utils.default_contexts (Utils.record_of x)) rules)
    with (map Utils.record_of rules) by (apply map_ext; reflexivity).
  assert (Hin : forallb Utils.has_in (map Utils.record_of rules) = true)
    by (induction rules; cbn; auto).
  assert (Hout : forallb Utils.has_out (map Utils.record_of rules) = true)
    by (induction rules; cbn; auto).
  now rewrite Hin, Hout.
Qed.

Section Loading.

Variable load_from_workbook : pystr -> result (list Utils.raw_rule).
Variable json_load : pystr -> result (list Utils.raw_rule).

Local Abbreviation load_from_file :=
  (Utils.load_from_file load_from_workbook json_load).

(** X20. For a path that ends in [csv], [load_from_file] gives what
    [load_from_csv] gives: [validate] accepts every list the csv loader
    builds and leaves it as it is, and an error of the loader comes out
    unchanged. The workbook and JSON loaders are not called, whatever else
    the path holds. *)
Theorem load_from_file_of_csv (fs : Utils.files) (path : pystr) :
  Utils.endswith path (str_of "csv") = true ->
  load_from_file fs path
  = match Utils.load_from_csv fs path with
    | Ok rules => Utils.Loaded (map Utils.record_of rules)
    | Raise e => Utils.Failed e
    end.
Proof.
  intros Hcsv. unfold Utils.load_from_file. rewrite Hcsv.
  destruct (Utils.load_from_csv fs path) as [rules | e]; [|reflexivity].
  unfold Utils.validated. now rewrite validate_records_of_rules.
Qed.

(** A path with none of the three suffixes is not refused:
    [load_from_file] reads no file and reaches [validate(mapping)] with
    [mapping] unassigned. *)
Remark load_from_file_of_another_suffix (fs : Utils.files) (path : pystr) :
  Utils.endswith path (str_of "csv") = false ->
  Utils.endswith path (str_of "xlsx") = false ->
  Utils.endswith path (str_of "json") = false ->
  load_from_file fs path = Utils.Unbound_local.
Proof.
  intros Hcsv Hxlsx Hjson. unfold Utils.load_from_file.
  now rewrite Hcsv, Hxlsx, Hjson.
Qed.

End Loading.

Lemma load_from_file_of_csv_witness :
  Utils.load_from_file (fun _ => Raise OtherError) (fun _ => Raise OtherError)
    (fun _ => Some (str_of "a,b")) (str_of "t.csv")
  = Utils.Loaded [Utils.record_of (plain_rule (str_of "a") (str_of "b") [] [])].
Proof.
  rewrite (load_from_file_of_csv (fun _ => Raise OtherError)
             (fun _ => Raise OtherError) (fun _ => Some (str_of "a,b"))
             (str_of "t.csv") eq_refl).
  reflexivity.
Defined.


(** ** Index placeholders *)

Section Placeholders.

Variables (is_letter_or_mark is_decimal_digit : char -> bool).
Variable re_compiles : pystr -> bool.

Local Abbreviation strip_placeholders :=
  (Mapping.strip_placeholders is_decimal_digit).
Local Abbreviation rule_to_regex :=
  (Mapping.rule_to_regex is_letter_or_mark is_decimal_digit re_compiles).

Lemma strip_before_a_brace (a rest : pystr) :
  ~ In Mapping.lbrace a ->
  strip_placeholders None (a ++ rest) = a ++ strip_placeholders None rest.
Proof.
  induction a as [|c a IH]; intros Ha; [reflexivity|].
  cbn [app Mapping.strip_placeholders].
  destruct (c =? Mapping.lbrace) eqn:E.
  - apply Z.eqb_eq in E. exfalso. apply Ha. now left.
  - rewrite IH; [reflexivity|]. intros H. apply Ha. now right.
Qed.

Lemma strip_digits (digits rest : pystr) :
  forallb is_decimal_digit digits = true ->
  forall read,
    strip_placeholders (Some read) (digits ++ rest)
    = strip_placeholders (Some (read ++ digits)) rest.
Proof.
  induction digits as [|d digits IH]; intros Hd read.
  - now rewrite app_nil_r.
  - cbn [forallb] in Hd. apply andb_prop in Hd as [Hd Hrest].
    cbn [app Mapping.strip_placeholders]. rewrite Hd, IH by assumption.
    now rewrite <- app_assoc.
Qed.

Lemma strip_one_placeholder (a digits b : pystr) :
  ~ In Mapping.lbrace a ->
  digits <> [] ->
  forallb is_decimal_digit digits = true ->
  is_decimal_digit Mapping.rbrace = false ->
  strip_placeholders None
    (a ++ Mapping.lbrace :: digits ++ Mapping.rbrace :: b)
  = a ++ strip_placeholders None b.
Proof.
  intros Ha Hne Hd Hr. rewrite strip_before_a_brace by assumption.
  f_equal. cbn [Mapping.strip_placeholders]. rewrite Z.eqb_refl.
  rewrite strip_digits by assumption. cbn [app Mapping.strip_placeholders].
  rewrite Hr, Z.eqb_refl.
  destruct digits as [|d digits]; [congruence | reflexivity].
Qed.

(** X21. An index placeholder, digits in braces, does not reach the
    pattern: for a rule without contexts whose [in] is a text, a
    placeholder and a text, the two texts without braces, [rule_to_regex]
    compiles the two texts put together, case-insensitively exactly when
    [case_sensitive] is falsy, and logs nothing. *)
Theorem placeholder_stays_out_of_the_pattern
    (kw : odict) (case_sensitive : value) (r : rule) (s : store)
    (a digits b : pystr) :
  in_ r = a ++ Mapping.lbrace :: digits ++ Mapping.rbrace :: b ->
  ~ In Mapping.lbrace a ->
  ~ In Mapping.lbrace b ->
  digits <> [] ->
  forallb is_decimal_digit digits = true ->
  is_decimal_digit Mapping.rbrace = false ->
  context_before r = [] ->
  context_after r = [] ->
  lookup "case_sensitive" kw = Some case_sensitive ->
  re_compiles (a ++ b) = true ->
  rule_to_regex kw r s
  = (Ok (PCompiled (a ++ b) (negb (truthy case_sensitive))), s).
Proof.
  intros Hin Ha Hb Hne Hd Hr Hbefore Hafter Hcs Hre.
  unfold Mapping.rule_to_regex. rewrite Hin, Hbefore, Hafter, Hcs.
  rewrite strip_one_placeholder by assumption.
  replace (strip_placeholders None b) with b.
  - assert (Hnonempty : Mapping.is_empty
                          (a ++ Mapping.lbrace :: digits
                             ++ Mapping.rbrace :: b) = false)
      by now destruct a.
    rewrite Hnonempty. cbn [Mapping.is_empty].
    change (Utils.create_fixed_width_lookbehind is_letter_or_mark [])
      with (@nil char).
    cbn [app]. rewrite app_nil_r, Hre. reflexivity.
  - pose proof (strip_before_a_brace b [] Hb) as H.
    rewrite app_nil_r in H. cbn [Mapping.strip_placeholders] in H.
    cbn [Mapping.pending_text] in H. rewrite app_nil_r in H. now symmetry.
Qed.

End Placeholders.

Lemma placeholder_stays_out_of_the_pattern_witness :
  Mapping.rule_to_regex ascii_letter ascii_digit (fun _ => true)
    [("case_sensitive", VBool false)]%string
    (plain_rule (str_of "a{1}b") (str_of "c") [] []) empty_store
  = (Ok (PCompiled (str_of "ab") true), empty_store).
Proof.
  apply (placeholder_stays_out_of_the_pattern ascii_letter ascii_digit
           (fun _ => true) [("case_sensitive", VBool false)]%string
           (VBool false) (plain_rule (str_of "a{1}b") (str_of "c") [] [])
           empty_store (str_of "a") (str_of "1") (str_of "b"));
    try reflexivity.
  - cbn. intuition discriminate.
  - cbn. intuition discriminate.
  - discriminate.
Defined.


(** ** Reading a compiled mapping back *)

Lemma get_all_match_pattern (f : rule -> pattern) (rules : list rule) :
  Mapping.get_all "match_pattern"
    (map (fun r => Mapping.set_match_pattern r (f r)) rules)
  = Ok (map (fun r => Mapping.Pattern_value (f r)) rules).
Proof.
  induction rules as [|r rules IH]; [reflexivity|].
  cbn [map Mapping.get_all]. rewrite IH. reflexivity.
Qed.

Section Read_back.

Variables (is_letter_or_mark is_decimal_digit : char -> bool).
Variable re_compiles : pystr -> bool.

Local Abbreviation compile_all :=
  (Mapping.compile_all is_letter_or_mark is_decimal_digit re_compiles).
Local Abbreviation compilable :=
  (compilable is_letter_or_mark is_decimal_digit re_compiles).

(** X22. Once the closing loop of [process_kwargs] has compiled a list
    without a null rule, [inventory("match_pattern")] lists the compiled
    pattern of every rule in order, while [plain_mapping], [inventory] of
    the inputs and [__len__] give what they gave before: compiling adds
    the patterns and touches neither the texts nor the number of rules. *)
Theorem compiled_mapping_reads_back
    (kw : odict) (case_sensitive : value) (self : Mapping.mapping_object)
    (s : store) :
  lookup "case_sensitive" kw = Some case_sensitive ->
  (forall x, In x (lists s (Mapping.mapping self)) ->
             compilable (dicts s x)) ->
  exists t,
    compile_all kw (Mapping.mapping self) s = (Ok tt, t)
    /\ fst (Mapping.inventory self "match_pattern" t)
       = Ok (map (pattern_of is_letter_or_mark is_decimal_digit
                    case_sensitive)
               (view s (Mapping.mapping self)))
    /\ Mapping.plain_mapping self t = Mapping.plain_mapping self s
    /\ fst (Mapping.inventory self "in" t)
       = fst (Mapping.inventory self "in" s)
    /\ Mapping.len_mapping self t = Mapping.len_mapping self s.
Proof.
  intros Hcs Hall.
  destruct (compile_all_compiles is_letter_or_mark is_decimal_digit
              re_compiles kw case_sensitive Hcs s (Mapping.mapping self)
              Hall) as (t & Hrun & Hlists & Hlog & Hview & Hout).
  exists t. split; [exact Hrun|].
  unfold Mapping.inventory, Mapping.plain_mapping, Mapping.len_mapping.
  cbn [fst]. rewrite Hview, Hlists. unfold compiled.
  split; [apply get_all_match_pattern|].
  split; [now rewrite map_map|].
  split; [|reflexivity].
  clear. induction (view s (Mapping.mapping self)) as [|r rules IH];
    [reflexivity|].
  cbn [map Mapping.get_all]. rewrite IH. reflexivity.
Qed.

End Read_back.

Lemma compiled_mapping_reads_back_witness :
  exists t,
    Mapping.compile_all ascii_letter ascii_digit (fun _ => true)
      [("case_sensitive", VBool true)]%string
      (Mapping.mapping reversed_mapping) registry_store = (Ok tt, t)
    /\ fst (Mapping.inventory reversed_mapping "match_pattern" t)
       = Ok (map (pattern_of ascii_letter ascii_digit (VBool true))
               (view registry_store (Mapping.mapping reversed_mapping)))
    /\ Mapping.plain_mapping reversed_mapping t
       = Mapping.plain_mapping reversed_mapping registry_store
    /\ fst (Mapping.inventory reversed_mapping "in" t)
       = fst (Mapping.inventory reversed_mapping "in" registry_store)
    /\ Mapping.len_mapping reversed_mapping t
       = Mapping.len_mapping reversed_mapping registry_store.
Proof.
  apply (compiled_mapping_reads_back ascii_letter ascii_digit (fun _ => true)
           [("case_sensitive", VBool true)]%string (VBool true)
           reversed_mapping registry_store).
  - reflexivity.
  - intros x Hx. split; [|reflexivity].
    cbn in Hx. destruct Hx as [<- | [<- | []]]; discriminate.
Defined.


(** ** Rules that have been processed before *)

Section Processed_before.

Variables (re_compiles : pystr -> bool) (lower re_escape : pystr -> pystr).
Variable normalize : pystr -> value -> result pystr.
Variable re_search : pystr -> pystr -> bool.
Variable re_sub : pystr -> pystr -> pystr -> result pystr.

Local Abbreviation expand_abbreviation :=
  (Mapping.expand_abbreviation re_compiles re_search re_sub).
Local Abbreviation expand_abbreviations :=
  (Mapping.expand_abbreviations re_compiles re_search re_sub).
Local Abbreviation apply_kwarg :=
  (Mapping.apply_kwarg lower re_escape normalize).

Lemma expand_abbreviation_skips (m : loc) (item : pystr * list pystr)
    (s : store) :
  empty_or_compiled s m ->
  expand_abbreviation m item s
  = (if re_compiles (fst item) then Ok tt else Raise ReError, s).
Proof.
  unfold empty_or_compiled, Mapping.expand_abbreviation.
  destruct item as [abb stands_for]. cbn [fst].
  destruct (re_compiles abb); [|reflexivity].
  unfold bind, get_list, get_dict.
  destruct (lists s m) as [|first rest]; [reflexivity|].
  now intros ->.
Qed.

(** X23. The abbreviation loop of [__init__] looks at the first rule
    only: when the list is empty or its first rule has a ['match_pattern'],
    as in a list that a Mapping has processed before, no rule is expanded
    and the store stays as it was; the loop still compiles each
    abbreviation, and fails at the first that the regex engine refuses. *)
Theorem abbreviations_skip_a_compiled_list
    (table : Utils.abbreviations) (m : loc) (s : store) :
  empty_or_compiled s m ->
  expand_abbreviations (Some table) m s
  = (if forallb (fun item => re_compiles (fst item)) table
     then Ok tt else Raise ReError, s).
Proof.
  intros Hm. unfold Mapping.expand_abbreviations.
  induction table as [|item table IH]; [reflexivity|].
  cbn [for_each forallb]. unfold bind.
  rewrite expand_abbreviation_skips by assumption.
  destruct (re_compiles (fst item)); [|reflexivity].
  cbn [andb]. exact IH.
Qed.

Lemma escape_text_result (v : pystr) (s : store) :
  exists t,
    Mapping.escape_text re_escape v s = (Ok (re_escape v), t)
    /\ dicts t = dicts s /\ lists t = lists s.
Proof.
  unfold Mapping.escape_text, bind.
  destruct (pystr_eqb (re_escape v) v); eexists; split; try reflexivity;
    split; reflexivity.
Qed.

(** X24. With a truthy [escape_special], a list whose first rule
    already has a ['match_pattern'] makes the flag pipeline raise
    [TypeError]: the escaping runs over every value of the dict and the
    pattern is no string. By then the four texts of that rule, and its
    intermediate form, have been escaped in place. *)
Theorem escape_special_refuses_a_compiled_rule
    (kw : odict) (m : loc) (val : value) (s : store)
    (first : loc) (rest : list loc) (p : pattern) :
  truthy val = true ->
  lists s m = first :: rest ->
  match_pattern (dicts s first) = Some p ->
  exists t,
    apply_kwarg kw m "escape_special" val s = (Raise TypeError, t)
    /\ in_ (dicts t first) = re_escape (in_ (dicts s first))
    /\ out (dicts t first) = re_escape (out (dicts s first))
    /\ context_before (dicts t first)
       = re_escape (context_before (dicts s first))
    /\ context_after (dicts t first)
       = re_escape (context_after (dicts s first))
    /\ intermediate_form (dicts t first)
       = option_map re_escape (intermediate_form (dicts s first))
    /\ lists t = lists s.
Proof.
  intros Hval Hlist Hpattern. unfold Mapping.apply_kwarg. rewrite Hval.
  cbn [String.eqb Ascii.eqb Bool.eqb negb andb].
  unfold Mapping.escape_special, bind at 1, get_list. rewrite Hlist.
  cbn [for_each]. unfold bind at 1. unfold bind at 1.
  unfold Mapping.escape_special_characters.
  unfold bind at 1. unfold get_dict at 1.
  set (r := dicts s first). fold r in Hpattern.
  unfold bind at 1.
  destruct (escape_text_result (in_ r) s) as (t1 & -> & Hd1 & Hl1).
  unfold bind at 1. unfold put_dict at 1. unfold bind at 1.
  match goal with
  | |- context [Mapping.escape_text re_escape (out r) ?u] =>
      destruct (escape_text_result (out r) u) as (t2 & -> & Hd2 & Hl2)
  end.
  unfold bind at 1. unfold put_dict at 1. unfold bind at 1.
  match goal with
  | |- context [Mapping.escape_text re_escape (context_before r) ?u] =>
      destruct (escape_text_result (context_before r) u)
        as (t3 & -> & Hd3 & Hl3)
  end.
  unfold bind at 1. unfold put_dict at 1. unfold bind at 1.
  match goal with
  | |- context [Mapping.escape_text re_escape (context_after r) ?u] =>
      destruct (escape_text_result (context_after r) u)
        as (t4 & -> & Hd4 & Hl4)
  end.
  unfold bind at 1. unfold put_dict at 1. unfold bind at 1.
  rewrite Hpattern.
  assert (Hlists : lists t4 = lists s).
  { rewrite Hl4. cbn [set_dict lists]. rewrite Hl3. cbn [set_dict lists].
    rewrite Hl2. cbn [set_dict lists]. exact Hl1. }
  destruct (intermediate_form r) as [f|] eqn:Hform.
  - unfold bind at 1.
    match goal with
    | |- context [Mapping.escape_text re_escape f ?u] =>
        destruct (escape_text_result f u) as (t5 & -> & Hd5 & Hl5)
    end.
    unfold put_dict, raise. eexists. split; [reflexivity|].
    cbn [set_dict dicts lists]. rewrite Nat.eqb_refl.
    repeat split; try reflexivity.
    rewrite Hl5. cbn [set_dict lists]. exact Hlists.
  - unfold ret, raise. eexists. split; [reflexivity|].
    cbn [set_dict dicts lists]. rewrite Nat.eqb_refl.
    repeat split; try reflexivity; assumption.
Qed.

End Processed_before.

Lemma abbreviations_skip_a_compiled_list_witness :
  Mapping.expand_abbreviations (fun _ => true) (fun _ _ => true)
    (fun _ _ text => Ok text) (Some [(str_of "a", [str_of "x"])]) 2%nat
    compiled_store
  = (Ok tt, compiled_store).
Proof.
  apply (abbreviations_skip_a_compiled_list (fun _ => true)
           (fun _ _ => true) (fun _ _ text => Ok text)
           [(str_of "a", [str_of "x"])] 2%nat compiled_store).
  reflexivity.
Defined.

Lemma escape_special_refuses_a_compiled_rule_witness :
  exists t,
    Mapping.apply_kwarg id id (fun text _ => Ok text) [] 2%nat
      "escape_special" (VBool true) compiled_store
    = (Raise TypeError, t)
    /\ in_ (dicts t 0%nat) = in_ (dicts compiled_store 0%nat)
    /\ out (dicts t 0%nat) = out (dicts compiled_store 0%nat)
    /\ context_before (dicts t 0%nat)
       = context_before (dicts compiled_store 0%nat)
    /\ context_after (dicts t 0%nat)
       = context_after (dicts compiled_store 0%nat)
    /\ intermediate_form (dicts t 0%nat)
       = option_map id (intermediate_form (dicts compiled_store 0%nat))
    /\ lists t = lists compiled_store.
Proof.
  apply (escape_special_refuses_a_compiled_rule id id (fun text _ => Ok text)
           [] 2%nat (VBool true) compiled_store 0%nat [1%nat]
           (PCompiled (str_of "a") false));
    reflexivity.
Defined.


(** ** A construction with the default flags *)

Lemma lookup_app (k : string) (a b : odict) :
  lookup k (a ++ b)
  = match lookup k a with Some v => Some v | None => lookup k b end.
Proof.
  induction a as [|[k0 v0] a IH]; cbn [app lookup]; [reflexivity|].
  destruct (String.eqb k0 k); [reflexivity | exact IH].
Qed.

Lemma sets_no_flag_lookup (kw : odict) (k : string) :
  sets_no_flag kw -> is_key_of six_defaults k = true -> lookup k kw = None.
Proof.
  intros Hkw Hk. induction kw as [|[k0 v0] kw IH]; [reflexivity|].
  cbn [lookup]. destruct (String.eqb k0 k) eqn:E.
  - apply String.eqb_eq in E. subst k0.
    specialize (Hkw (k, v0) (or_introl eq_refl)). cbn [fst] in Hkw.
    congruence.
  - apply IH. intros kv Hin. apply Hkw. now right.
Qed.

Lemma sets_no_flag_defaults (kw : odict) :
  sets_no_flag kw -> Mapping.add_defaults kw = kw ++ six_defaults.
Proof.
  intros Hkw.
  assert (Hkeys : NoDup (map fst six_defaults)).
  { repeat constructor; cbn; intuition discriminate. }
  pose proof (set_defaults_append kw six_defaults Hkeys []
                (fun _ _ => eq_refl)) as H.
  rewrite app_nil_r in H.
  change (fold_left (fun d kv => set_default (fst kv) (snd kv) d)
            six_defaults kw) with (Mapping.add_defaults kw) in H.
  rewrite H. f_equal.
  assert (Hall : forall kv, In kv six_defaults ->
                            negb (has_key (fst kv) kw) = true).
  { intros kv Hin. unfold has_key.
    rewrite (sets_no_flag_lookup kw (fst kv) Hkw); [reflexivity|].
    unfold is_key_of. apply existsb_exists. exists (fst kv).
    split; [now apply in_map | apply String.eqb_refl]. }
  clear H Hkeys. cbn [app]. induction six_defaults as [|kv ds IH]; [reflexivity|].
  cbn [filter]. rewrite (Hall kv (or_introl eq_refl)). f_equal.
  apply IH. intros kv' Hin. apply Hall. now right.
Qed.

(** A loop whose body rewrites the dict it is given, over a list without
    repeats. *)
Lemma for_each_rewrites (body : loc -> M unit) (f : rule -> rule)
    (good : rule -> Prop) :
  (forall x s, good (dicts s x) ->
     exists t, body x s = (Ok tt, t)
               /\ dicts t x = f (dicts s x)
               /\ (forall y, y <> x -> dicts t y = dicts s y)
               /\ lists t = lists s /\ next t = next s /\ log t = log s) ->
  forall l, NoDup l ->
  forall s, (forall x, In x l -> good (dicts s x)) ->
  exists t,
    for_each body l s = (Ok tt, t)
    /\ (forall x, In x l -> dicts t x = f (dicts s x))
    /\ (forall x, ~ In x l -> dicts t x = dicts s x)
    /\ lists t = lists s /\ next t = next s /\ log t = log s.
Proof.
  intros Hbody. induction 1 as [|a l Ha Hl IH]; intros s Hgood;
    cbn [for_each].
  - exists s. repeat split; try reflexivity. intros x [].
  - destruct (Hbody a s (Hgood a (or_introl eq_refl)))
      as (s1 & Hrun1 & Ha1 & Hother1 & Hlists1 & Hnext1 & Hlog1).
    unfold bind. rewrite Hrun1.
    destruct (IH s1) as (t & Hrun & Hin & Hout & Hlists & Hnext & Hlog).
    { intros x Hx. rewrite Hother1; [apply Hgood; now right|].
      intros ->. contradiction. }
    exists t. split; [exact Hrun|].
    split; [|split; [|repeat split; congruence]].
    + intros x [<- | Hx].
      * now rewrite (Hout a Ha).
      * rewrite (Hin x Hx). f_equal. apply Hother1. intros ->. contradiction.
    + intros x Hx. rewrite Hout by (intros Hx'; apply Hx; now right).
      apply Hother1. intros ->. apply Hx. now left.
Qed.

Section Default_flags.

Variables (is_letter_or_mark is_decimal_digit : char -> bool).
Variables (re_compiles : pystr -> bool) (lower re_escape : pystr -> pystr).
Variable normalize : pystr -> value -> result pystr.
Variable MAPPINGS_AVAILABLE : list Mapping.config.
Variable re_search : pystr -> pystr -> bool.
Variable re_sub : pystr -> pystr -> pystr -> result pystr.
Variable fs : Utils.files.
Variable read_mapping_config : pystr -> result Mapping.loaded.

(** The normalization to NFD as a function: it fails on no text. *)
Variable nfd : pystr -> pystr.
Hypothesis normalize_nfd :
  forall text, normalize text (VStr (str_of "NFD")) = Ok (nfd text).

Local Abbreviation apply_kwarg :=
  (Mapping.apply_kwarg lower re_escape normalize).
Local Abbreviation apply_kwargs :=
  (Mapping.apply_kwargs lower re_escape normalize).
Local Abbreviation init :=
  (Mapping.init is_letter_or_mark is_decimal_digit re_compiles lower
     re_escape normalize MAPPINGS_AVAILABLE re_search re_sub fs
     read_mapping_config).
Local Abbreviation compilable :=
  (compilable is_letter_or_mark is_decimal_digit re_compiles).
Local Abbreviation compiled :=
  (compiled is_letter_or_mark is_decimal_digit (VBool true)).

Lemma normalize_rule_nfd (x : loc) (s : store) :
  exists t,
    Mapping.normalize_rule normalize (VStr (str_of "NFD")) x s = (Ok tt, t)
    /\ dicts t x = normalized nfd (dicts s x)
    /\ (forall y, y <> x -> dicts t y = dicts s y)
    /\ lists t = lists s /\ next t = next s /\ log t = log s.
Proof.
  unfold Mapping.normalize_rule, bind, get_dict, put_dict, Mapping.lift.
  rewrite !normalize_nfd. unfold ret.
  destruct (intermediate_form (dicts s x)) as [f|] eqn:Hform.
  - rewrite normalize_nfd. eexists. split; [reflexivity|].
    cbn [set_dict dicts lists next log]. rewrite Nat.eqb_refl.
    split; [unfold normalized; now rewrite Hform|].
    split; [|now repeat split].
    intros y Hy. apply Nat.eqb_neq in Hy. now rewrite Hy.
  - eexists. split; [reflexivity|].
    cbn [set_dict dicts lists next log]. rewrite Nat.eqb_refl.
    split; [unfold normalized, Mapping.with_texts; now rewrite Hform|].
    split; [|now repeat split].
    intros y Hy. apply Nat.eqb_neq in Hy. now rewrite Hy.
Qed.

Lemma apply_kwargs_no_flag (kw items rest : odict) (m : loc) (s : store) :
  sets_no_flag items ->
  apply_kwargs kw (items ++ rest) m s = apply_kwargs kw rest m s.
Proof.
  induction items as [|[k v] items IH]; intros Hitems; [reflexivity|].
  cbn [app Mapping.apply_kwargs]. unfold bind.
  assert (Hk : is_key_of six_defaults k = false)
    by apply (Hitems (k, v) (or_introl eq_refl)).
  unfold is_key_of in Hk. cbn [six_defaults map fst existsb] in Hk.
  repeat (apply orb_false_elim in Hk as [? Hk]).
  unfold Mapping.apply_kwarg.
  repeat match goal with
         | H : String.eqb k _ = false |- _ => rewrite H; clear H
         end.
  cbn [andb]. unfold ret. apply IH.
  intros kv Hin. apply Hitems. now right.
Qed.

(** X25. A Mapping built from a list that holds no dict twice, with
    kwargs that set none of the six flags and without abbreviations: when
    every rule, once normalized, has a non-empty [in] and a pattern the
    regex engine takes, the construction succeeds; the Mapping holds the
    caller's list; every rule of it has its strings normalized to NFD and
    its pattern compiled case-sensitively, in the order given; the kwargs
    are the caller's followed by the six defaults; nothing is logged. *)
Theorem default_construction_normalizes_and_compiles
    (kw : odict) (m : loc) (s : store) :
  sets_no_flag kw ->
  NoDup (lists s m) ->
  (forall x, In x (lists s m) -> compilable (normalized nfd (dicts s x))) ->
  exists self t,
    init (Mapping.Rule_list m) Mapping.No_abbreviations kw s = (Ok self, t)
    /\ Mapping.mapping self = m
    /\ Mapping.kwargs self = kw ++ six_defaults
    /\ view t m = map (fun r => compiled (normalized nfd r)) (view s m)
    /\ lists t = lists s
    /\ log t = log s.
Proof.
  intros Hkw Hnodup Hall.
  unfold Mapping.init, bind at 1, Mapping.load_abbreviations, ret at 1.
  unfold bind at 1. unfold bind at 1. unfold Utils.validate, ret at 1 2.
  unfold bind at 1. unfold Mapping.expand_abbreviations, ret at 1.
  unfold bind at 1. unfold Mapping.process_kwargs.
  rewrite (sets_no_flag_defaults kw Hkw).
  unfold bind at 1. rewrite apply_kwargs_no_flag by assumption.
  assert (Hform : get_or "norm_form" VNone (kw ++ six_defaults)
                  = VStr (str_of "NFD")).
  { unfold get_or. rewrite lookup_app.
    now rewrite (sets_no_flag_lookup kw "norm_form" Hkw eq_refl). }
  destruct (for_each_rewrites
              (Mapping.normalize_rule normalize (VStr (str_of "NFD")))
              (normalized nfd) (fun _ => True)
              (fun x u _ => normalize_rule_nfd x u)
              (lists s m) Hnodup s (fun _ _ => I))
    as (s1 & Hrun1 & Hin1 & Hout1 & Hlists1 & Hnext1 & Hlog1).
  assert (Hsteps : apply_kwargs (kw ++ six_defaults) six_defaults m s
                   = (Ok m, s1)).
  { unfold six_defaults at 2. cbn [Mapping.apply_kwargs].
    unfold bind at 1. unfold Mapping.apply_kwarg at 1.
    cbn [String.eqb Ascii.eqb Bool.eqb truthy negb andb]. unfold ret at 1.
    unfold bind at 1. unfold Mapping.apply_kwarg at 1.
    cbn [String.eqb Ascii.eqb Bool.eqb truthy negb andb]. unfold ret at 1.
    unfold bind at 1. unfold Mapping.apply_kwarg at 1.
    cbn [String.eqb Ascii.eqb Bool.eqb truthy negb andb]. unfold ret at 1.
    unfold bind at 1. unfold Mapping.apply_kwarg at 1.
    change (truthy (VStr (str_of "NFD"))) with true.
    cbn [String.eqb Ascii.eqb Bool.eqb negb andb].
    rewrite Hform. unfold Mapping.normalize_mappings.
    unfold bind at 1. unfold bind at 1. unfold get_list at 1.
    unfold bind at 1. rewrite Hrun1. unfold ret at 1.
    unfold Mapping.apply_kwarg, bind.
    cbn [String.eqb Ascii.eqb Bool.eqb truthy negb andb]. reflexivity. }
  rewrite Hsteps.
  assert (Hcs : lookup "case_sensitive" (kw ++ six_defaults)
                = Some (VBool true)).
  { rewrite lookup_app.
    now rewrite (sets_no_flag_lookup kw "case_sensitive" Hkw eq_refl). }
  destruct (compile_all_compiles is_letter_or_mark is_decimal_digit
              re_compiles (kw ++ six_defaults) (VBool true) Hcs s1 m)
    as (t & Hrun & Hlists & Hlog & Hview & Hout).
  { intros x Hx. rewrite Hlists1 in Hx. rewrite (Hin1 x Hx).
    now apply Hall. }
  unfold bind at 1. rewrite Hrun. unfold ret.
  eexists. exists t. split; [reflexivity|]. cbn [Mapping.mapping Mapping.kwargs fst snd].
  split; [reflexivity|]. split; [reflexivity|].
  split; [|split; congruence].
  rewrite Hview. unfold view. rewrite Hlists1, !map_map.
  apply map_ext_in. intros x Hx. now rewrite (Hin1 x Hx).
Qed.

End Default_flags.

Lemma default_construction_normalizes_and_compiles_witness :
  exists self t,
    sample_init [] (Mapping.Rule_list 2%nat) Mapping.No_abbreviations
      [("in_lang", VStr (str_of "hun"))]%string registry_store
    = (Ok self, t)
    /\ Mapping.mapping self = 2%nat
    /\ Mapping.kwargs self
       = [("in_lang", VStr (str_of "hun"))]%string ++ six_defaults
    /\ view t 2%nat
       = map (fun r => compiled ascii_letter ascii_digit (VBool true)
                         (normalized (fun text => text) r))
           (view registry_store 2%nat)
    /\ lists t = lists registry_store
    /\ log t = log registry_store.
Proof.
  apply (default_construction_normalizes_and_compiles ascii_letter
           ascii_digit (fun _ => true) (fun t => t) (fun t => t)
           (fun t _ => Ok t) [] (fun _ _ => false) (fun _ _ t => Ok t)
           empty_disk (fun _ => Raise FileNotFoundError) (fun text => text)
           (fun _ => eq_refl) [("in_lang", VStr (str_of "hun"))]%string
           2%nat registry_store).
  - intros kv [<- | []]. reflexivity.
  - repeat constructor; cbn; intuition discriminate.
  - intros x Hx. split; [|reflexivity].
    cbn in Hx. destruct Hx as [<- | [<- | []]]; discriminate.
Defined.

